(** * kube-plays: the Pod Security warning aggregator

    A shallow embedding of the warning handler of [main.go] (both the
    enriching variant with pointer slices and the older value-slice
    variant), of the dry-run loop and the owner-resolution loop of [app],
    of the older file's [app] with [checkAllNamespaces] and
    [dryUpdateNamespace], of [warningsMapper.String] and of
    [mapAuditToEnforce], together with the properties stated about them.

    Go strings are byte sequences: they are modelled by [string], whose
    characters are the 256 [ascii] values.  A Go run-time panic is an
    explicit outcome of the model, never an absent result. *)

From Stdlib Require Import ZArith Ascii String List Lia.
From stdpp Require Import base option list strings gmap fin_maps.

Local Open Scope string_scope.
Local Open Scope list_scope.

(** ** Outcomes of Go code *)

(** Where an index expression of the source can go out of range. *)
Inductive site : Type :=
| LastPSViolation      (* w.PSViolations[len(w.PSViolations)-1] *)
| TitleMatches0        (* titleMatches[0] *)
| TitleMatches1        (* titleMatches[1] *)
| Submatch1            (* titleMatches[i][1] *)
| TextSplit0           (* textSplit[0] *)
| TextSplit1           (* textSplit[1] *)
| PodOwnerReferences0  (* pod.OwnerReferences[0] *)
| ReplicaSetOwnerReferences0. (* replicaSet.OwnerReferences[0] *)

Inductive panic : Type :=
| IndexOutOfRange (at_ : site) (index : Z) (len : nat)
| NilDereference       (* a field access through a nil pointer *)
| NilMapAssignment.    (* assignment to an entry of a nil map *)

(** A Go call either returns or panics. *)
Inductive outcome (A : Type) : Type :=
| Ret (a : A)
| Panic (p : panic).
Arguments Ret {A} a.
Arguments Panic {A} p.

#[global] Instance outcome_ret : MRet outcome := fun A a => Ret a.
#[global] Instance outcome_bind : MBind outcome := fun A B k m =>
  match m with
  | Ret a => k a
  | Panic p => Panic p
  end.

#[global] Instance outcome_fmap : FMap outcome := fun A B f m =>
  match m with
  | Ret a => Ret (f a)
  | Panic p => Panic p
  end.

(** [xs[i]] on a slice: a run-time panic when [i] is out of range. *)
Definition index {A} (at_ : site) (xs : list A) (i : Z) : outcome A :=
  if (i <? 0)%Z then Panic (IndexOutOfRange at_ i (length xs))
  else match xs !! Z.to_nat i with
       | Some x => Ret x
       | None => Panic (IndexOutOfRange at_ i (length xs))
       end.

(** ** The [strings] package, as far as the source uses it *)

Module strings.

(** The byte 0x22, the double quote. *)
Definition dquote : ascii := ascii_of_nat 34.

(** [strings.HasPrefix(s, prefix)]. *)
Fixpoint HasPrefix (s prefix : string) {struct prefix} : bool :=
  match prefix, s with
  | EmptyString, _ => true
  | String _ _, EmptyString => false
  | String p prefix', String c s' =>
      if Ascii.eqb c p then HasPrefix s' prefix' else false
  end.

(** [s[n:]] for [n <= len(s)]. *)
Fixpoint skip (n : nat) (s : string) : string :=
  match n, s with
  | O, _ => s
  | S n', String _ s' => skip n' s'
  | S _, EmptyString => EmptyString
  end.

(** [strings.Cut(s, sep)]: the text before and after the first (leftmost)
    occurrence of [sep]; [None] when [strings.Index(s, sep) < 0]. *)
Fixpoint Cut (s sep : string) : option (string * string) :=
  if HasPrefix s sep then Some (EmptyString, skip (String.length sep) s)
  else match s with
       | EmptyString => None
       | String c s' =>
           match Cut s' sep with
           | Some (before, after) => Some (String c before, after)
           | None => None
           end
       end.

(** The loop of [genSplit(s, sep, 0, -1)]: cut at the leftmost occurrence
    of [sep] and go on with the rest.  [fuel] bounds the number of
    iterations; [String.length s] is always enough for a non-empty
    [sep]. *)
Fixpoint genSplit (fuel : nat) (s sep : string) : list string :=
  match fuel with
  | O => [s]
  | S fuel' =>
      match Cut s sep with
      | None => [s]
      | Some (before, after) => before :: genSplit fuel' after sep
      end
  end.

(** [strings.Split(s, sep)] for a non-empty separator, the only kind the
    source passes. *)
Definition Split (s sep : string) : list string :=
  genSplit (String.length s) s sep.

(** White space as [unicode.IsSpace] defines it, by UTF-8 encoding.  Every
    such code point has a valid encoding, and [utf8.DecodeRuneInString] /
    [utf8.DecodeLastRuneInString] return one exactly when its encoding is
    a prefix / a suffix of the bytes at hand. *)
Definition byte (n : nat) : ascii := ascii_of_nat n.

Definition spaceEncodings : list string :=
  (* '\t', '\n', '\v', '\f', '\r', ' ' *)
  map (fun n => String (byte n) EmptyString) [9; 10; 11; 12; 13; 32]
  (* U+0085, U+00A0 *)
  ++ map (fun n => String (byte 194) (String (byte n) EmptyString)) [133; 160]
  (* U+1680 *)
  ++ [String (byte 225) (String (byte 154) (String (byte 128) EmptyString))]
  (* U+2000 .. U+200A, U+2028, U+2029, U+202F *)
  ++ map (fun n => String (byte 226) (String (byte 128) (String (byte n) EmptyString)))
       [128; 129; 130; 131; 132; 133; 134; 135; 136; 137; 138; 168; 169; 175]
  (* U+205F, U+3000 *)
  ++ [String (byte 226) (String (byte 129) (String (byte 159) EmptyString));
      String (byte 227) (String (byte 128) (String (byte 128) EmptyString))].

(** The length of a white-space rune that starts [s], if there is one. *)
Definition leadingSpace (s : string) : option nat :=
  String.length <$> List.find (HasPrefix s) spaceEncodings.

(** [strings.TrimLeftFunc(s, unicode.IsSpace)]. *)
Fixpoint trimLeft (fuel : nat) (s : string) : string :=
  match fuel with
  | O => s
  | S fuel' =>
      match leadingSpace s with
      | Some n => trimLeft fuel' (skip n s)
      | None => s
      end
  end.

Definition TrimLeftSpace (s : string) : string := trimLeft (String.length s) s.

(** [strings.TrimRightFunc(s, unicode.IsSpace)], on the reversed bytes. *)
Definition revs (s : string) : string :=
  string_of_list_ascii (rev (list_ascii_of_string s)).

Definition trailingSpace (r : string) : option nat :=
  String.length <$> List.find (fun e => HasPrefix r (revs e)) spaceEncodings.

Fixpoint trimRight (fuel : nat) (r : string) : string :=
  match fuel with
  | O => r
  | S fuel' =>
      match trailingSpace r with
      | Some n => trimRight fuel' (skip n r)
      | None => r
      end
  end.

Definition TrimRightSpace (s : string) : string :=
  revs (trimRight (String.length s) (revs s)).

(** [strings.TrimSpace(s)]: leading white space removed, then trailing. *)
Definition TrimSpace (s : string) : string :=
  TrimRightSpace (TrimLeftSpace s).

End strings.

(** ** The [regexp] package, specialised to [titleRegex] *)

Module regexp.
Import strings.

(** The longest run of bytes other than the double quote, and what
    follows it. *)
Fixpoint spanNotQuote (s : string) : string * string :=
  match s with
  | EmptyString => (EmptyString, EmptyString)
  | String c s' =>
      if Ascii.eqb c dquote then (EmptyString, s)
      else let (run, rest) := spanNotQuote s' in (String c run, rest)
  end.

(** A match of [titleRegex] (a quote, one or more bytes that are not a
    quote, captured, and a quote) that starts at the first byte of [s]: the
    captured group and the text after the closing quote.  The group is
    the whole run of non-quote bytes, since the byte after it has to be a
    quote; an empty run, or one that reaches the end of the text, is no
    match. *)
Definition matchHere (s : string) : option (string * string) :=
  match s with
  | EmptyString => None
  | String c s' =>
      if Ascii.eqb c dquote then
        match spanNotQuote s' with
        | (String r run, String _ rest) => Some (String r run, rest)
        | _ => None
        end
      else None
  end.

(** Leftmost, non-overlapping matches: after a match the search goes on
    behind it, otherwise one byte further. *)
Fixpoint findAll (fuel : nat) (s : string) : list (list string) :=
  match fuel with
  | O => []
  | S fuel' =>
      match s with
      | EmptyString => []
      | String _ s' =>
          match matchHere s with
          | Some (group, rest) =>
              [String dquote (group +:+ String dquote EmptyString); group]
                :: findAll fuel' rest
          | None => findAll fuel' s'
          end
      end
  end.

(** [titleRegex.FindAllStringSubmatch(s, -1)]: per match, the matched
    text and the text of the one group. *)
Definition FindAllStringSubmatch (s : string) : list (list string) :=
  findAll (String.length s) s.

End regexp.

(** The two texts of the comment in [warningsMapper.String]. *)
Definition quoted (s : string) : string :=
  String strings.dquote (s +:+ String strings.dquote EmptyString).

Definition exampleNamespaceWarning : string :=
  "existing pods in namespace " +:+ quoted "p0t-sekurity"
  +:+ " violate the new PodSecurity enforce level " +:+ quoted "restricted:latest".

Definition examplePodWarning : string :=
  "p0t-sekurity: allowPrivilegeEscalation != false, unrestricted capabilities".

(** ** Kubernetes API objects, as far as the source reads them *)

Module metav1.
Record OwnerReference := { Kind : string; Name : string }.
End metav1.

Module corev1.
Record Pod := { Name : string; OwnerReferences : list metav1.OwnerReference }.
(** [Labels] is a Go map: [None] is the nil map. *)
Record Namespace := { NsName : string; Labels : option (gmap string string) }.
End corev1.

Module appsv1.
Record ReplicaSet :=
  { RsName : string; OwnerReferences : list metav1.OwnerReference }.
Record Deployment := { Name : string }.
End appsv1.

(** A Go [error] value that is not nil. *)
Definition error : Type := string.

(** The typed clients of [kubernetes.Clientset] the source calls, each
    [Get] by namespace and name.  The cluster is taken not to change
    during one run, and the answers to carry no warning header. *)
Record Clientset := {
  GetPod : string -> string -> corev1.Pod + error;
  GetReplicaSet : string -> string -> appsv1.ReplicaSet + error;
  GetDeployment : string -> string -> appsv1.Deployment + error;
}.

Module rest.
(** [rest.WarningHandler]: the effect of one
    [HandleWarningHeader(code, agent, text)] call on a handler, on the
    part [World] of the program state the handler can touch. *)
Definition WarningHandler (World : Type) : Type :=
  Z -> string -> string -> World -> World.
End rest.

(** ** The enriching variant: pointer slices *)

(** A pointer is an address of the store it points into; an address that
    holds nothing behaves as the nil pointer.  The stores only grow: [&x]
    puts [x] behind what is there and yields its position. *)
Definition loc : Type := nat.

Module canonical.

Record PodViolation := {
  Name : string;
  Deployment : option appsv1.Deployment;
  Pod : option corev1.Pod;
  Violations : list string;
}.

(** [PodViolations] is a [[]*PodViolation]. *)
Record PSViolation := {
  Namespace : string;
  Level : string;
  PodViolations : list loc;
}.

Section WithWorld.
(** What the wrapped handler can touch. *)
Context {World : Type}.

(** [PSViolations] is a [[]*PSViolation]; a nil [defaultHandler] is
    [None]. *)
Record warningsMapper := {
  defaultHandler : option (rest.WarningHandler World);
  PSViolations : list loc;
}.

(** The mapper [w] points to, the objects its slices point to, and the
    rest of the program state. *)
Record state := {
  w : warningsMapper;
  psvs : list PSViolation;
  pods : list PodViolation;
  world : World;
}.

Definition deref {A} (heap : list A) (p : loc) : outcome A :=
  match heap !! p with
  | Some x => Ret x
  | None => Panic NilDereference
  end.

(** [w.defaultHandler.HandleWarningHeader(code, agent, text)] unless
    the handler is nil. *)
Definition forward (code : Z) (agent text : string) (s : state) : state :=
  match defaultHandler (w s) with
  | None => s
  | Some h =>
      {| w := w s; psvs := psvs s; pods := pods s;
         world := h code agent text (world s) |}
  end.

Definition namespacePrefix : string := "existing pods in namespace".

Definition HandleWarningHeader (code : Z) (agent text : string) (s : state)
  : outcome state :=
  if String.eqb text EmptyString then Ret s
  else
    let s :=
      if Nat.eqb (length (PSViolations (w s))) 0
      then {| w := {| defaultHandler := defaultHandler (w s);
                      PSViolations := [] |};
              psvs := psvs s; pods := pods s; world := world s |}
      else s in
    s ←
      (if strings.HasPrefix text namespacePrefix then
         let titleMatches := regexp.FindAllStringSubmatch text in
         m0 ← index TitleMatches0 titleMatches 0;
         namespace ← index Submatch1 m0 1;
         m1 ← index TitleMatches1 titleMatches 1;
         level ← index Submatch1 m1 1;
         let psv := {| Namespace := namespace; Level := level;
                       PodViolations := [] |} in
         Ret {| w := {| defaultHandler := defaultHandler (w s);
                        PSViolations :=
                          PSViolations (w s) ++ [length (psvs s)] |};
                psvs := psvs s ++ [psv];
                pods := pods s; world := world s |}
       else
         lastPSViolation ←
           index LastPSViolation (PSViolations (w s))
             (Z.of_nat (length (PSViolations (w s))) - 1);
         let textSplit := strings.Split text ": " in
         t0 ← index TextSplit0 textSplit 0;
         let podName := strings.TrimSpace t0 in
         t1 ← index TextSplit1 textSplit 1;
         let violations := strings.Split t1 ", " in
         let podViolation :=
           {| Name := podName; Deployment := None; Pod := None;
              Violations := violations |} in
         last ← deref (psvs s) lastPSViolation;
         Ret {| w := w s;
                psvs :=
                  <[lastPSViolation :=
                      {| Namespace := Namespace last; Level := Level last;
                         PodViolations :=
                           PodViolations last ++ [length (pods s)] |}]>
                    (psvs s);
                pods := pods s ++ [podViolation];
                world := world s |});
    Ret (forward code agent text s).

(** The warnings of one run, in the order the transport hands them
    over. *)
Fixpoint handleAll (warnings : list (Z * string * string)) (s : state)
  : outcome state :=
  match warnings with
  | [] => Ret s
  | (code, agent, text) :: rest =>
      s' ← HandleWarningHeader code agent text s; handleAll rest s'
  end.

(** [wh := &warningsMapper{}]. *)
Definition empty (wd : World) : state :=
  {| w := {| defaultHandler := None; PSViolations := [] |};
     psvs := []; pods := []; world := wd |}.

(** What [w.PSViolations] shows when the pointers are followed, as
    [json.Encoder] does: a nil pointer shows as [None]. *)
Record NamespaceViolation := {
  namespace : string;
  level : string;
  podViolations : list (option PodViolation);
}.

Definition viewPSViolation (s : state) (p : loc) : option NamespaceViolation :=
  (fun v => {| namespace := Namespace v; level := Level v;
               podViolations := map (fun q => pods s !! q) (PodViolations v) |})
    <$> psvs s !! p.

Definition view (s : state) : list (option NamespaceViolation) :=
  map (viewPSViolation s) (PSViolations (w s)).

(** *** The owner-resolution loop of [app] *)

Definition setPod (pod : corev1.Pod) (v : PodViolation) : PodViolation :=
  {| Name := Name v; Deployment := Deployment v; Pod := Some pod;
     Violations := Violations v |}.

Definition setDeployment (d : appsv1.Deployment) (v : PodViolation)
  : PodViolation :=
  {| Name := Name v; Deployment := Some d; Pod := Pod v;
     Violations := Violations v |}.

(** An assignment to fields of the [PodViolation] that [p] points to. *)
Definition updatePod (p : loc) (f : PodViolation -> PodViolation) (s : state)
  : outcome state :=
  v ← deref (pods s) p;
  Ret {| w := w s; psvs := psvs s; pods := <[p := f v]> (pods s);
         world := world s |}.

(** The body of the inner loop, for the pod violation [podViolation]
    points to, found in namespace [ns].  The result carries the error
    the body returns with, if it does. *)
Definition resolveOwner (client : Clientset) (ns : string)
    (podViolation : loc) (s : state) : outcome (state * option error) :=
  v ← deref (pods s) podViolation;
  match GetPod client ns (Name v) with
  | inr err => Ret (s, Some err)
  | inl pod =>
      s ← updatePod podViolation (setPod pod) s;
      owner ← index PodOwnerReferences0 (corev1.OwnerReferences pod) 0;
      if String.eqb (metav1.Kind owner) "Deployment" then
        match GetDeployment client ns (metav1.Name owner) with
        | inr err => Ret (s, Some err)
        | inl deployment =>
            s ← updatePod podViolation (setDeployment deployment) s;
            Ret (s, None)
        end
      else if String.eqb (metav1.Kind owner) "ReplicaSet" then
        match GetReplicaSet client ns (metav1.Name owner) with
        | inr err => Ret (s, Some err)
        | inl replicaSet =>
            rsOwner ←
              index ReplicaSetOwnerReferences0
                (appsv1.OwnerReferences replicaSet) 0;
            match GetDeployment client ns (metav1.Name rsOwner) with
            | inr err => Ret (s, Some err)
            | inl deployment =>
                s ← updatePod podViolation (setDeployment deployment) s;
                Ret (s, None)
            end
        end
      else Ret (s, None)
  end.

(** [for _, podViolation := range psv.PodViolations]. *)
Fixpoint resolvePods (client : Clientset) (ns : string)
    (podViolations : list loc) (s : state) : outcome (state * option error) :=
  match podViolations with
  | [] => Ret (s, None)
  | p :: rest =>
      r ← resolveOwner client ns p s;
      match r with
      | (s', Some err) => Ret (s', Some err)
      | (s', None) => resolvePods client ns rest s'
      end
  end.

(** [for _, psv := range wh.PSViolations]. *)
Fixpoint resolveNamespaces (client : Clientset) (psViolations : list loc)
    (s : state) : outcome (state * option error) :=
  match psViolations with
  | [] => Ret (s, None)
  | q :: rest =>
      psv ← deref (psvs s) q;
      r ← resolvePods client (Namespace psv) (PodViolations psv) s;
      match r with
      | (s', Some err) => Ret (s', Some err)
      | (s', None) => resolveNamespaces client rest s'
      end
  end.

Definition enrich (client : Clientset) (s : state)
  : outcome (state * option error) :=
  resolveNamespaces client (PSViolations (w s)) s.

(** *** The report *)

(** [json.NewEncoder(&b).Encode(v)] followed by [b.String()]: the
    text written, or the encoder's error. *)
Context (Encode : list (option NamespaceViolation) -> string + error).

Definition String (s : state) : string :=
  if Nat.eqb (length (PSViolations (w s))) 0 then EmptyString
  else match Encode (view s) with
       | inr _ => EmptyString
       | inl out => out
       end.

End WithWorld.
Arguments warningsMapper : clear implicits.
Arguments state : clear implicits.

End canonical.

(** ** [mapAuditToEnforce] *)

Definition auditLabel : string := "pod-security.kubernetes.io/audit".
Definition enforceLabel : string := "pod-security.kubernetes.io/enforce".

(** [m[k]] read from a Go map: the zero value when [k] is absent, also
    from the nil map. *)
Definition mapGet (m : option (gmap string string)) (k : string) : string :=
  default EmptyString (m ≫= fun g => g !! k).

(** [m[k] = v]: a run-time panic on the nil map. *)
Definition mapSet (m : option (gmap string string)) (k v : string)
  : outcome (option (gmap string string)) :=
  match m with
  | None => Panic NilMapAssignment
  | Some g => Ret (Some (<[k := v]> g))
  end.

Definition withLabels (n : corev1.Namespace) (l : option (gmap string string))
  : corev1.Namespace :=
  {| corev1.NsName := corev1.NsName n; corev1.Labels := l |}.

(** The argument is a (non-nil) pointer: the result is the object it points
    to after the call, and the object returned.  [DeepCopy] shares nothing
    with its argument, so the copy is the same value held apart. *)
Definition mapAuditToEnforce (namespace : corev1.Namespace)
  : outcome (corev1.Namespace * corev1.Namespace) :=
  let ns := namespace in
  namespace ←
    (if String.eqb (mapGet (corev1.Labels ns) auditLabel) EmptyString then
       l ← mapSet (corev1.Labels namespace) auditLabel "restricted";
       Ret (withLabels namespace l)
     else Ret namespace);
  l ← mapSet (corev1.Labels ns) enforceLabel
        (mapGet (corev1.Labels namespace) auditLabel);
  Ret (namespace, withLabels ns l).

(** ** The older variant: value slices *)

Module simple.

Record PodViolation := {
  Name : string;
  Peployment : option appsv1.Deployment;
  Violations : list string;
}.

Record PSViolation := {
  Namespace : string;
  Level : string;
  PodViolations : list PodViolation;
}.

Section WithWorld.
Context {World : Type}.

Record warningsMapper := {
  defaultHandler : option (rest.WarningHandler World);
  PSViolations : list PSViolation;
}.

Record state := { w : warningsMapper; world : World }.

Definition forward (code : Z) (agent text : string) (s : state) : state :=
  match defaultHandler (w s) with
  | None => s
  | Some h => {| w := w s; world := h code agent text (world s) |}
  end.

(** A slice is seen as the list of its [len] elements: [append] to a
    copy of a slice header never changes what the header copied from
    shows. *)
Definition HandleWarningHeader (code : Z) (agent text : string) (s : state)
  : outcome state :=
  if String.eqb text EmptyString then Ret s
  else
    let s :=
      if Nat.eqb (length (PSViolations (w s))) 0
      then {| w := {| defaultHandler := defaultHandler (w s);
                      PSViolations := [] |};
              world := world s |}
      else s in
    s ←
      (if strings.HasPrefix text canonical.namespacePrefix then
         let titleMatches := regexp.FindAllStringSubmatch text in
         m0 ← index TitleMatches0 titleMatches 0;
         namespace ← index Submatch1 m0 1;
         m1 ← index TitleMatches1 titleMatches 1;
         level ← index Submatch1 m1 1;
         let psv := {| Namespace := namespace; Level := level;
                       PodViolations := [] |} in
         Ret {| w := {| defaultHandler := defaultHandler (w s);
                        PSViolations := PSViolations (w s) ++ [psv] |};
                world := world s |}
       else
         (* a copy of the struct, not a pointer into the slice *)
         lastPSViolation ←
           index LastPSViolation (PSViolations (w s))
             (Z.of_nat (length (PSViolations (w s))) - 1);
         let textSplit := strings.Split text ":" in
         t0 ← index TextSplit0 textSplit 0;
         let podName := strings.TrimSpace t0 in
         t1 ← index TextSplit1 textSplit 1;
         let violations := strings.Split t1 "," in
         let podViolation :=
           {| Name := podName; Peployment := None;
              Violations := violations |} in
         (* the assignment is to the field of the local copy, which is
            dead after this block *)
         let lastPSViolation :=
           {| Namespace := Namespace lastPSViolation;
              Level := Level lastPSViolation;
              PodViolations :=
                PodViolations lastPSViolation ++ [podViolation] |} in
         Ret s);
    Ret (forward code agent text s).

Fixpoint handleAll (warnings : list (Z * string * string)) (s : state)
  : outcome state :=
  match warnings with
  | [] => Ret s
  | (code, agent, text) :: rest =>
      s' ← HandleWarningHeader code agent text s; handleAll rest s'
  end.

Definition empty (wd : World) : state :=
  {| w := {| defaultHandler := None; PSViolations := [] |}; world := wd |}.

Context (Encode : list PSViolation -> string + error).

Definition String (s : state) : string :=
  if Nat.eqb (length (PSViolations (w s))) 0 then EmptyString
  else match Encode (PSViolations (w s)) with
       | inr _ => EmptyString
       | inl out => out
       end.

End WithWorld.
Arguments warningsMapper : clear implicits.
Arguments state : clear implicits.

End simple.


(** ** The message shapes *)

(** Namespace-shape: the text begins with the literal prefix. *)
Definition isNamespaceShape (text : string) : bool :=
  strings.HasPrefix text canonical.namespacePrefix.

(** Pod-shape: any other text that is not empty. *)
Definition isPodShape (text : string) : bool :=
  negb (String.eqb text EmptyString) && negb (isNamespaceShape text).


(** ** Vocabulary of the properties *)

(** A handler that records the calls it receives. *)
Definition spy : rest.WarningHandler (list (Z * string * string)) :=
  fun code agent text calls => (calls ++ [(code, agent, text)])%list.

(** The reading of the empty-text rule by which a handler that is set is
    still called. *)
Definition emptyTextForwarded {World} (s : canonical.state World)
    (code : Z) (agent : string) : Prop :=
  canonical.HandleWarningHeader code agent EmptyString s
  = Ret (canonical.forward code agent EmptyString s).

Definition spied : canonical.state (list (Z * string * string)) :=
  {| canonical.w := {| canonical.defaultHandler := Some spy;
                       canonical.PSViolations := [] |};
     canonical.psvs := []; canonical.pods := []; canonical.world := [] |}.

(** The mapper after the example namespace warning alone. *)
Definition afterNamespaceWarning : canonical.state unit :=
  {| canonical.w := {| canonical.defaultHandler := None;
                       canonical.PSViolations := [0] |};
     canonical.psvs := [{| canonical.Namespace := "p0t-sekurity";
                           canonical.Level := "restricted:latest";
                           canonical.PodViolations := [] |}];
     canonical.pods := []; canonical.world := tt |}.

(** The piece that [textSplit[1]] reads: the text up to the second
    separator, or all of it when there is none. *)
Definition firstPiece (rest sep : string) : string :=
  match strings.Cut rest sep with
  | Some (piece, _) => piece
  | None => rest
  end.

(** The pod violation that the pod-shape branch would store if the
    violations list were all the text after the first separator. *)
Definition splitAtFirstOnly (text : string) : Prop :=
  forall name rest,
    strings.Cut text ": " = Some (name, rest) ->
    exists s',
      canonical.HandleWarningHeader 299 "-" text afterNamespaceWarning = Ret s'
      /\ last (canonical.pods s')
         = Some {| canonical.Name := strings.TrimSpace name;
                   canonical.Deployment := None; canonical.Pod := None;
                   canonical.Violations := strings.Split rest ", " |}.

(** *** Runs of warnings *)

Definition textOf (warning : Z * string * string) : string := snd warning.

(** Every pod-shape text has a namespace-shape text somewhere before it. *)
Definition podsPreceded (texts : list string) : Prop :=
  forall i t,
    texts !! i = Some t -> isPodShape t = true ->
    exists j u, j < i /\ texts !! j = Some u /\ isNamespaceShape u = true.

(** The same, checked in one pass; [seen] tells whether a namespace-shape
    text came before [texts]. *)
Fixpoint podsPrecededb (seen : bool) (texts : list string) : bool :=
  match texts with
  | [] => true
  | t :: rest =>
      if isNamespaceShape t then podsPrecededb true rest
      else if isPodShape t then seen && podsPrecededb seen rest
      else podsPrecededb seen rest
  end.

(** A text in the format the handler indexes into without a check: a
    namespace-shape text with two quoted segments or more, a pod-shape
    text with the separator; the empty text is skipped. *)
Definition wellFormedb (text : string) : bool :=
  if isNamespaceShape text
  then (2 <=? length (regexp.FindAllStringSubmatch text))%nat
  else if isPodShape text then bool_decide (is_Some (strings.Cut text ": "))
  else true.

(** The first two quoted segments of a text. *)
Definition titles (text : string) : option (string * string) :=
  match regexp.FindAllStringSubmatch text with
  | [_; ns] :: [_; lvl] :: _ => Some (ns, lvl)
  | _ => None
  end.

(** Namespace and level of each entry of the tree, in order. *)
Definition namespacesOf (tree : list (option canonical.NamespaceViolation))
  : list (option (string * string)) :=
  map (fmap (fun v => (canonical.namespace v, canonical.level v))) tree.

(** One entry per namespace-shape text, in arrival order, for every run in
    which the pod-shape texts are preceded. *)
Definition oneEntryPerNamespaceText (warnings : list (Z * string * string))
  : Prop :=
  podsPreceded (map textOf warnings) ->
  exists s',
    canonical.handleAll warnings (canonical.empty tt) = Ret s'
    /\ namespacesOf (canonical.view s')
       = map titles (filter (fun t => isNamespaceShape t = true)
                       (map textOf warnings)).

(** Every pointer of [w.PSViolations] points to an object. *)
Definition locsValid {World} (s : canonical.state World) : Prop :=
  Forall (fun p => p < length (canonical.psvs s))
    (canonical.PSViolations (canonical.w s)).

Definition hasNamespace {World} (s : canonical.state World) : bool :=
  match canonical.PSViolations (canonical.w s) with
  | [] => false
  | _ :: _ => true
  end.

Definition storedNamespaces {World} (s : canonical.state World)
  : list (option (string * string)) :=
  map (fun p => (fun v => (canonical.Namespace v, canonical.Level v))
                  <$> canonical.psvs s !! p)
    (canonical.PSViolations (canonical.w s)).

(** The same for the value-slice variant, which splits at the colon
    alone. *)
Definition simpleWellFormedb (text : string) : bool :=
  if isNamespaceShape text
  then (2 <=? length (regexp.FindAllStringSubmatch text))%nat
  else if isPodShape text then bool_decide (is_Some (strings.Cut text ":"))
  else true.

(** *** The report and the label mapping *)

(** An encoder to run [String] with: it writes one-entry trees only. *)
Definition exampleEncode (tree : list (option canonical.NamespaceViolation))
  : string + error :=
  match tree with
  | [Some v] => inl ("[{Namespace:" +:+ canonical.namespace v +:+ "}]")
  | _ => inr "json: unsupported value"
  end.

Definition twoNamespaces : canonical.state unit :=
  {| canonical.w := {| canonical.defaultHandler := None;
                       canonical.PSViolations := [0; 1] |};
     canonical.psvs := canonical.psvs afterNamespaceWarning
                       ++ canonical.psvs afterNamespaceWarning;
     canonical.pods := []; canonical.world := tt |}.

(** The mutation and the copy as worded, for any input namespace. *)
Definition auditMappedToEnforce (namespace : corev1.Namespace) : Prop :=
  exists namespace' ns,
    mapAuditToEnforce namespace = Ret (namespace', ns)
    /\ (mapGet (corev1.Labels namespace) auditLabel = EmptyString ->
        mapGet (corev1.Labels namespace') auditLabel = "restricted")
    /\ mapGet (corev1.Labels ns) enforceLabel
       = mapGet (corev1.Labels namespace') auditLabel
    /\ mapGet (corev1.Labels ns) auditLabel
       = mapGet (corev1.Labels namespace) auditLabel
    /\ forall k, k <> enforceLabel ->
         mapGet (corev1.Labels ns) k = mapGet (corev1.Labels namespace) k.

(** A namespace object without labels, as [createNamespaceAndPod] builds
    one when it is given no labels. *)
Definition unlabelled : corev1.Namespace :=
  {| corev1.NsName := "p0t-sekurity"; corev1.Labels := None |}.

Definition labelled : corev1.Namespace :=
  {| corev1.NsName := "p0t-sekurity";
     corev1.Labels :=
       Some {[ "kubernetes.io/metadata.name" := "p0t-sekurity" ]} |}.

(** *** What a report shows of the tree *)

(** Per entry: namespace, level, and name and violations of each pod
    violation.  This is the part of the report the two variants share. *)
Definition reportShape : Type :=
  list (string * string * list (string * list string)).

Definition canonicalReport {World} (s : canonical.state World) : reportShape :=
  omap (fmap (fun v =>
          (canonical.namespace v, canonical.level v,
           omap (fmap (fun p => (canonical.Name p, canonical.Violations p)))
             (canonical.podViolations v))))
    (canonical.view s).

Definition simpleReport {World} (s : simple.state World) : reportShape :=
  map (fun v =>
         (simple.Namespace v, simple.Level v,
          map (fun p => (simple.Name p, simple.Violations p))
            (simple.PodViolations v)))
    (simple.PSViolations (simple.w s)).

Definition exampleWarnings : list (Z * string * string) :=
  [(299, "-", exampleNamespaceWarning); (299, "-", examplePodWarning)]%Z.

(** *** Owner resolution *)

(** What the resolution of one pod violation [v], found in namespace [ns],
    is to give: the pod fetched by name is attached; the deployment is the
    pod's first owner when that is a Deployment, the first owner of the
    pod's first owner when that is a ReplicaSet, and is left as it was for
    a first owner of any other kind. *)
Inductive resolved (client : Clientset) (ns : string)
    (v : canonical.PodViolation) : canonical.PodViolation -> Prop :=
| resolved_deployment pod owner owners deployment :
    GetPod client ns (canonical.Name v) = inl pod ->
    corev1.OwnerReferences pod = owner :: owners ->
    metav1.Kind owner = "Deployment" ->
    GetDeployment client ns (metav1.Name owner) = inl deployment ->
    resolved client ns v
      (canonical.setDeployment deployment (canonical.setPod pod v))
| resolved_replicaSet pod owner owners replicaSet rsOwner rsOwners deployment :
    GetPod client ns (canonical.Name v) = inl pod ->
    corev1.OwnerReferences pod = owner :: owners ->
    metav1.Kind owner = "ReplicaSet" ->
    GetReplicaSet client ns (metav1.Name owner) = inl replicaSet ->
    appsv1.OwnerReferences replicaSet = rsOwner :: rsOwners ->
    GetDeployment client ns (metav1.Name rsOwner) = inl deployment ->
    resolved client ns v
      (canonical.setDeployment deployment (canonical.setPod pod v))
| resolved_other pod owner owners :
    GetPod client ns (canonical.Name v) = inl pod ->
    corev1.OwnerReferences pod = owner :: owners ->
    metav1.Kind owner <> "Deployment" ->
    metav1.Kind owner <> "ReplicaSet" ->
    resolved client ns v (canonical.setPod pod v).

(** The pod-violation pointers the loops visit, in order. *)
Fixpoint podPointers (psvs : list canonical.PSViolation) (qs : list loc)
  : list loc :=
  match qs with
  | [] => []
  | q :: rest =>
      default [] (canonical.PodViolations <$> psvs !! q)
      ++ podPointers psvs rest
  end.

(** A tree the pass gets through: no nil pointer, no pod violation reached
    twice, and for each pod violation every fetch on its way answers. *)
Definition enrichable {World} (client : Clientset) (s : canonical.state World)
  : Prop :=
  (forall q, q ∈ canonical.PSViolations (canonical.w s) ->
             is_Some (canonical.psvs s !! q))
  /\ NoDup (podPointers (canonical.psvs s)
              (canonical.PSViolations (canonical.w s)))
  /\ (forall q psv p,
         q ∈ canonical.PSViolations (canonical.w s) ->
         canonical.psvs s !! q = Some psv ->
         p ∈ canonical.PodViolations psv ->
         exists v v',
           canonical.pods s !! p = Some v
           /\ resolved client (canonical.Namespace psv) v v').

(** The state [s] with the pod violation at [p] replaced. *)
Definition withPod {World} (p : loc) (v : canonical.PodViolation)
    (s : canonical.state World) : canonical.state World :=
  {| canonical.w := canonical.w s; canonical.psvs := canonical.psvs s;
     canonical.pods := <[p := v]> (canonical.pods s);
     canonical.world := canonical.world s |}.

(** A cluster to run the pass on: a pod owned through a replica set by a
    deployment, a pod owned by a job, and a pod owned by nothing. *)
Definition exampleClient : Clientset :=
  {| GetPod := fun _ name =>
       if String.eqb name "p0t-sekurity" then
         inl {| corev1.Name := name;
                corev1.OwnerReferences :=
                  [{| metav1.Kind := "ReplicaSet";
                      metav1.Name := "p0t-sekurity-5d4f" |}] |}
       else if String.eqb name "backup-28391" then
         inl {| corev1.Name := name;
                corev1.OwnerReferences :=
                  [{| metav1.Kind := "Job"; metav1.Name := "backup" |}] |}
       else if String.eqb name "debug-shell" then
         inl {| corev1.Name := name; corev1.OwnerReferences := [] |}
       else inr "pods not found";
     GetReplicaSet := fun _ name =>
       if String.eqb name "p0t-sekurity-5d4f" then
         inl {| appsv1.RsName := name;
                appsv1.OwnerReferences :=
                  [{| metav1.Kind := "Deployment";
                      metav1.Name := "p0t-sekurity" |}] |}
       else inr "replicasets.apps not found";
     GetDeployment := fun _ name =>
       if String.eqb name "p0t-sekurity" then inl {| appsv1.Name := name |}
       else inr "deployments.apps not found" |}.

(** The tree after the example namespace warning and one pod warning for
    the pod [name]. *)
Definition treeWithPod (name : string) : canonical.state unit :=
  {| canonical.w := {| canonical.defaultHandler := None;
                       canonical.PSViolations := [0] |};
     canonical.psvs := [{| canonical.Namespace := "p0t-sekurity";
                           canonical.Level := "restricted:latest";
                           canonical.PodViolations := [0] |}];
     canonical.pods := [{| canonical.Name := name;
                           canonical.Deployment := None;
                           canonical.Pod := None;
                           canonical.Violations := ["runAsNonRoot != true"] |}];
     canonical.world := tt |}.

(** The rule for a pod without owner references as worded: nothing set,
    no error. *)
Definition ownerlessLeftUnset {World} (client : Clientset)
    (s : canonical.state World) : Prop :=
  forall q psv p v pod,
    q ∈ canonical.PSViolations (canonical.w s) ->
    canonical.psvs s !! q = Some psv ->
    p ∈ canonical.PodViolations psv ->
    canonical.pods s !! p = Some v ->
    GetPod client (canonical.Namespace psv) (canonical.Name v) = inl pod ->
    corev1.OwnerReferences pod = [] ->
    exists s',
      canonical.enrich client s = Ret (s', None)
      /\ canonical.Deployment <$> canonical.pods s' !! p
         = Some (canonical.Deployment v).

(** *** Quoted segments *)

(** No byte of [s] is the double quote. *)
Fixpoint noQuote (s : string) : bool :=
  match s with
  | EmptyString => true
  | String c s' => negb (Ascii.eqb c strings.dquote) && noQuote s'
  end.

(** *** Trees the handler builds *)

(** From the empty mapper the handler allocates in order: the [n]-th
    namespace violation is the [n]-th pointer of the slice, and the pod
    violation pointers, read entry by entry, count up from 0. *)
Definition allocatedInOrder {World} (s : canonical.state World) : Prop :=
  canonical.PSViolations (canonical.w s) = seq 0 (length (canonical.psvs s))
  /\ podPointers (canonical.psvs s) (canonical.PSViolations (canonical.w s))
     = seq 0 (length (canonical.pods s)).

(** ** The tree by value *)

(** What the pod-shape branch stores for a text with the separator. *)
Definition podViolationOf (text : string) : option canonical.PodViolation :=
  match strings.Cut text ": " with
  | Some (name, rest) =>
      Some {| canonical.Name := strings.TrimSpace name;
              canonical.Deployment := None; canonical.Pod := None;
              canonical.Violations :=
                strings.Split (firstPiece rest ": ") ", " |}
  | None => None
  end.

(** What the namespace-shape branch stores for a text with two quoted
    segments. *)
Definition entryOf (text : string) : option canonical.NamespaceViolation :=
  (fun t => {| canonical.namespace := fst t; canonical.level := snd t;
               canonical.podViolations := [] |}) <$> titles text.

(** A pod violation put behind those of the last entry. *)
Fixpoint addToLast (pv : canonical.PodViolation)
    (tree : list canonical.NamespaceViolation)
  : list canonical.NamespaceViolation :=
  match tree with
  | [] => []
  | [v] =>
      [{| canonical.namespace := canonical.namespace v;
          canonical.level := canonical.level v;
          canonical.podViolations := canonical.podViolations v ++ [Some pv] |}]
  | v :: rest => v :: addToLast pv rest
  end.

(** The tree without pointers: a namespace-shape text opens an entry, a
    pod-shape text goes to the entry opened last. *)
Definition treeStep (tree : list canonical.NamespaceViolation) (text : string)
  : list canonical.NamespaceViolation :=
  if isNamespaceShape text then
    match entryOf text with
    | Some v => tree ++ [v]
    | None => tree
    end
  else if isPodShape text then
    match podViolationOf text with
    | Some pv => addToLast pv tree
    | None => tree
    end
  else tree.

Definition treeOf (texts : list string) : list canonical.NamespaceViolation :=
  fold_left treeStep texts [].

(** The part of the state the handler stores into. *)
Definition stored {World} (s : canonical.state World)
  : list loc * list canonical.PSViolation * list canonical.PodViolation :=
  (canonical.PSViolations (canonical.w s), canonical.psvs s, canonical.pods s).

Definition nonEmptyText (warning : Z * string * string) : bool :=
  negb (String.eqb (textOf warning) EmptyString).

(** The calls a handler [h] gets, one after the other. *)
Definition forwardAll {World} (h : rest.WarningHandler World)
    (warnings : list (Z * string * string)) (wd : World) : World :=
  fold_left (fun wd c => h (fst (fst c)) (snd (fst c)) (snd c) wd) warnings wd.

(** The pod violations of a tree, read entry by entry. *)
Definition podViolationsOf (tree : list canonical.NamespaceViolation)
  : list (option canonical.PodViolation) :=
  concat (map canonical.podViolations tree).

Definition allPodViolations (tree : list (option canonical.NamespaceViolation))
  : list (option canonical.PodViolation) :=
  concat (map (fun o => default [] (canonical.podViolations <$> o)) tree).

(** A namespace warning in the format of the source comment. *)
Definition namespaceWarning (ns lvl : string) : string :=
  "existing pods in namespace " +:+ quoted ns
  +:+ " violate the new PodSecurity enforce level " +:+ quoted lvl.

(** The warnings of two dry-run updates, one after the other. *)
Definition twoUpdates : list (Z * string * string) :=
  [(299, "-", namespaceWarning "shop" "restricted:latest");
   (299, "-", "web-0: runAsNonRoot != true, seccompProfile");
   (299, "-", "web-1 (and 2 other pods): allowPrivilegeEscalation != false");
   (299, "-", EmptyString);
   (299, "-", namespaceWarning "db" "baseline:v1.24");
   (299, "-", "pg-0: hostPath volumes")]%Z.

Definition twoUpdatesTree : list canonical.NamespaceViolation :=
  [{| canonical.namespace := "shop"; canonical.level := "restricted:latest";
      canonical.podViolations :=
        [Some {| canonical.Name := "web-0"; canonical.Deployment := None;
                 canonical.Pod := None;
                 canonical.Violations :=
                   ["runAsNonRoot != true"; "seccompProfile"] |};
         Some {| canonical.Name := "web-1 (and 2 other pods)";
                 canonical.Deployment := None; canonical.Pod := None;
                 canonical.Violations :=
                   ["allowPrivilegeEscalation != false"] |}] |};
   {| canonical.namespace := "db"; canonical.level := "baseline:v1.24";
      canonical.podViolations :=
        [Some {| canonical.Name := "pg-0"; canonical.Deployment := None;
                 canonical.Pod := None;
                 canonical.Violations := ["hostPath volumes"] |}] |}].

(** *** What the pass may change *)

(** [s'] differs from [s] at most in the pod and deployment fields of pod
    violations. *)
Definition enrichedOnly {World} (s s' : canonical.state World) : Prop :=
  canonical.w s' = canonical.w s
  /\ canonical.psvs s' = canonical.psvs s
  /\ canonical.world s' = canonical.world s
  /\ length (canonical.pods s') = length (canonical.pods s)
  /\ forall p,
       canonical.Name <$> canonical.pods s' !! p
       = canonical.Name <$> canonical.pods s !! p
       /\ canonical.Violations <$> canonical.pods s' !! p
          = canonical.Violations <$> canonical.pods s !! p.

(** A cluster whose replica set has lost its owner, and one in which the
    deployment of the example is gone. *)
Definition orphanedReplicaSetClient : Clientset :=
  {| GetPod := GetPod exampleClient;
     GetReplicaSet := fun _ name =>
       inl {| appsv1.RsName := name; appsv1.OwnerReferences := [] |};
     GetDeployment := GetDeployment exampleClient |}.

Definition noDeploymentClient : Clientset :=
  {| GetPod := GetPod exampleClient;
     GetReplicaSet := GetReplicaSet exampleClient;
     GetDeployment := fun _ _ => inr "deployments.apps not found" |}.

(** A tree with two pod violations in one entry. *)
Definition treeWithTwoPods (name1 name2 : string) : canonical.state unit :=
  {| canonical.w := {| canonical.defaultHandler := None;
                       canonical.PSViolations := [0] |};
     canonical.psvs := [{| canonical.Namespace := "p0t-sekurity";
                           canonical.Level := "restricted:latest";
                           canonical.PodViolations := [0; 1] |}];
     canonical.pods :=
       [{| canonical.Name := name1; canonical.Deployment := None;
           canonical.Pod := None;
           canonical.Violations := ["runAsNonRoot != true"] |};
        {| canonical.Name := name2; canonical.Deployment := None;
           canonical.Pod := None;
           canonical.Violations := ["runAsNonRoot != true"] |}];
     canonical.world := tt |}.

(** ** The driving loop and [app] *)

(** [client.CoreV1().Namespaces()], as far as the source calls it.  A
    dry-run [Update] answers with the warning headers of its response,
    which the transport hands to the configured handler before the call
    returns, and with its error; the other answers are taken to carry no
    warning header. *)
Record NamespaceInterface := {
  List : list corev1.Namespace + error;
  Get : string -> corev1.Namespace + error;
  Update : corev1.Namespace -> list (Z * string * string) * option error;
}.

(** The level the dry run asks to enforce: the audit level, or restricted
    when there is none. *)
Definition enforcedLevel (labels : option (gmap string string)) : string :=
  if String.eqb (mapGet labels auditLabel) EmptyString then "restricted"
  else mapGet labels auditLabel.

Module driver.
Section WithWorld.
Context {World : Type}.

(** The loop over [namespaceList.Items] in [app] (in the older file:
    [checkAllNamespaces] with [dryUpdateNamespace]).  The loop variable is
    a copy of the item, and nothing reads it after the call. *)
Fixpoint gather (namespaces : NamespaceInterface)
    (items : list corev1.Namespace) (s : canonical.state World)
  : outcome (canonical.state World * option error) :=
  match items with
  | [] => Ret (s, None)
  | namespace :: rest =>
      r ← mapAuditToEnforce namespace;
      let stricterNamespace := snd r in
      let response := Update namespaces stricterNamespace in
      s ← canonical.handleAll (fst response) s;
      match snd response with
      | Some err => Ret (s, Some err)
      | None => gather namespaces rest s
      end
  end.

Context (Encode : list (option canonical.NamespaceViolation) -> string + error).

(** [app] of the enriching file, from the clients that
    [BuildConfigFromFlags] and [NewForConfig] give, or their error: the
    lines printed and the error returned. *)
Definition app (clients : Clientset * NamespaceInterface + error) (wd : World)
  : outcome (list string * option error) :=
  match clients with
  | inr err => Ret ([], Some err)
  | inl (client, namespaces) =>
      let wh := canonical.empty wd in
      match List namespaces with
      | inr err => Ret ([], Some err)
      | inl items =>
          r ← gather namespaces items wh;
          match r with
          | (_, Some err) => Ret ([], Some err)
          | (wh, None) =>
              r ← canonical.enrich client wh;
              match r with
              | (_, Some err) => Ret ([], Some err)
              | (wh, None) => Ret ([canonical.String Encode wh], None)
              end
          end
      end
  end.

End WithWorld.
End driver.

(** The request the loop sends for a namespace with labels. *)
Definition requestFor (namespace : corev1.Namespace) : corev1.Namespace :=
  withLabels namespace
    (Some (<[enforceLabel := enforcedLevel (corev1.Labels namespace)]>
             (default ∅ (corev1.Labels namespace)))).

(** The warnings of the responses to the requests for [items]. *)
Definition responses (namespaces : NamespaceInterface)
    (items : list corev1.Namespace) : list (Z * string * string) :=
  concat (map (fun n => fst (Update namespaces (requestFor n))) items).

Definition labelledItem (n : corev1.Namespace) : bool :=
  match corev1.Labels n with
  | Some _ => true
  | None => false
  end.

Definition accepted (namespaces : NamespaceInterface) (n : corev1.Namespace)
  : bool :=
  match snd (Update namespaces (requestFor n)) with
  | None => true
  | Some _ => false
  end.

(** A cluster with two namespaces, whose dry-run updates answer with the
    warnings of [twoUpdates]; for any other namespace the update fails. *)
Definition shopNs : corev1.Namespace :=
  {| corev1.NsName := "shop";
     corev1.Labels := Some {[ auditLabel := "restricted" ]} |}.

Definition dbNs : corev1.Namespace :=
  {| corev1.NsName := "db";
     corev1.Labels := Some {[ "kubernetes.io/metadata.name" := "db" ]} |}.

Definition goneNs : corev1.Namespace :=
  {| corev1.NsName := "gone"; corev1.Labels := Some ∅ |}.

Definition exampleNamespaces : NamespaceInterface :=
  {| List := inl [shopNs; dbNs];
     Get := fun _ => inr "namespaces not found";
     Update := fun n =>
       if String.eqb (corev1.NsName n) "shop" then (take 4 twoUpdates, None)
       else if String.eqb (corev1.NsName n) "db" then (drop 4 twoUpdates, None)
       else ([(299, "-", namespaceWarning "gone" "restricted:latest")]%Z,
             Some "namespaces not found") |}.

(** A cluster with the one namespace and the one pod of the example of the
    source. *)
Definition sekurityNamespaces : NamespaceInterface :=
  {| List := inl [labelled];
     Get := fun _ => inl labelled;
     Update := fun _ => (exampleWarnings, None) |}.

(** The entries of the older variant, as namespace and level. *)
Definition simpleNamespaces {World} (ss : simple.state World)
  : list (option (string * string)) :=
  map (fun v => Some (simple.Namespace v, simple.Level v))
    (simple.PSViolations (simple.w ss)).

(** *** The older file's driver *)

Module simpleDriver.
Section WithWorld.
Context {World : Type}.

(** [dryUpdateNamespace]: the handler sees the warnings of the response
    before the call returns its error. *)
Definition dryUpdateNamespace (namespaces : NamespaceInterface)
    (namespace : corev1.Namespace) (s : simple.state World)
  : outcome (simple.state World * option error) :=
  let response := Update namespaces namespace in
  s ← simple.handleAll (fst response) s;
  Ret (s, snd response).

(** The loop of [checkAllNamespaces]. *)
Fixpoint checkEach (namespaces : NamespaceInterface)
    (items : list corev1.Namespace) (s : simple.state World)
  : outcome (simple.state World * option error) :=
  match items with
  | [] => Ret (s, None)
  | namespace :: rest =>
      r ← mapAuditToEnforce namespace;
      let modifiedNs := snd r in
      r ← dryUpdateNamespace namespaces modifiedNs s;
      match r with
      | (s, Some err) => Ret (s, Some err)
      | (s, None) => checkEach namespaces rest s
      end
  end.

Definition checkAllNamespaces (namespaces : NamespaceInterface)
    (s : simple.state World) : outcome (simple.state World * option error) :=
  match List namespaces with
  | inr err => Ret (s, Some err)
  | inl items => checkEach namespaces items s
  end.

Definition checkProblematicNamespace (namespaces : NamespaceInterface)
    (s : simple.state World) : outcome (simple.state World * option error) :=
  match Get namespaces "p0t-sekurity" with
  | inr err => Ret (s, Some err)
  | inl namespace =>
      r ← mapAuditToEnforce namespace;
      dryUpdateNamespace namespaces (snd r) s
  end.

Context (Encode : list simple.PSViolation -> string + error).

(** [app] of the older file: the lines printed and the error returned. *)
Definition app (clients : NamespaceInterface + error) (wd : World)
  : outcome (list string * option error) :=
  match clients with
  | inr err => Ret ([], Some err)
  | inl namespaces =>
      let wh := simple.empty wd in
      r ← checkAllNamespaces namespaces wh;
      match r with
      | (_, Some err) => Ret ([], Some err)
      | (wh, None) => Ret ([simple.String Encode wh], None)
      end
  end.

End WithWorld.
End simpleDriver.

(** An encoder for the older variant's tree that fails on a pod
    violation. *)
Definition namespacesOnlyEncode (tree : list simple.PSViolation)
  : string + error :=
  if forallb (fun v => Nat.eqb (length (simple.PodViolations v)) 0) tree
  then inl (String.concat "," (map simple.Namespace tree))
  else inr "json: unsupported value".

(** The mapper after the first three and after the first five warnings of
    [twoUpdates]. *)
Definition afterShop : canonical.state unit :=
  Eval vm_compute in
    match canonical.handleAll (take 3 twoUpdates) (canonical.empty tt) with
    | Ret s => s
    | Panic _ => canonical.empty tt
    end.

Definition afterDbOpened : canonical.state unit :=
  Eval vm_compute in
    match canonical.handleAll (take 5 twoUpdates) (canonical.empty tt) with
    | Ret s => s
    | Panic _ => canonical.empty tt
    end.

(** The spying mapper after the warnings of [twoUpdates]. *)
Definition spiedAfterTwoUpdates : canonical.state (list (Z * string * string)) :=
  Eval vm_compute in
    match canonical.handleAll twoUpdates spied with
    | Ret s => s
    | Panic _ => spied
    end.

(** * Properties *)

Example strings_demo :
  strings.Split "a: b: c" ": " = ["a"; "b"; "c"]
  /\ strings.Split "abc" ": " = ["abc"]
  /\ strings.Split "x, y" ", " = ["x"; "y"]
  /\ strings.Split "a::b" ":" = ["a"; EmptyString; "b"]
  /\ strings.Split EmptyString ":" = [EmptyString]
  /\ strings.TrimSpace "  p0t " = "p0t"
  /\ strings.TrimSpace "   " = EmptyString.
Proof. repeat split. Qed.

(** A no-break space (C2 A0) and an em space (E2 80 83) are trimmed, a
    lone lead byte E2 is not. *)
Example TrimSpace_unicode :
  let nbsp := String (strings.byte 194) (String (strings.byte 160) EmptyString) in
  let emsp :=
    String (strings.byte 226)
      (String (strings.byte 128) (String (strings.byte 131) EmptyString)) in
  let lead := String (strings.byte 226) EmptyString in
  strings.TrimSpace (nbsp +:+ " web-0" +:+ emsp +:+ nbsp) = "web-0"
  /\ strings.TrimSpace (lead +:+ "web-0 " +:+ lead) = lead +:+ "web-0 " +:+ lead.
Proof. split; reflexivity. Qed.

(** Matches are leftmost and do not overlap; an empty pair of quotes and
    an unclosed quote match nothing. *)
Example regexp_demo :
  regexp.FindAllStringSubmatch exampleNamespaceWarning
  = [[quoted "p0t-sekurity"; "p0t-sekurity"];
     [quoted "restricted:latest"; "restricted:latest"]]
  /\ regexp.FindAllStringSubmatch (quoted "a" +:+ "b" +:+ quoted "c")
     = [[quoted "a"; "a"]; [quoted "c"; "c"]]
  /\ regexp.FindAllStringSubmatch (quoted EmptyString +:+ "a" +:+ quoted "b")
     = [[quoted "a"; "a"]]
  /\ regexp.FindAllStringSubmatch (quoted EmptyString) = []
  /\ regexp.FindAllStringSubmatch
       (String strings.dquote "abc") = [].
Proof. repeat split. Qed.

(** ** Slice indexing *)

Lemma index_in_range {A} (s : site) (xs : list A) (i : nat) (x : A) :
  xs !! i = Some x -> index s xs (Z.of_nat i) = Ret x.
Proof.
  intros H. unfold index.
  destruct (Z.ltb_spec (Z.of_nat i) 0) as [Hlt | _]; [lia |].
  by rewrite Nat2Z.id, H.
Qed.

Lemma index_last {A} (s : site) (xs : list A) (x : A) :
  index s (xs ++ [x]) (Z.of_nat (length (xs ++ [x])) - 1) = Ret x.
Proof.
  rewrite length_app. simpl.
  replace (Z.of_nat (length xs + 1) - 1)%Z with (Z.of_nat (length xs)) by lia.
  apply index_in_range.
  rewrite lookup_app_r by lia. by rewrite Nat.sub_diag.
Qed.

Lemma index_empty_last {A} (s : site) :
  index s (@nil A) (Z.of_nat (length (@nil A)) - 1)
  = Panic (IndexOutOfRange s (-1) 0).
Proof. reflexivity. Qed.


(** ** The [outcome] monad *)

Lemma bind_Ret {A B} (a : A) (k : A -> outcome B) : (Ret a ≫= k) = k a.
Proof. reflexivity. Qed.

Lemma bind_Panic {A B} (p : panic) (k : A -> outcome B) :
  (Panic p ≫= k) = Panic p.
Proof. reflexivity. Qed.

Lemma bind_Ret_inv {A B} (m : outcome A) (k : A -> outcome B) (y : B) :
  (m ≫= k) = Ret y -> exists a, m = Ret a /\ k a = Ret y.
Proof. destruct m as [a | p]; [eauto | discriminate]. Qed.

(** ** The message shapes *)

Lemma namespaceShape_not_empty (text : string) :
  isNamespaceShape text = true -> String.eqb text EmptyString = false.
Proof. by destruct text. Qed.

Lemma podShape_inv (text : string) :
  isPodShape text = true ->
  String.eqb text EmptyString = false /\ isNamespaceShape text = false.
Proof.
  unfold isPodShape. intros [H1 H2]%andb_prop.
  by apply negb_true_iff in H1, H2.
Qed.

Section CanonicalSteps.
Context {World : Type}.
Implicit Types s : canonical.state World.
Import canonical.

(** The re-initialisation of an empty [w.PSViolations] changes nothing a
    list can show. *)
Lemma reinit_id s :
  (if Nat.eqb (length (PSViolations (w s))) 0
   then {| w := {| defaultHandler := defaultHandler (w s);
                   PSViolations := [] |};
           psvs := psvs s; pods := pods s; world := world s |}
   else s) = s.
Proof. by destruct s as [[dh [| p ps]] ? ? ?]. Qed.

Lemma forward_w code agent text s : w (forward code agent text s) = w s.
Proof. unfold forward. by destruct (defaultHandler (w s)). Qed.

Lemma forward_psvs code agent text s :
  psvs (forward code agent text s) = psvs s.
Proof. unfold forward. by destruct (defaultHandler (w s)). Qed.

Lemma forward_pods code agent text s :
  pods (forward code agent text s) = pods s.
Proof. unfold forward. by destruct (defaultHandler (w s)). Qed.

Lemma forward_nil code agent text s :
  defaultHandler (w s) = None -> forward code agent text s = s.
Proof. unfold forward. by intros ->. Qed.

Lemma handle_empty_text code agent s :
  HandleWarningHeader code agent EmptyString s = Ret s.
Proof. reflexivity. Qed.

(** The namespace-shape branch. *)
Lemma handle_namespace code agent text s :
  isNamespaceShape text = true ->
  HandleWarningHeader code agent text s =
    (let titleMatches := regexp.FindAllStringSubmatch text in
     m0 ← index TitleMatches0 titleMatches 0;
     namespace ← index Submatch1 m0 1;
     m1 ← index TitleMatches1 titleMatches 1;
     level ← index Submatch1 m1 1;
     Ret (forward code agent text
            {| w := {| defaultHandler := defaultHandler (w s);
                       PSViolations :=
                         PSViolations (w s) ++ [length (psvs s)] |};
               psvs := psvs s ++ [{| Namespace := namespace; Level := level;
                                     PodViolations := [] |}];
               pods := pods s; world := world s |})).
Proof.
  intros Hns. unfold HandleWarningHeader.
  rewrite (namespaceShape_not_empty _ Hns), reinit_id.
  unfold isNamespaceShape in Hns. rewrite Hns. cbv zeta.
  destruct (index TitleMatches0 _ 0) as [m0 |]; [| done].
  rewrite !bind_Ret.
  destruct (index Submatch1 m0 1) as [n |]; [| done].
  rewrite !bind_Ret.
  destruct (index TitleMatches1 _ 1) as [m1 |]; [| done].
  rewrite !bind_Ret.
  by destruct (index Submatch1 m1 1).
Qed.

(** The pod-shape branch. *)
Lemma handle_pod code agent text s :
  isPodShape text = true ->
  HandleWarningHeader code agent text s =
    (lastPSViolation ←
       index LastPSViolation (PSViolations (w s))
         (Z.of_nat (length (PSViolations (w s))) - 1);
     let textSplit := strings.Split text ": " in
     t0 ← index TextSplit0 textSplit 0;
     t1 ← index TextSplit1 textSplit 1;
     last ← deref (psvs s) lastPSViolation;
     Ret (forward code agent text
            {| w := w s;
               psvs :=
                 <[lastPSViolation :=
                     {| Namespace := Namespace last; Level := Level last;
                        PodViolations :=
                          PodViolations last ++ [length (pods s)] |}]>
                   (psvs s);
               pods := pods s ++
                 [{| Name := strings.TrimSpace t0; Deployment := None;
                     Pod := None; Violations := strings.Split t1 ", " |}];
               world := world s |})).
Proof.
  intros [Hne Hpod]%podShape_inv. unfold HandleWarningHeader.
  rewrite Hne, reinit_id.
  unfold isNamespaceShape in Hpod. rewrite Hpod. cbv zeta.
  destruct (index LastPSViolation _ _) as [l |]; [| done].
  rewrite !bind_Ret.
  destruct (index TextSplit0 _ 0) as [t0 |]; [| done].
  rewrite !bind_Ret.
  destruct (index TextSplit1 _ 1) as [t1 |]; [| done].
  rewrite !bind_Ret.
  by destruct (deref (psvs s) l).
Qed.

End CanonicalSteps.

(** ** Empty text *)

(** C4, as the code has it: a call with empty text returns at once, with
    the mapper, the objects behind it and the wrapped handler's world all
    as they were, whether or not a default handler is set: nothing is
    stored and nothing is forwarded. *)
Theorem empty_text_is_noop {World} (s : canonical.state World)
    (code : Z) (agent : string) :
  canonical.HandleWarningHeader code agent EmptyString s = Ret s
  /\ canonical.view <$> canonical.HandleWarningHeader code agent EmptyString s
     = Ret (canonical.view s)
  /\ canonical.world <$> canonical.HandleWarningHeader code agent EmptyString s
     = Ret (canonical.world s).
Proof. by rewrite handle_empty_text. Qed.

(** C4 as worded fails: with a spy set as default handler, a call with
    empty text reaches the spy not at all. *)
Lemma empty_text_not_forwarded :
  canonical.forward 299 "-" EmptyString spied <> spied
  /\ canonical.world <$> canonical.HandleWarningHeader 299 "-" EmptyString spied
     = Ret []
  /\ ~ emptyTextForwarded spied 299 "-".
Proof.
  split; [discriminate |]. split; [reflexivity |].
  unfold emptyTextForwarded. discriminate.
Qed.

(** ** The last-element access *)

Lemma nonempty_snoc {A} (xs : list A) :
  xs <> [] -> exists ys y, xs = ys ++ [y].
Proof.
  induction xs as [| x xs IH]; [done |]. intros _.
  destruct xs as [| x' xs'].
  - by exists [], x.
  - destruct IH as (ys & y & ->); [done |]. by exists (x :: ys), y.
Qed.

(** C3: a pod-shape text handled while [w.PSViolations] is empty panics
    with index -1 out of range of a slice of length 0; when the slice is
    not empty the handler does not panic at that index expression,
    whatever else it does, and the pointer read there is not nil when
    every pointer of the slice points to an object. *)
Theorem pod_shape_last_element_access {World} (s : canonical.state World)
    (code : Z) (agent text : string) :
  isPodShape text = true ->
  (canonical.PSViolations (canonical.w s) = [] ->
   canonical.HandleWarningHeader code agent text s
   = Panic (IndexOutOfRange LastPSViolation (-1) 0))
  /\ (canonical.PSViolations (canonical.w s) <> [] ->
      (forall i n,
          canonical.HandleWarningHeader code agent text s
          <> Panic (IndexOutOfRange LastPSViolation i n))
      /\ (locsValid s ->
          canonical.HandleWarningHeader code agent text s
          <> Panic NilDereference)).
Proof.
  intros Hpod. rewrite (handle_pod _ _ _ _ Hpod). split.
  - by intros ->.
  - intros (ps & p & Hw)%nonempty_snoc.
    rewrite Hw, index_last, bind_Ret. cbv zeta.
    destruct (index TextSplit0 _ 0) as [t0 | e0] eqn:E0.
    2:{ unfold index in E0. split; [intros i n | intros _];
        repeat case_match; simplify_eq; done. }
    rewrite bind_Ret.
    destruct (index TextSplit1 _ 1) as [t1 | e1] eqn:E1.
    2:{ unfold index in E1. split; [intros i n | intros _];
        repeat case_match; simplify_eq; done. }
    rewrite bind_Ret. unfold canonical.deref. split.
    + intros i n. by destruct (_ !! p).
    + intros Hval. unfold locsValid in Hval. rewrite Hw in Hval.
      apply Forall_app in Hval as [_ [Hp _]%Forall_cons].
      destruct (lookup_lt_is_Some_2 _ _ Hp) as [v Hv].
      unfold loc in *. by rewrite Hv.
Qed.

Lemma pod_shape_last_element_access_witness :
  (isPodShape examplePodWarning = true
   /\ canonical.PSViolations (canonical.w (canonical.empty tt)) = []
   /\ canonical.HandleWarningHeader 299 "-" examplePodWarning (canonical.empty tt)
      = Panic (IndexOutOfRange LastPSViolation (-1) 0))
  /\ (canonical.PSViolations (canonical.w afterNamespaceWarning) <> []
      /\ (forall i n,
            canonical.HandleWarningHeader 299 "-" examplePodWarning
              afterNamespaceWarning
            <> Panic (IndexOutOfRange LastPSViolation i n))
      /\ (locsValid afterNamespaceWarning ->
          canonical.HandleWarningHeader 299 "-" examplePodWarning
            afterNamespaceWarning
          <> Panic NilDereference)).
Proof.
  split.
  - split; [reflexivity |]. split; [reflexivity |].
    apply (pod_shape_last_element_access (canonical.empty tt) 299 "-"
             examplePodWarning); reflexivity.
  - split; [discriminate |].
    apply (pod_shape_last_element_access afterNamespaceWarning 299 "-"
             examplePodWarning); [reflexivity | discriminate].
Defined.

(** ** The example of the source comment *)

(** C2: from the empty mapper, the example namespace warning followed by
    the example pod warning gives one namespace violation for
    p0t-sekurity at level restricted:latest, holding one pod violation
    named p0t-sekurity with the two violations of the text, in order. *)
Theorem example_warnings_tree {World} (wd : World) (c1 c2 : Z) (a1 a2 : string) :
  canonical.view <$>
    canonical.handleAll
      [(c1, a1, exampleNamespaceWarning); (c2, a2, examplePodWarning)]
      (canonical.empty wd)
  = Ret [Some {| canonical.namespace := "p0t-sekurity";
                 canonical.level := "restricted:latest";
                 canonical.podViolations :=
                   [Some {| canonical.Name := "p0t-sekurity";
                            canonical.Deployment := None;
                            canonical.Pod := None;
                            canonical.Violations :=
                              ["allowPrivilegeEscalation != false";
                               "unrestricted capabilities"] |}] |}].
Proof. reflexivity. Qed.

(** ** [strings.Cut] and [strings.Split] *)

Lemma append_cons (c : ascii) (a b : string) :
  String c a +:+ b = String c (a +:+ b).
Proof. reflexivity. Qed.

Lemma append_nil_l (a : string) : EmptyString +:+ a = a.
Proof. reflexivity. Qed.

Lemma append_length (a b : string) :
  String.length (a +:+ b) = String.length a + String.length b.
Proof. induction a as [| c a IH]; [done |]. rewrite append_cons. simpl. lia. Qed.

Lemma HasPrefix_skip (s p : string) :
  strings.HasPrefix s p = true -> s = p +:+ strings.skip (String.length p) s.
Proof.
  revert s. induction p as [| c p IH]; intros s H; [done |].
  destruct s as [| d s]; [done |]. simpl in H.
  destruct (Ascii.eqb_spec d c) as [-> |]; [| done].
  rewrite append_cons. simpl. f_equal. by apply IH.
Qed.

Lemma HasPrefix_append (p t : string) : strings.HasPrefix (p +:+ t) p = true.
Proof.
  induction p as [| c p IH]; [done |].
  rewrite append_cons. simpl. by rewrite Ascii.eqb_refl.
Qed.

Lemma Cut_eq (s sep : string) :
  strings.Cut s sep =
    if strings.HasPrefix s sep
    then Some (EmptyString, strings.skip (String.length sep) s)
    else match s with
         | EmptyString => None
         | String c s' =>
             match strings.Cut s' sep with
             | Some (before, after) => Some (String c before, after)
             | None => None
             end
         end.
Proof. by destruct s. Qed.

(** What [Cut] finds is an occurrence of the separator. *)
Lemma Cut_Some (s sep before after : string) :
  strings.Cut s sep = Some (before, after) -> s = before +:+ sep +:+ after.
Proof.
  revert before. induction s as [| c s IH]; intros before; rewrite Cut_eq.
  - destruct (strings.HasPrefix _ _) eqn:E; [| done].
    intros [= <- <-]. by apply HasPrefix_skip.
  - destruct (strings.HasPrefix _ _) eqn:E.
    + intros [= <- <-]. by apply HasPrefix_skip.
    + destruct (strings.Cut s sep) as [[b' a'] |] eqn:E'; [| done].
      intros [= <- <-]. rewrite append_cons. f_equal. by apply IH.
Qed.

(** It is the leftmost one. *)
Lemma Cut_leftmost (s sep before after : string) :
  strings.Cut s sep = Some (before, after) ->
  forall before' after',
    s = before' +:+ sep +:+ after' ->
    String.length before <= String.length before'.
Proof.
  revert before. induction s as [| c s IH]; intros before; rewrite Cut_eq.
  - destruct (strings.HasPrefix _ _); [| done]. intros [= <- <-] ? ? _. simpl. lia.
  - destruct (strings.HasPrefix _ _) eqn:E.
    + intros [= <- <-] ? ? _. simpl. lia.
    + destruct (strings.Cut s sep) as [[b' a'] |] eqn:E'; [| done].
      intros [= <- <-] before' after' Hs.
      destruct before' as [| d before'].
      * rewrite append_nil_l in Hs. rewrite Hs, HasPrefix_append in E. done.
      * rewrite append_cons in Hs. injection Hs as -> Hs. simpl.
        apply le_n_S. by eapply IH.
Qed.

(** Without a result there is no occurrence. *)
Lemma Cut_None (s sep : string) :
  strings.Cut s sep = None ->
  forall before after, s <> before +:+ sep +:+ after.
Proof.
  induction s as [| c s IH]; rewrite Cut_eq.
  - destruct (strings.HasPrefix _ _) eqn:E; [done |]. intros _ before after Hs.
    destruct before; [| done].
    rewrite append_nil_l in Hs. by rewrite Hs, HasPrefix_append in E.
  - destruct (strings.HasPrefix _ _) eqn:E; [done |].
    destruct (strings.Cut s sep) as [[b' a'] |] eqn:E'; [done |].
    intros _ before after Hs. destruct before as [| d before].
    + rewrite append_nil_l in Hs. by rewrite Hs, HasPrefix_append in E.
    + rewrite append_cons in Hs. injection Hs as -> Hs. by eapply IH.
Qed.

Lemma Cut_shorter (s sep before after : string) :
  sep <> EmptyString ->
  strings.Cut s sep = Some (before, after) ->
  String.length after < String.length s.
Proof.
  intros Hsep ->%Cut_Some. rewrite !append_length.
  destruct sep; [done |]. simpl. lia.
Qed.

Lemma genSplit_fuel (sep : string) (fuel : nat) (s : string) :
  sep <> EmptyString ->
  String.length s <= fuel ->
  strings.genSplit fuel s sep = strings.genSplit (String.length s) s sep.
Proof.
  intros Hsep. revert s.
  induction fuel as [fuel IH] using lt_wf_ind. intros s Hle.
  destruct fuel as [| fuel].
  - by replace (String.length s) with 0 by lia.
  - simpl. destruct (strings.Cut s sep) as [[before after] |] eqn:E.
    + pose proof (Cut_shorter _ _ _ _ Hsep E) as Hlt.
      destruct (String.length s) as [| n] eqn:En; [lia |].
      simpl. rewrite E. f_equal.
      rewrite (IH fuel) by lia. rewrite (IH n) by lia. done.
    + destruct (String.length s); simpl; by rewrite ?E.
Qed.

(** [Split] cuts at the leftmost separator and splits what follows. *)
Lemma Split_eq (s sep : string) :
  sep <> EmptyString ->
  strings.Split s sep =
    match strings.Cut s sep with
    | None => [s]
    | Some (before, after) => before :: strings.Split after sep
    end.
Proof.
  intros Hsep. unfold strings.Split.
  destruct (strings.Cut s sep) as [[before after] |] eqn:E.
  - pose proof (Cut_shorter _ _ _ _ Hsep E) as Hlt.
    destruct (String.length s) as [| n] eqn:En; [lia |].
    simpl. rewrite E. f_equal. apply genSplit_fuel; [done | lia].
  - destruct (String.length s); simpl; by rewrite ?E.
Qed.

Lemma Split_second (s sep before after : string) :
  sep <> EmptyString ->
  strings.Cut s sep = Some (before, after) ->
  exists more, strings.Split s sep = before :: firstPiece after sep :: more.
Proof.
  intros Hsep E. rewrite Split_eq, E by done.
  rewrite (Split_eq after) by done. unfold firstPiece.
  destruct (strings.Cut after sep) as [[piece after'] |]; eauto.
Qed.

(** ** The pod-shape parser *)

(** The pod-shape branch on a text with the separator, with the last
    entry in place. *)
Lemma handle_pod_cut {World} (s : canonical.state World)
    (code : Z) (agent text : string) (ps : list loc) (p : loc)
    (lastPSV : canonical.PSViolation) (name rest : string) :
  isPodShape text = true ->
  canonical.PSViolations (canonical.w s) = ps ++ [p] ->
  canonical.psvs s !! p = Some lastPSV ->
  strings.Cut text ": " = Some (name, rest) ->
  canonical.HandleWarningHeader code agent text s
  = Ret (canonical.forward code agent text
           {| canonical.w := canonical.w s;
              canonical.psvs :=
                <[p := {| canonical.Namespace := canonical.Namespace lastPSV;
                          canonical.Level := canonical.Level lastPSV;
                          canonical.PodViolations :=
                            canonical.PodViolations lastPSV
                            ++ [length (canonical.pods s)] |}]>
                  (canonical.psvs s);
              canonical.pods :=
                canonical.pods s ++
                [{| canonical.Name := strings.TrimSpace name;
                    canonical.Deployment := None;
                    canonical.Pod := None;
                    canonical.Violations :=
                      strings.Split (firstPiece rest ": ") ", " |}];
              canonical.world := canonical.world s |}).
Proof.
  intros Hpod Hw Hp E.
  rewrite (handle_pod _ _ _ _ Hpod), Hw, index_last, bind_Ret. cbv zeta.
  destruct (Split_second text ": " name rest) as [more ->]; [done.. |].
  unfold canonical.deref. by rewrite Hp.
Qed.

(** C5, as the code has it: the text is split at every [: ]; the pod name
    is the trimmed piece before the first separator and the violations are
    the second piece alone, split at [, ]: the text between the first and
    the second separator, which is all that follows the first only when
    there is no second.  A pod-shape text without the separator panics at
    [textSplit[1]]. *)
Theorem pod_warning_parse {World} (s : canonical.state World)
    (code : Z) (agent text : string) (ps : list loc) (p : loc)
    (lastPSV : canonical.PSViolation) :
  isPodShape text = true ->
  canonical.PSViolations (canonical.w s) = ps ++ [p] ->
  canonical.psvs s !! p = Some lastPSV ->
  match strings.Cut text ": " with
  | None =>
      canonical.HandleWarningHeader code agent text s
      = Panic (IndexOutOfRange TextSplit1 1 1)
  | Some (name, rest) =>
      text = name +:+ ": " +:+ rest
      /\ canonical.HandleWarningHeader code agent text s
         = Ret (canonical.forward code agent text
                  {| canonical.w := canonical.w s;
                     canonical.psvs :=
                       <[p := {| canonical.Namespace := canonical.Namespace lastPSV;
                                 canonical.Level := canonical.Level lastPSV;
                                 canonical.PodViolations :=
                                   canonical.PodViolations lastPSV
                                   ++ [length (canonical.pods s)] |}]>
                         (canonical.psvs s);
                     canonical.pods :=
                       canonical.pods s ++
                       [{| canonical.Name := strings.TrimSpace name;
                           canonical.Deployment := None;
                           canonical.Pod := None;
                           canonical.Violations :=
                             strings.Split (firstPiece rest ": ") ", " |}];
                     canonical.world := canonical.world s |})
  end.
Proof.
  intros Hpod Hw Hp. rewrite (handle_pod _ _ _ _ Hpod), Hw, index_last, bind_Ret.
  cbv zeta. destruct (strings.Cut text ": ") as [[name rest] |] eqn:E.
  - split; [by apply Cut_Some |].
    destruct (Split_second text ": " name rest) as [more ->]; [done.. |].
    unfold canonical.deref. by rewrite Hp.
  - by rewrite Split_eq, E.
Qed.

Lemma pod_warning_parse_witness :
  isPodShape examplePodWarning = true
  /\ canonical.PSViolations (canonical.w afterNamespaceWarning) = [] ++ [0]
  /\ exists s',
      canonical.HandleWarningHeader 299 "-" examplePodWarning
        afterNamespaceWarning = Ret s'
      /\ last (canonical.pods s')
         = Some {| canonical.Name := "p0t-sekurity";
                   canonical.Deployment := None; canonical.Pod := None;
                   canonical.Violations :=
                     ["allowPrivilegeEscalation != false";
                      "unrestricted capabilities"] |}.
Proof.
  split; [reflexivity |]. split; [reflexivity |].
  pose proof (pod_warning_parse afterNamespaceWarning 299 "-" examplePodWarning
                [] 0 _ eq_refl eq_refl eq_refl) as H.
  simpl in H. destruct H as [_ H]. eexists. split; [exact H |]. reflexivity.
Defined.

(** C5 as worded fails on a text with two separators: what follows the
    second one is dropped, so the violations are not those of all the
    text after the first. *)
Lemma second_separator_drops_rest :
  strings.Cut "web-0: runAsNonRoot != true, seccompProfile: unset" ": "
  = Some ("web-0", "runAsNonRoot != true, seccompProfile: unset")
  /\ (exists s',
        canonical.HandleWarningHeader 299 "-"
          "web-0: runAsNonRoot != true, seccompProfile: unset"
          afterNamespaceWarning = Ret s'
        /\ canonical.Violations <$> last (canonical.pods s')
           = Some ["runAsNonRoot != true"; "seccompProfile"])
  /\ strings.Split "runAsNonRoot != true, seccompProfile: unset" ", "
     = ["runAsNonRoot != true"; "seccompProfile: unset"]
  /\ ~ splitAtFirstOnly "web-0: runAsNonRoot != true, seccompProfile: unset".
Proof.
  split; [reflexivity |]. split; [eexists; split; reflexivity |].
  split; [reflexivity |].
  intros H. destruct (H _ _ eq_refl) as (s' & Hs & Hl).
  vm_compute in Hs. injection Hs as <-. vm_compute in Hl. discriminate.
Qed.

(** ** Runs of warnings *)

Lemma findAll_pairs (fuel : nat) (s : string) :
  Forall (fun m => exists x g, m = [x; g]) (regexp.findAll fuel s).
Proof.
  revert s. induction fuel as [| fuel IH]; intros s; simpl; [constructor |].
  destruct s as [| c s]; [constructor |].
  destruct (regexp.matchHere _) as [[group rest] |]; [| apply IH].
  constructor; [eauto | apply IH].
Qed.

Lemma titles_Some (text : string) :
  (2 <=? length (regexp.FindAllStringSubmatch text))%nat = true ->
  exists x0 ns x1 lvl more,
    regexp.FindAllStringSubmatch text = [x0; ns] :: [x1; lvl] :: more
    /\ titles text = Some (ns, lvl).
Proof.
  intros Hlen%Nat.leb_le. unfold titles.
  pose proof (findAll_pairs (String.length text) text) as Hall.
  fold (regexp.FindAllStringSubmatch text) in Hall.
  destruct (regexp.FindAllStringSubmatch text) as [| m0 [| m1 more]];
    simpl in Hlen; [lia.. |].
  apply Forall_cons in Hall as [(x0 & ns & ->) Hall].
  apply Forall_cons in Hall as [(x1 & lvl & ->) _].
  by exists x0, ns, x1, lvl, more.
Qed.

(** The one-pass check decides the property it is named after. *)
Lemma podsPrecededb_spec_gen (texts : list string) (seen : bool) :
  podsPrecededb seen texts = true <->
  forall i t,
    texts !! i = Some t -> isPodShape t = true ->
    seen = true
    \/ exists j u, j < i /\ texts !! j = Some u /\ isNamespaceShape u = true.
Proof.
  revert seen. induction texts as [| t0 texts IH]; intros seen; simpl.
  { split; [intros _ i t H; by rewrite lookup_nil in H | done]. }
  destruct (isNamespaceShape t0) eqn:Hns.
  - rewrite IH. split.
    + intros H [| i] t Hi Hp.
      * simpl in Hi. injection Hi as <-.
        unfold isPodShape in Hp. rewrite Hns in Hp.
        by rewrite andb_false_r in Hp.
      * right. exists 0, t0. split; [lia | done].
    + intros _ i t Hi Hp. by left.
  - destruct (isPodShape t0) eqn:Hpod.
    + rewrite andb_true_iff, IH. split.
      * intros [-> H] i t Hi Hp. by left.
      * intros H. destruct (H 0 t0 eq_refl Hpod) as [-> | (j & u & Hj & _)];
          [| lia].
        split; [done |]. intros i t Hi Hp. by left.
    + rewrite IH. split.
      * intros H [| i] t Hi Hp.
        { simpl in Hi. injection Hi as <-. congruence. }
        destruct (H i t Hi Hp) as [-> | (j & u & Hj & Hu & Hn)]; [by left |].
        right. exists (S j), u. split; [lia | done].
      * intros H i t Hi Hp.
        destruct (H (S i) t Hi Hp) as [-> | (j & u & Hj & Hu & Hn)]; [by left |].
        right. destruct j as [| j].
        { simpl in Hu. injection Hu as <-. congruence. }
        exists j, u. split; [lia | done].
Qed.

Lemma podsPrecededb_spec (texts : list string) :
  podsPrecededb false texts = true <-> podsPreceded texts.
Proof.
  rewrite podsPrecededb_spec_gen. unfold podsPreceded.
  split; intros H i t Hi Hp; [| right; eauto].
  by destruct (H i t Hi Hp) as [? | ?].
Qed.

Section CanonicalRuns.
Context {World : Type}.
Implicit Types s : canonical.state World.
Import canonical.

Lemma namespacesOf_view s : namespacesOf (view s) = storedNamespaces s.
Proof.
  unfold namespacesOf, view, storedNamespaces. rewrite map_map.
  apply map_ext. intros p. unfold viewPSViolation.
  by destruct (psvs s !! p).
Qed.

Lemma storedNamespaces_forward code agent text s :
  storedNamespaces (forward code agent text s) = storedNamespaces s.
Proof. unfold storedNamespaces. by rewrite forward_w, forward_psvs. Qed.

Lemma locsValid_forward code agent text s :
  locsValid (forward code agent text s) <-> locsValid s.
Proof. unfold locsValid. by rewrite forward_w, forward_psvs. Qed.

Lemma hasNamespace_forward code agent text s :
  hasNamespace (forward code agent text s) = hasNamespace s.
Proof. unfold hasNamespace. by rewrite forward_w. Qed.

(** A well-formed namespace-shape text adds one entry at the end. *)
Lemma handle_namespace_ok code agent text s :
  isNamespaceShape text = true ->
  wellFormedb text = true ->
  locsValid s ->
  exists s',
    HandleWarningHeader code agent text s = Ret s'
    /\ locsValid s' /\ hasNamespace s' = true
    /\ storedNamespaces s' = storedNamespaces s ++ [titles text].
Proof.
  intros Hns Hwf Hval. unfold wellFormedb in Hwf. rewrite Hns in Hwf.
  destruct (titles_Some _ Hwf) as (x0 & ns & x1 & lvl & more & Hfind & ->).
  rewrite (handle_namespace _ _ _ _ Hns), Hfind. cbv zeta.
  eexists. split; [reflexivity |].
  rewrite locsValid_forward, hasNamespace_forward, storedNamespaces_forward.
  unfold locsValid, hasNamespace, storedNamespaces in *. simpl.
  split; [| split].
  - apply Forall_app. split.
    + eapply Forall_impl; [exact Hval |].
      intros p Hp. simpl in Hp. rewrite length_app. simpl. lia.
    + constructor; [| constructor]. rewrite length_app. simpl. lia.
  - by destruct (PSViolations (w s)).
  - rewrite map_app. simpl. f_equal.
    + apply map_ext_Forall. eapply Forall_impl; [exact Hval |].
      intros p Hp. simpl in Hp. by rewrite lookup_app_l.
    + by rewrite lookup_app_r, Nat.sub_diag.
Qed.

(** A well-formed pod-shape text leaves the entries and their namespace
    and level as they are. *)
Lemma handle_pod_ok code agent text s :
  isPodShape text = true ->
  wellFormedb text = true ->
  locsValid s ->
  hasNamespace s = true ->
  exists s',
    HandleWarningHeader code agent text s = Ret s'
    /\ locsValid s' /\ hasNamespace s' = true
    /\ storedNamespaces s' = storedNamespaces s.
Proof.
  intros Hpod Hwf Hval Hhas.
  destruct (podShape_inv _ Hpod) as [_ Hns].
  unfold wellFormedb in Hwf. rewrite Hns, Hpod in Hwf.
  apply bool_decide_eq_true in Hwf as [[name rest] Hcut].
  destruct (nonempty_snoc (PSViolations (w s))) as (ps & p & Hw).
  { unfold hasNamespace in Hhas. by destruct (PSViolations (w s)). }
  assert (p < length (psvs s)) as Hp.
  { unfold locsValid in Hval. rewrite Hw in Hval.
    by apply Forall_app in Hval as [_ [Hp _]%Forall_cons]. }
  destruct (lookup_lt_is_Some_2 _ _ Hp) as [lastPSV Hlast].
  rewrite (handle_pod_cut s code agent text ps p lastPSV name rest
             Hpod Hw Hlast Hcut).
  eexists. split; [reflexivity |].
  rewrite locsValid_forward, hasNamespace_forward, storedNamespaces_forward.
  unfold locsValid, hasNamespace, storedNamespaces in *. simpl.
  rewrite length_insert. split; [done |]. split; [done |].
  apply map_ext. intros q.
  destruct (decide (p = q)) as [<- |].
  - rewrite list_lookup_insert_eq by done. unfold loc in *. by rewrite Hlast.
  - by rewrite list_lookup_insert_ne.
Qed.

(** The run of a well-formed sequence returns, with one entry per
    namespace-shape text behind those already there. *)
Lemma handleAll_namespaces warnings s :
  locsValid s ->
  podsPrecededb (hasNamespace s) (map textOf warnings) = true ->
  forallb wellFormedb (map textOf warnings) = true ->
  exists s',
    handleAll warnings s = Ret s'
    /\ locsValid s'
    /\ storedNamespaces s' =
       storedNamespaces s
       ++ map titles (filter (fun t => isNamespaceShape t = true)
                        (map textOf warnings)).
Proof.
  revert s. induction warnings as [| [[code agent] text] warnings IH];
    intros s Hval Hpre Hwf.
  { exists s. by rewrite app_nil_r. }
  cbn [map textOf snd forallb podsPrecededb] in Hpre, Hwf.
  apply andb_true_iff in Hwf as [Hwf Hwfs].
  cbn [map textOf snd handleAll]. rewrite filter_cons.
  destruct (isNamespaceShape text) eqn:Hns.
  - destruct (handle_namespace_ok code agent text s Hns Hwf Hval)
      as (s1 & -> & Hval1 & Hhas1 & Hst1).
    rewrite bind_Ret.
    destruct (IH s1 Hval1) as (s' & -> & Hval' & Hst');
      [by rewrite Hhas1 | done |].
    exists s'. split; [done |]. split; [done |].
    rewrite Hst', Hst1. rewrite decide_True by done.
    by rewrite <- app_assoc.
  - rewrite decide_False by congruence.
    destruct (isPodShape text) eqn:Hpod.
    + apply andb_true_iff in Hpre as [Hhas Hpre].
      destruct (handle_pod_ok code agent text s Hpod Hwf Hval Hhas)
        as (s1 & -> & Hval1 & Hhas1 & Hst1).
      rewrite bind_Ret.
      destruct (IH s1 Hval1) as (s' & -> & Hval' & Hst');
        [rewrite Hhas1; by rewrite Hhas in Hpre | done |].
      exists s'. by rewrite Hst', Hst1.
    + assert (text = EmptyString) as ->.
      { unfold isPodShape in Hpod. rewrite Hns in Hpod. simpl in Hpod.
        rewrite andb_true_r in Hpod. apply negb_false_iff in Hpod.
        by apply String.eqb_eq. }
      rewrite handle_empty_text, bind_Ret. by apply IH.
Qed.

End CanonicalRuns.

(** C1, as the code has it: when every pod-shape text is preceded by a
    namespace-shape text, every namespace-shape text holds two quoted
    segments or more and every pod-shape text holds the separator, the run
    from the empty mapper returns, and the tree has one entry per
    namespace-shape text received (a text received twice gives two
    entries), in arrival order, each with the first two quoted segments of
    its text as namespace and level. *)
Theorem one_entry_per_namespace_text {World} (wd : World)
    (warnings : list (Z * string * string)) :
  podsPreceded (map textOf warnings) ->
  forallb wellFormedb (map textOf warnings) = true ->
  exists s',
    canonical.handleAll warnings (canonical.empty wd) = Ret s'
    /\ namespacesOf (canonical.view s')
       = map titles (filter (fun t => isNamespaceShape t = true)
                       (map textOf warnings))
    /\ length (canonical.view s')
       = length (filter (fun t => isNamespaceShape t = true)
                   (map textOf warnings)).
Proof.
  intros Hpre%podsPrecededb_spec Hwf.
  destruct (handleAll_namespaces warnings (canonical.empty wd))
    as (s' & Hrun & _ & Hst); [constructor | done | done |].
  exists s'. split; [done |].
  rewrite namespacesOf_view, Hst. split; [done |].
  apply (f_equal length) in Hst.
  unfold storedNamespaces in Hst. simpl in Hst. rewrite !length_map in Hst.
  unfold canonical.view. by rewrite length_map.
Qed.

Lemma one_entry_per_namespace_text_witness :
  let warnings :=
    [(299, "-", exampleNamespaceWarning); (299, "-", examplePodWarning);
     (299, "-", EmptyString); (299, "-", exampleNamespaceWarning)]%Z in
  podsPreceded (map textOf warnings)
  /\ forallb wellFormedb (map textOf warnings) = true
  /\ exists s',
      canonical.handleAll warnings (canonical.empty tt) = Ret s'
      /\ namespacesOf (canonical.view s')
         = [Some ("p0t-sekurity", "restricted:latest");
            Some ("p0t-sekurity", "restricted:latest")]
      /\ length (canonical.view s') = 2.
Proof.
  intros warnings.
  assert (podsPreceded (map textOf warnings)) as Hpre
    by (apply podsPrecededb_spec; reflexivity).
  split; [exact Hpre |]. split; [reflexivity |].
  exact (one_entry_per_namespace_text tt warnings Hpre eq_refl).
Defined.

(** C1 as worded fails: the order of the texts alone does not make the run
    return.  A namespace-shape text without quoted segments panics at
    [titleMatches[0]], and a pod-shape text without the separator panics
    at [textSplit[1]], also behind a namespace-shape text. *)
Lemma ordered_run_panics :
  (podsPreceded (map textOf [(299, "-", "existing pods in namespace")]%Z)
   /\ canonical.handleAll [(299, "-", "existing pods in namespace")]%Z
        (canonical.empty tt)
      = Panic (IndexOutOfRange TitleMatches0 0 0)
   /\ ~ oneEntryPerNamespaceText [(299, "-", "existing pods in namespace")]%Z)
  /\ (podsPreceded
        (map textOf [(299, "-", exampleNamespaceWarning); (299, "-", "web-0")]%Z)
      /\ canonical.handleAll
           [(299, "-", exampleNamespaceWarning); (299, "-", "web-0")]%Z
           (canonical.empty tt)
         = Panic (IndexOutOfRange TextSplit1 1 1)
      /\ ~ oneEntryPerNamespaceText
             [(299, "-", exampleNamespaceWarning); (299, "-", "web-0")]%Z).
Proof.
  split.
  - assert (podsPreceded
              (map textOf [(299, "-", "existing pods in namespace")]%Z)) as Hpre
      by (apply podsPrecededb_spec; reflexivity).
    split; [exact Hpre |]. split; [reflexivity |].
    intros H. destruct (H Hpre) as (s' & Hs & _). discriminate.
  - assert (podsPreceded
              (map textOf
                 [(299, "-", exampleNamespaceWarning); (299, "-", "web-0")]%Z))
      as Hpre by (apply podsPrecededb_spec; reflexivity).
    split; [exact Hpre |]. split; [reflexivity |].
    intros H. destruct (H Hpre) as (s' & Hs & _). discriminate.
Qed.

(** ** The report *)

(** C8: [String] returns the empty string, which is neither the empty
    JSON array nor the JSON null, when [w.PSViolations] is empty; otherwise
    it returns what the encoder wrote for the whole tree in order, and the
    empty string when the encoder fails. *)
Theorem String_of_violations {World}
    (Encode : list (option canonical.NamespaceViolation) -> string + error)
    (s : canonical.state World) :
  (canonical.PSViolations (canonical.w s) = [] ->
   canonical.String Encode s = EmptyString
   /\ canonical.String Encode s <> "[]"
   /\ canonical.String Encode s <> "null")
  /\ (canonical.PSViolations (canonical.w s) <> [] ->
      forall out,
        Encode (canonical.view s) = inl out -> canonical.String Encode s = out)
  /\ (forall err,
        Encode (canonical.view s) = inr err ->
        canonical.String Encode s = EmptyString).
Proof.
  unfold canonical.String. split; [| split].
  - by intros ->.
  - intros Hne out ->. by destruct (canonical.PSViolations (canonical.w s)).
  - intros err ->. by destruct (Nat.eqb _ _).
Qed.

Lemma String_of_violations_witness :
  (canonical.PSViolations (canonical.w (canonical.empty tt)) = []
   /\ canonical.String exampleEncode (canonical.empty tt) = EmptyString)
  /\ (canonical.PSViolations (canonical.w afterNamespaceWarning) <> []
      /\ exampleEncode (canonical.view afterNamespaceWarning)
         = inl "[{Namespace:p0t-sekurity}]"
      /\ canonical.String exampleEncode afterNamespaceWarning
         = "[{Namespace:p0t-sekurity}]")
  /\ (exampleEncode (canonical.view twoNamespaces)
      = inr "json: unsupported value"
      /\ canonical.String exampleEncode twoNamespaces = EmptyString).
Proof.
  destruct (String_of_violations exampleEncode (canonical.empty tt))
    as [Hempty _].
  destruct (String_of_violations exampleEncode afterNamespaceWarning)
    as (_ & Hout & _).
  destruct (String_of_violations exampleEncode twoNamespaces)
    as (_ & _ & Herr).
  split; [| split].
  - split; [reflexivity |]. by apply Hempty.
  - split; [discriminate |]. split; [reflexivity |].
    apply Hout; [discriminate | reflexivity].
  - split; [reflexivity |]. by eapply Herr.
Defined.

(** ** [mapAuditToEnforce] *)

Lemma audit_enforce_distinct : auditLabel <> enforceLabel.
Proof. discriminate. Qed.

(** C10, as the code has it: for an input whose label map is not nil, an
    empty audit label is set to restricted on the input object itself; the
    returned copy gets as enforce label the input's audit label after that
    defaulting, keeps its own audit label as it was (possibly absent), and
    agrees with the input as it was on every other label. *)
Theorem mapAuditToEnforce_labels (namespace : corev1.Namespace)
    (labels : gmap string string) :
  corev1.Labels namespace = Some labels ->
  exists namespace' ns nsLabels,
    mapAuditToEnforce namespace = Ret (namespace', ns)
    /\ corev1.NsName namespace' = corev1.NsName namespace
    /\ corev1.NsName ns = corev1.NsName namespace
    /\ corev1.Labels namespace'
       = Some (if decide (mapGet (Some labels) auditLabel = EmptyString)
               then <[auditLabel := "restricted"]> labels
               else labels)
    /\ corev1.Labels ns = Some nsLabels
    /\ nsLabels !! enforceLabel
       = Some (mapGet (corev1.Labels namespace') auditLabel)
    /\ nsLabels !! auditLabel = labels !! auditLabel
    /\ forall k, k <> enforceLabel -> nsLabels !! k = labels !! k.
Proof.
  intros Hl. unfold mapAuditToEnforce. rewrite Hl.
  destruct (String.eqb_spec (mapGet (Some labels) auditLabel) EmptyString)
    as [He | Hne].
  - simpl. eexists _, _, _. split; [reflexivity |]. simpl.
    rewrite decide_True by done.
    repeat split; try done.
    + by rewrite lookup_insert_eq.
    + rewrite lookup_insert_ne; [done | apply not_eq_sym, audit_enforce_distinct].
    + intros k Hk. by rewrite lookup_insert_ne.
  - simpl. eexists _, _, _. split; [reflexivity |]. simpl.
    rewrite decide_False by done. rewrite Hl.
    repeat split; try done.
    + by rewrite lookup_insert_eq.
    + rewrite lookup_insert_ne; [done | apply not_eq_sym, audit_enforce_distinct].
    + intros k Hk. by rewrite lookup_insert_ne.
Qed.

Lemma mapAuditToEnforce_labels_witness :
  corev1.Labels labelled
  = Some {[ "kubernetes.io/metadata.name" := "p0t-sekurity" ]}
  /\ exists namespace' ns nsLabels,
      mapAuditToEnforce labelled = Ret (namespace', ns)
      /\ mapGet (corev1.Labels namespace') auditLabel = "restricted"
      /\ corev1.Labels ns = Some nsLabels
      /\ nsLabels !! enforceLabel = Some "restricted"
      /\ nsLabels !! auditLabel = None.
Proof.
  split; [reflexivity |].
  destruct (mapAuditToEnforce_labels labelled _ eq_refl)
    as (namespace' & ns & nsLabels & Hrun & _ & _ & Hin & Hns & He & Ha & _).
  exists namespace', ns, nsLabels.
  assert (mapGet (corev1.Labels namespace') auditLabel = "restricted") as Hd.
  { rewrite Hin. rewrite decide_True by reflexivity.
    unfold mapGet. simpl. by rewrite lookup_insert_eq. }
  split; [exact Hrun |]. split; [exact Hd |]. split; [exact Hns |].
  split; [by rewrite He, Hd |].
  rewrite Ha. reflexivity.
Defined.

(** C10 as worded fails on a namespace whose label map is nil: its audit
    label reads as empty, and the assignment that would default it
    panics. *)
Lemma nil_labels_panic :
  mapGet (corev1.Labels unlabelled) auditLabel = EmptyString
  /\ mapAuditToEnforce unlabelled = Panic NilMapAssignment
  /\ ~ auditMappedToEnforce unlabelled.
Proof.
  split; [reflexivity |]. split; [reflexivity |].
  intros (namespace' & ns & Hrun & _). discriminate.
Qed.

(** ** The value-slice variant *)

Section SimpleSteps.
Context {World : Type}.
Implicit Types s : simple.state World.
Import simple.

Lemma simple_reinit_id s :
  (if Nat.eqb (length (PSViolations (w s))) 0
   then {| w := {| defaultHandler := defaultHandler (w s);
                   PSViolations := [] |};
           world := world s |}
   else s) = s.
Proof. by destruct s as [[dh [| p ps]] ?]. Qed.

Lemma simple_forward_w code agent text s : w (forward code agent text s) = w s.
Proof. unfold forward. by destruct (defaultHandler (w s)). Qed.

(** The pod-shape branch reads the last entry and the two pieces of the
    text, and stores nothing. *)
Lemma simple_handle_pod code agent text s :
  isPodShape text = true ->
  HandleWarningHeader code agent text s =
    (_ ← index LastPSViolation (PSViolations (w s))
           (Z.of_nat (length (PSViolations (w s))) - 1);
     _ ← index TextSplit0 (strings.Split text ":") 0;
     _ ← index TextSplit1 (strings.Split text ":") 1;
     Ret (forward code agent text s)).
Proof.
  intros [Hne Hpod]%podShape_inv. unfold HandleWarningHeader.
  rewrite Hne, simple_reinit_id.
  unfold isNamespaceShape in Hpod. rewrite Hpod. cbv zeta.
  destruct (index LastPSViolation _ _) as [l |]; [| done].
  rewrite !bind_Ret.
  destruct (index TextSplit0 _ 0) as [t0 |]; [| done].
  rewrite !bind_Ret.
  by destruct (index TextSplit1 _ 1).
Qed.

Lemma simple_handle_namespace code agent text s :
  isNamespaceShape text = true ->
  HandleWarningHeader code agent text s =
    (let titleMatches := regexp.FindAllStringSubmatch text in
     m0 ← index TitleMatches0 titleMatches 0;
     namespace ← index Submatch1 m0 1;
     m1 ← index TitleMatches1 titleMatches 1;
     level ← index Submatch1 m1 1;
     Ret (forward code agent text
            {| w := {| defaultHandler := defaultHandler (w s);
                       PSViolations :=
                         PSViolations (w s)
                         ++ [{| Namespace := namespace; Level := level;
                                PodViolations := [] |}] |};
               world := world s |})).
Proof.
  intros Hns. unfold HandleWarningHeader.
  rewrite (namespaceShape_not_empty _ Hns), simple_reinit_id.
  unfold isNamespaceShape in Hns. rewrite Hns. cbv zeta.
  destruct (index TitleMatches0 _ 0) as [m0 |]; [| done].
  rewrite !bind_Ret.
  destruct (index Submatch1 m0 1) as [n |]; [| done].
  rewrite !bind_Ret.
  destruct (index TitleMatches1 _ 1) as [m1 |]; [| done].
  rewrite !bind_Ret.
  by destruct (index Submatch1 m1 1).
Qed.

Lemma shape_cases (text : string) :
  text = EmptyString \/ isNamespaceShape text = true \/ isPodShape text = true.
Proof.
  unfold isPodShape. destruct (String.eqb_spec text EmptyString); [by left |].
  destruct (isNamespaceShape text); auto.
Qed.

(** A pod-shape text never changes the stored slice. *)
Lemma simple_pod_frame code agent text s s' :
  isPodShape text = true ->
  HandleWarningHeader code agent text s = Ret s' ->
  PSViolations (w s') = PSViolations (w s).
Proof.
  intros Hpod. rewrite (simple_handle_pod _ _ _ _ Hpod).
  intros (? & _ & (? & _ & (? & _ & [= <-])%bind_Ret_inv)%bind_Ret_inv)%bind_Ret_inv.
  by rewrite simple_forward_w.
Qed.

(** With an entry stored and the separator in the text, the pod-shape
    branch returns, and all it does is forward. *)
Lemma simple_pod_returns code agent text s :
  isPodShape text = true ->
  PSViolations (w s) <> [] ->
  is_Some (strings.Cut text ":") ->
  HandleWarningHeader code agent text s = Ret (forward code agent text s).
Proof.
  intros Hpod (ps & p & Hw)%nonempty_snoc [[name rest] Hcut].
  rewrite (simple_handle_pod _ _ _ _ Hpod), Hw, index_last, bind_Ret.
  destruct (Split_second text ":" name rest) as [more ->]; done.
Qed.

Lemma simple_step_no_pods code agent text s s' :
  Forall (fun v => PodViolations v = []) (PSViolations (w s)) ->
  HandleWarningHeader code agent text s = Ret s' ->
  Forall (fun v => PodViolations v = []) (PSViolations (w s')).
Proof.
  intros Hinv. destruct (shape_cases text) as [-> | [Hns | Hpod]].
  - by intros [= <-].
  - rewrite (simple_handle_namespace _ _ _ _ Hns). cbv zeta.
    intros (? & _ & (? & _ & (? & _ & (? & _ & [= <-])%bind_Ret_inv
      )%bind_Ret_inv)%bind_Ret_inv)%bind_Ret_inv.
    rewrite simple_forward_w. simpl.
    apply Forall_app. split; [done |]. by constructor.
  - intros Hrun. by rewrite (simple_pod_frame _ _ _ _ _ Hpod Hrun).
Qed.

Lemma simple_run_no_pods warnings s s' :
  Forall (fun v => PodViolations v = []) (PSViolations (w s)) ->
  handleAll warnings s = Ret s' ->
  Forall (fun v => PodViolations v = []) (PSViolations (w s')).
Proof.
  revert s. induction warnings as [| [[code agent] text] warnings IH];
    intros s Hinv; simpl.
  - by intros [= <-].
  - intros (s1 & Hstep & Hrun)%bind_Ret_inv.
    eapply IH; [| exact Hrun]. by eapply simple_step_no_pods.
Qed.

Lemma simple_handle_namespace_ok code agent text s :
  isNamespaceShape text = true ->
  simpleWellFormedb text = true ->
  exists s',
    HandleWarningHeader code agent text s = Ret s'
    /\ PSViolations (w s') <> [].
Proof.
  intros Hns Hwf. unfold simpleWellFormedb in Hwf. rewrite Hns in Hwf.
  destruct (titles_Some _ Hwf) as (x0 & ns & x1 & lvl & more & Hfind & _).
  rewrite (simple_handle_namespace _ _ _ _ Hns), Hfind. cbv zeta.
  eexists. split; [reflexivity |].
  rewrite simple_forward_w. simpl. by destruct (PSViolations (w s)).
Qed.

(** The run of a well-formed sequence returns. *)
Lemma simple_run_returns warnings s :
  podsPrecededb (bool_decide (PSViolations (w s) <> [])) (map textOf warnings)
  = true ->
  forallb simpleWellFormedb (map textOf warnings) = true ->
  exists s', handleAll warnings s = Ret s'.
Proof.
  revert s. induction warnings as [| [[code agent] text] warnings IH];
    intros s Hpre Hwf; [by exists s |].
  cbn [map textOf snd forallb podsPrecededb] in Hpre, Hwf.
  apply andb_true_iff in Hwf as [Hwf Hwfs]. cbn [handleAll].
  destruct (isNamespaceShape text) eqn:Hns.
  - destruct (simple_handle_namespace_ok code agent text s Hns Hwf)
      as (s1 & -> & Hne).
    rewrite bind_Ret. apply IH; [| done].
    by rewrite bool_decide_eq_true_2.
  - destruct (isPodShape text) eqn:Hpod.
    + apply andb_true_iff in Hpre as [Hhas Hpre].
      apply bool_decide_eq_true in Hhas.
      unfold simpleWellFormedb in Hwf. rewrite Hns, Hpod in Hwf.
      apply bool_decide_eq_true in Hwf.
      rewrite (simple_pod_returns _ _ _ _ Hpod Hhas Hwf), bind_Ret.
      apply IH; [| done]. by rewrite simple_forward_w.
    + assert (text = EmptyString) as ->.
      { destruct (shape_cases text) as [? | [? | ?]]; congruence. }
      change (HandleWarningHeader code agent EmptyString s) with (Ret s).
      rewrite bind_Ret. by apply IH.
Qed.

End SimpleSteps.

(** C9: in the value-slice variant a pod-shape text is parsed and then
    dropped: the stored slice is as before whenever the call returns, and
    it returns with nothing but the forwarding done when an entry is
    stored and the text holds a colon; so after any run from the empty
    mapper no entry holds a pod violation, such runs return for every
    well-formed sequence, and on the example of the source the two
    variants report different trees. *)
Theorem simple_variant_stores_no_pod_violations :
  (forall World (s s' : simple.state World) code agent text,
      isPodShape text = true ->
      simple.HandleWarningHeader code agent text s = Ret s' ->
      simple.PSViolations (simple.w s') = simple.PSViolations (simple.w s))
  /\ (forall World (s : simple.state World) code agent text,
         isPodShape text = true ->
         simple.PSViolations (simple.w s) <> [] ->
         is_Some (strings.Cut text ":") ->
         simple.HandleWarningHeader code agent text s
         = Ret (simple.forward code agent text s))
  /\ (forall World (wd : World) warnings s',
         simple.handleAll warnings (simple.empty wd) = Ret s' ->
         Forall (fun v => simple.PodViolations v = [])
           (simple.PSViolations (simple.w s')))
  /\ (forall World (wd : World) warnings,
         podsPreceded (map textOf warnings) ->
         forallb simpleWellFormedb (map textOf warnings) = true ->
         exists s', simple.handleAll warnings (simple.empty wd) = Ret s')
  /\ (exists sc ss,
         canonical.handleAll exampleWarnings (canonical.empty tt) = Ret sc
         /\ simple.handleAll exampleWarnings (simple.empty tt) = Ret ss
         /\ canonicalReport sc
            = [("p0t-sekurity", "restricted:latest",
                [("p0t-sekurity",
                  ["allowPrivilegeEscalation != false";
                   "unrestricted capabilities"])])]
         /\ simpleReport ss = [("p0t-sekurity", "restricted:latest", [])]
         /\ canonicalReport sc <> simpleReport ss).
Proof.
  split; [| split; [| split; [| split]]].
  - intros World s s' code agent text. apply simple_pod_frame.
  - intros World s code agent text. apply simple_pod_returns.
  - intros World wd warnings s'. apply simple_run_no_pods. constructor.
  - intros World wd warnings Hpre%podsPrecededb_spec Hwf.
    by apply simple_run_returns.
  - eexists _, _. split; [reflexivity |]. split; [reflexivity |].
    split; [reflexivity |]. split; [reflexivity |]. discriminate.
Qed.

Lemma simple_variant_stores_no_pod_violations_witness :
  isPodShape examplePodWarning = true
  /\ (exists ss,
        simple.handleAll exampleWarnings (simple.empty tt) = Ret ss
        /\ Forall (fun v => simple.PodViolations v = [])
             (simple.PSViolations (simple.w ss))
        /\ simple.HandleWarningHeader 299 "-" examplePodWarning ss = Ret ss).
Proof.
  destruct simple_variant_stores_no_pod_violations
    as (_ & Hret & Hrun & _ & _).
  split; [reflexivity |].
  eexists. split; [reflexivity |]. split.
  - apply (Hrun unit tt exampleWarnings). reflexivity.
  - rewrite Hret; [reflexivity | reflexivity | discriminate |].
    eexists. reflexivity.
Defined.

(** ** Owner resolution *)

Section Enrichment.
Context {World : Type} (client : Clientset).
Implicit Types s : canonical.state World.
Import canonical.

Lemma updatePod_withPod p f s v :
  pods s !! p = Some v -> updatePod p f s = Ret (withPod p (f v) s).
Proof. intros Hp. unfold updatePod, deref. by rewrite Hp. Qed.

Lemma withPod_lookup p v v0 s :
  pods s !! p = Some v0 -> pods (withPod p v s) !! p = Some v.
Proof.
  intros Hp%lookup_lt_Some. simpl. by apply list_lookup_insert_eq.
Qed.

Lemma withPod_lookup_ne p p' v s :
  p <> p' -> pods (withPod p v s) !! p' = pods s !! p'.
Proof. intros Hne. simpl. by apply list_lookup_insert_ne. Qed.

Lemma withPod_withPod p v1 v2 s :
  withPod p v2 (withPod p v1 s) = withPod p v2 s.
Proof. unfold withPod. simpl. by rewrite list_insert_insert_eq. Qed.

(** One loop body does what [resolved] says, and returns no error. *)
Lemma resolveOwner_resolved ns p s v v' :
  pods s !! p = Some v ->
  resolved client ns v v' ->
  resolveOwner client ns p s = Ret (withPod p v' s, None).
Proof.
  intros Hp Hres. unfold resolveOwner, deref. rewrite Hp, bind_Ret.
  destruct Hres as [pod owner owners d Hpod Hown Hk Hd
                   | pod owner owners rs ro ros d Hpod Hown Hk Hrs Hro Hd
                   | pod owner owners Hpod Hown Hk1 Hk2];
    rewrite Hpod, (updatePod_withPod _ _ _ _ Hp), bind_Ret, Hown;
    change (index PodOwnerReferences0 (owner :: owners) 0) with (Ret owner);
    rewrite bind_Ret.
  - rewrite Hk. simpl String.eqb. cbv iota. rewrite Hd.
    rewrite (updatePod_withPod _ _ _ (setPod pod v))
      by (by eapply withPod_lookup).
    by rewrite bind_Ret, withPod_withPod.
  - rewrite Hk. simpl String.eqb. cbv iota. rewrite Hrs, Hro.
    change (index ReplicaSetOwnerReferences0 (ro :: ros) 0) with (Ret ro).
    rewrite bind_Ret, Hd.
    rewrite (updatePod_withPod _ _ _ (setPod pod v))
      by (by eapply withPod_lookup).
    by rewrite bind_Ret, withPod_withPod.
  - apply String.eqb_neq in Hk1, Hk2. by rewrite Hk1, Hk2.
Qed.

(** A pod without owner references stops the pass with a panic. *)
Lemma resolveOwner_no_owner ns p s v pod :
  pods s !! p = Some v ->
  GetPod client ns (Name v) = inl pod ->
  corev1.OwnerReferences pod = [] ->
  resolveOwner client ns p s
  = Panic (IndexOutOfRange PodOwnerReferences0 0 0).
Proof.
  intros Hp Hpod Hown. unfold resolveOwner, deref. rewrite Hp, bind_Ret.
  by rewrite Hpod, (updatePod_withPod _ _ _ _ Hp), bind_Ret, Hown.
Qed.

(** [resolved] is a function of the cluster. *)
Lemma resolved_unique ns v v1 v2 :
  resolved client ns v v1 -> resolved client ns v v2 -> v1 = v2.
Proof.
  intros H1 H2. destruct H1; destruct H2; simplify_eq; congruence.
Qed.

Lemma elem_of_podPointers (heap : list PSViolation) (qs : list loc) (p : loc) :
  p ∈ podPointers heap qs <->
  exists q psv, q ∈ qs /\ heap !! q = Some psv /\ p ∈ PodViolations psv.
Proof.
  induction qs as [| q qs IH]; simpl.
  - split; [by intros ?%elem_of_nil | by intros (? & ? & ?%elem_of_nil & _)].
  - rewrite elem_of_app, IH. split.
    + intros [Hp | (q' & psv & Hq' & Hpsv & Hp)].
      * destruct (heap !! q) as [psv |] eqn:E; simpl in Hp;
          [| by apply elem_of_nil in Hp].
        exists q, psv. split; [by left | done].
      * exists q', psv. split; [by right | done].
    + intros (q' & psv & [-> | Hq']%elem_of_cons & Hpsv & Hp).
      * left. by rewrite Hpsv.
      * right. eauto.
Qed.

(** The inner loop over pointers that are distinct and resolvable. *)
Lemma resolvePods_ok ns (ps : list loc) s :
  NoDup ps ->
  (forall p, p ∈ ps -> exists v v', pods s !! p = Some v /\ resolved client ns v v') ->
  exists s',
    resolvePods client ns ps s = Ret (s', None)
    /\ w s' = w s /\ psvs s' = psvs s /\ world s' = world s
    /\ (forall p v, p ∈ ps -> pods s !! p = Some v ->
          exists v', resolved client ns v v' /\ pods s' !! p = Some v')
    /\ (forall p, p ∉ ps -> pods s' !! p = pods s !! p).
Proof.
  revert s. induction ps as [| p ps IH]; intros s Hnd Hres.
  { exists s. repeat split; try done. by intros ? ? ?%elem_of_nil. }
  apply NoDup_cons in Hnd as [Hp Hnd].
  destruct (Hres p) as (v & v' & Hv & Hr); [by left |].
  simpl. rewrite (resolveOwner_resolved _ _ _ _ _ Hv Hr), bind_Ret.
  destruct (IH (withPod p v' s) Hnd) as (s' & -> & Hw & Hpsvs & Hwd & Hin & Hout).
  { intros p' Hp'. rewrite withPod_lookup_ne by (by intros ->).
    apply Hres. by right. }
  exists s'. split; [done |]. repeat split; try done.
  - intros p' v0 [-> | Hp']%elem_of_cons Hv0.
    + exists v'. split; [congruence |].
      rewrite (Hout _ Hp). by eapply withPod_lookup.
    + apply Hin; [done |]. by rewrite withPod_lookup_ne by (by intros ->).
  - intros p' [Hne Hp']%not_elem_of_cons.
    rewrite (Hout _ Hp'). by apply withPod_lookup_ne.
Qed.

(** The outer loop. *)
Lemma resolveNamespaces_ok (qs : list loc) s :
  (forall q, q ∈ qs -> is_Some (psvs s !! q)) ->
  NoDup (podPointers (psvs s) qs) ->
  (forall q psv p,
      q ∈ qs -> psvs s !! q = Some psv -> p ∈ PodViolations psv ->
      exists v v', pods s !! p = Some v /\ resolved client (Namespace psv) v v') ->
  exists s',
    resolveNamespaces client qs s = Ret (s', None)
    /\ w s' = w s /\ psvs s' = psvs s /\ world s' = world s
    /\ (forall q psv p v,
          q ∈ qs -> psvs s !! q = Some psv -> p ∈ PodViolations psv ->
          pods s !! p = Some v ->
          exists v', resolved client (Namespace psv) v v'
                     /\ pods s' !! p = Some v')
    /\ (forall p, p ∉ podPointers (psvs s) qs -> pods s' !! p = pods s !! p).
Proof.
  revert s. induction qs as [| q qs IH]; intros s Hval Hnd Hres.
  { exists s. repeat split; try done. by intros ? ? ? ? ?%elem_of_nil. }
  destruct (Hval q) as [psv Hq]; [by left |].
  simpl in Hnd. rewrite Hq in Hnd. simpl in Hnd.
  apply NoDup_app in Hnd as (Hnd1 & Hdisj & Hnd2).
  simpl. unfold deref. rewrite Hq, bind_Ret.
  destruct (resolvePods_ok (Namespace psv) (PodViolations psv) s Hnd1)
    as (s1 & -> & Hw1 & Hpsvs1 & Hwd1 & Hin1 & Hout1).
  { intros p Hp. by eapply Hres; [left | |]. }
  rewrite bind_Ret.
  destruct (IH s1) as (s' & -> & Hw & Hpsvs & Hwd & Hin & Hout).
  { intros q' Hq'. rewrite Hpsvs1. apply Hval. by right. }
  { by rewrite Hpsvs1. }
  { intros q' psv' p Hq' Hpsv' Hp. rewrite Hpsvs1 in Hpsv'.
    rewrite Hout1; [by eapply Hres; [right | |] |].
    intros Hp1. eapply Hdisj; [exact Hp1 |].
    apply elem_of_podPointers. eauto. }
  exists s'. split; [done |].
  split; [congruence |]. split; [congruence |]. split; [congruence |]. split.
  - intros q' psv' p v [-> | Hq']%elem_of_cons Hpsv' Hp Hv.
    + assert (psv' = psv) as -> by congruence.
      destruct (Hin1 p v Hp Hv) as (v' & Hr & Hv').
      exists v'. split; [done |]. rewrite Hout; [done |].
      rewrite Hpsvs1. by apply Hdisj.
    + apply (Hin q' psv' p v); [done | by rewrite Hpsvs1 | done |].
      rewrite Hout1; [done |].
      intros Hp1. eapply Hdisj; [exact Hp1 |].
      apply elem_of_podPointers. eauto.
  - intros p Hp. simpl in Hp.
    apply not_elem_of_app in Hp as [Hp1 Hp2].
    rewrite Hout by (by rewrite Hpsvs1). by apply Hout1.
Qed.

(** The whole pass on a tree it gets through: it returns without error,
    touches nothing but the pod violations, and leaves each of them
    resolved. *)
Lemma enrich_resolves s :
  enrichable client s ->
  exists s',
    enrich client s = Ret (s', None)
    /\ w s' = w s /\ psvs s' = psvs s /\ world s' = world s
    /\ (forall q psv p v,
          q ∈ PSViolations (w s) -> psvs s !! q = Some psv ->
          p ∈ PodViolations psv -> pods s !! p = Some v ->
          exists v', resolved client (Namespace psv) v v'
                     /\ pods s' !! p = Some v').
Proof.
  intros (Hval & Hnd & Hres).
  destruct (resolveNamespaces_ok (PSViolations (w s)) s Hval Hnd Hres)
    as (s' & Hrun & Hw & Hpsvs & Hwd & Hin & _).
  exists s'. by repeat split.
Qed.

End Enrichment.

Lemma treeWithPod_enrichable (name : string) (v' : canonical.PodViolation) :
  resolved exampleClient "p0t-sekurity"
    {| canonical.Name := name; canonical.Deployment := None;
       canonical.Pod := None;
       canonical.Violations := ["runAsNonRoot != true"] |} v' ->
  enrichable exampleClient (treeWithPod name).
Proof.
  intros Hres. split; [| split].
  - intros q ->%list_elem_of_singleton. by eexists.
  - simpl. apply NoDup_singleton.
  - intros q psv p ->%list_elem_of_singleton [= <-] ->%list_elem_of_singleton.
    by eexists _, _.
Qed.

(** C7: a pod violation whose pod has a ReplicaSet as first owner gets the
    deployment named by the first owner of that replica set, and one whose
    pod has a Deployment as first owner gets that deployment: so for the
    loop body at any pod violation, and so at the end of the pass over a
    tree it gets through. *)
Theorem owner_resolves_to_deployment {World} (client : Clientset)
    (s : canonical.state World) :
  enrichable client s ->
  exists s',
    canonical.enrich client s = Ret (s', None)
    /\ forall q psv p v pod owner owners,
        q ∈ canonical.PSViolations (canonical.w s) ->
        canonical.psvs s !! q = Some psv ->
        p ∈ canonical.PodViolations psv ->
        canonical.pods s !! p = Some v ->
        GetPod client (canonical.Namespace psv) (canonical.Name v) = inl pod ->
        corev1.OwnerReferences pod = owner :: owners ->
        (metav1.Kind owner = "ReplicaSet" ->
         exists replicaSet rsOwner rsOwners deployment,
           GetReplicaSet client (canonical.Namespace psv) (metav1.Name owner)
           = inl replicaSet
           /\ appsv1.OwnerReferences replicaSet = rsOwner :: rsOwners
           /\ GetDeployment client (canonical.Namespace psv)
                (metav1.Name rsOwner) = inl deployment
           /\ canonical.resolveOwner client (canonical.Namespace psv) p s
              = Ret (withPod p (canonical.setDeployment deployment
                                  (canonical.setPod pod v)) s, None)
           /\ canonical.pods s' !! p
              = Some (canonical.setDeployment deployment
                        (canonical.setPod pod v)))
        /\ (metav1.Kind owner = "Deployment" ->
            exists deployment,
              GetDeployment client (canonical.Namespace psv)
                (metav1.Name owner) = inl deployment
              /\ canonical.resolveOwner client (canonical.Namespace psv) p s
                 = Ret (withPod p (canonical.setDeployment deployment
                                     (canonical.setPod pod v)) s, None)
              /\ canonical.pods s' !! p
                 = Some (canonical.setDeployment deployment
                           (canonical.setPod pod v))).
Proof.
  intros Hen. destruct (enrich_resolves client s Hen)
    as (s' & Hrun & _ & _ & _ & Hin).
  exists s'. split; [done |].
  intros q psv p v pod owner owners Hq Hpsv Hp Hv Hpod Hown.
  destruct (Hin q psv p v Hq Hpsv Hp Hv) as (v' & Hr & Hv').
  pose proof (resolveOwner_resolved client _ p s v v' Hv Hr) as Hstep.
  split; intros Hk.
  - destruct Hr as [pod' owner' owners' d Hpod' Hown' Hk' Hd
                   | pod' owner' owners' rs ro ros d Hpod' Hown' Hk' Hrs Hro Hd
                   | pod' owner' owners' Hpod' Hown' Hk1 Hk2];
      rewrite Hpod in Hpod'; injection Hpod' as <-;
      rewrite Hown in Hown'; injection Hown' as <- <-; try congruence.
    by exists rs, ro, ros, d.
  - destruct Hr as [pod' owner' owners' d Hpod' Hown' Hk' Hd
                   | pod' owner' owners' rs ro ros d Hpod' Hown' Hk' Hrs Hro Hd
                   | pod' owner' owners' Hpod' Hown' Hk1 Hk2];
      rewrite Hpod in Hpod'; injection Hpod' as <-;
      rewrite Hown in Hown'; injection Hown' as <- <-; try congruence.
    by exists d.
Qed.

Lemma owner_resolves_to_deployment_witness :
  enrichable exampleClient (treeWithPod "p0t-sekurity")
  /\ exists s',
      canonical.enrich exampleClient (treeWithPod "p0t-sekurity")
      = Ret (s', None)
      /\ canonical.Deployment <$> canonical.pods s' !! 0
         = Some (Some {| appsv1.Name := "p0t-sekurity" |}).
Proof.
  assert (enrichable exampleClient (treeWithPod "p0t-sekurity")) as Hen.
  { eapply treeWithPod_enrichable.
    eapply resolved_replicaSet; reflexivity. }
  split; [exact Hen |].
  destruct (owner_resolves_to_deployment exampleClient _ Hen) as (s' & Hrun & H).
  exists s'. split; [exact Hrun |].
  destruct (H 0 _ 0 _ _ _ _ ltac:(by left) eq_refl ltac:(by left) eq_refl
              eq_refl eq_refl) as [Hrs _].
  destruct (Hrs eq_refl) as (rs & ro & ros & d & Hg & Ho & Hd & _ & Hv).
  injection Hg as <-. injection Ho as <- <-. injection Hd as <-.
  exact (f_equal (fmap canonical.Deployment) Hv).
Defined.

(** The owner rule for a first owner of another kind: a pod violation
    whose pod has a first owner that is neither a Deployment nor a
    ReplicaSet gets its pod attached and keeps its deployment field as it
    was, unset when it was unset, and the loop body returns without error:
    so for the loop body at any pod violation, and so at the end of the
    pass over a tree it gets through. *)
Theorem other_owner_leaves_deployment {World} (client : Clientset)
    (s : canonical.state World) :
  enrichable client s ->
  exists s',
    canonical.enrich client s = Ret (s', None)
    /\ forall q psv p v pod owner owners,
        q ∈ canonical.PSViolations (canonical.w s) ->
        canonical.psvs s !! q = Some psv ->
        p ∈ canonical.PodViolations psv ->
        canonical.pods s !! p = Some v ->
        GetPod client (canonical.Namespace psv) (canonical.Name v) = inl pod ->
        corev1.OwnerReferences pod = owner :: owners ->
        metav1.Kind owner <> "Deployment" ->
        metav1.Kind owner <> "ReplicaSet" ->
        canonical.resolveOwner client (canonical.Namespace psv) p s
        = Ret (withPod p (canonical.setPod pod v) s, None)
        /\ canonical.pods s' !! p = Some (canonical.setPod pod v)
        /\ canonical.Deployment <$> canonical.pods s' !! p
           = Some (canonical.Deployment v).
Proof.
  intros Hen. destruct (enrich_resolves client s Hen)
    as (s' & Hrun & _ & _ & _ & Hin).
  exists s'. split; [done |].
  intros q psv p v pod owner owners Hq Hpsv Hp Hv Hpod Hown Hk1 Hk2.
  destruct (Hin q psv p v Hq Hpsv Hp Hv) as (v' & Hr & Hv').
  assert (v' = canonical.setPod pod v) as ->.
  { eapply resolved_unique; [exact Hr |]. by eapply resolved_other. }
  split; [by eapply resolveOwner_resolved |]. split; [done |]. by rewrite Hv'.
Qed.

Lemma other_owner_leaves_deployment_witness :
  enrichable exampleClient (treeWithPod "backup-28391")
  /\ exists s',
      canonical.enrich exampleClient (treeWithPod "backup-28391")
      = Ret (s', None)
      /\ canonical.Deployment <$> canonical.pods s' !! 0 = Some None
      /\ canonical.Pod <$> canonical.pods s' !! 0
         = Some (Some {| corev1.Name := "backup-28391";
                         corev1.OwnerReferences :=
                           [{| metav1.Kind := "Job";
                               metav1.Name := "backup" |}] |}).
Proof.
  assert (enrichable exampleClient (treeWithPod "backup-28391")) as Hen.
  { eapply treeWithPod_enrichable.
    eapply resolved_other; [reflexivity | reflexivity | discriminate..]. }
  split; [exact Hen |].
  destruct (other_owner_leaves_deployment exampleClient _ Hen)
    as (s' & Hrun & H).
  exists s'. split; [exact Hrun |].
  destruct (H 0 _ 0 _ _ _ _ ltac:(by left) eq_refl ltac:(by left) eq_refl
              eq_refl eq_refl ltac:(discriminate) ltac:(discriminate))
    as (_ & Hv & Hd).
  split; [exact Hd |]. exact (f_equal (fmap canonical.Pod) Hv).
Defined.

(** C6 says that a pod without owner references keeps its deployment
    field unset and that the pass goes on without error.  The code does
    not: the first case of the switch reads [pod.OwnerReferences[0]], and
    on the empty slice the pass panics with index 0 out of range of
    length 0. *)
Lemma ownerless_pod_panics :
  GetPod exampleClient "p0t-sekurity" "debug-shell"
  = inl {| corev1.Name := "debug-shell"; corev1.OwnerReferences := [] |}
  /\ canonical.enrich exampleClient (treeWithPod "debug-shell")
     = Panic (IndexOutOfRange PodOwnerReferences0 0 0)
  /\ ~ ownerlessLeftUnset exampleClient (treeWithPod "debug-shell").
Proof.
  split; [reflexivity |]. split; [reflexivity |].
  intros H.
  destruct (H 0 _ 0 _ _ ltac:(by left) eq_refl ltac:(by left) eq_refl
              eq_refl eq_refl) as (s' & Hrun & _).
  discriminate.
Qed.

(** ** The quoted segments of a text in the expected format *)

Lemma spanNotQuote_length (s : string) :
  String.length (fst (regexp.spanNotQuote s))
  + String.length (snd (regexp.spanNotQuote s)) = String.length s.
Proof.
  induction s as [| c s IH]; [done |]. simpl.
  destruct (Ascii.eqb c strings.dquote); [done |].
  destruct (regexp.spanNotQuote s) as [run rest]. simpl in *. lia.
Qed.

Lemma matchHere_shorter (s group rest : string) :
  regexp.matchHere s = Some (group, rest) ->
  String.length rest < String.length s.
Proof.
  destruct s as [| c s]; [done |]. simpl.
  destruct (Ascii.eqb c strings.dquote); [| done].
  pose proof (spanNotQuote_length s) as Hlen.
  destruct (regexp.spanNotQuote s) as [[| r run] [| q rest']]; try done.
  intros [= <- <-]. simpl in Hlen. lia.
Qed.

Lemma findAll_fuel (fuel : nat) (s : string) :
  String.length s <= fuel ->
  regexp.findAll fuel s = regexp.findAll (String.length s) s.
Proof.
  revert s. induction fuel as [fuel IH] using lt_wf_ind. intros s Hle.
  destruct s as [| c s]; [by destruct fuel |].
  destruct fuel as [| fuel]; [simpl in Hle; lia |].
  cbn [regexp.findAll String.length].
  destruct (regexp.matchHere (String c s)) as [[group rest] |] eqn:E.
  - pose proof (matchHere_shorter _ _ _ E) as Hlt. simpl in Hle, Hlt.
    f_equal. rewrite (IH fuel) by lia.
    rewrite (IH (String.length s)) by lia. done.
  - simpl in Hle. apply IH; lia.
Qed.

(** The search, one step at a time. *)
Lemma FindAllStringSubmatch_eq (s : string) :
  regexp.FindAllStringSubmatch s =
    match s with
    | EmptyString => []
    | String _ s' =>
        match regexp.matchHere s with
        | Some (group, rest) =>
            [quoted group; group] :: regexp.FindAllStringSubmatch rest
        | None => regexp.FindAllStringSubmatch s'
        end
    end.
Proof.
  unfold regexp.FindAllStringSubmatch. destruct s as [| c s]; [done |].
  cbn [regexp.findAll String.length].
  destruct (regexp.matchHere (String c s)) as [[group rest] |] eqn:E; [| done].
  pose proof (matchHere_shorter _ _ _ E) as Hlt. simpl in Hlt.
  unfold quoted. f_equal. apply findAll_fuel. lia.
Qed.

Lemma FindAll_skip (pre s : string) :
  noQuote pre = true ->
  regexp.FindAllStringSubmatch (pre +:+ s) = regexp.FindAllStringSubmatch s.
Proof.
  induction pre as [| c pre IH]; [done |]. simpl.
  intros [Hc Hpre]%andb_prop. rewrite append_cons, FindAllStringSubmatch_eq.
  simpl. apply negb_true_iff in Hc. rewrite Hc. by apply IH.
Qed.

Lemma spanNotQuote_run (group rest : string) :
  noQuote group = true ->
  regexp.spanNotQuote (group +:+ String strings.dquote rest)
  = (group, String strings.dquote rest).
Proof.
  induction group as [| c group IH]; [done |]. cbn [noQuote].
  intros [Hc Hg]%andb_prop. rewrite append_cons. cbn [regexp.spanNotQuote].
  apply negb_true_iff in Hc. rewrite Hc. by rewrite IH.
Qed.

Lemma append_assoc (a b c : string) : (a +:+ b) +:+ c = a +:+ (b +:+ c).
Proof.
  induction a as [| x a IH]; [done |]. rewrite !append_cons. by f_equal.
Qed.

Lemma FindAll_quoted (group rest : string) :
  group <> EmptyString ->
  noQuote group = true ->
  regexp.FindAllStringSubmatch (quoted group +:+ rest)
  = [quoted group; group] :: regexp.FindAllStringSubmatch rest.
Proof.
  intros Hne Hg. rewrite FindAllStringSubmatch_eq.
  unfold quoted at 1 2. rewrite !append_cons, append_assoc, append_cons.
  cbn [regexp.matchHere]. rewrite Ascii.eqb_refl.
  rewrite append_nil_l, (spanNotQuote_run _ _ Hg).
  by destruct group.
Qed.

(** In the format of the source comment, the two titles are the namespace
    and the level. *)
Lemma titles_of_format (pre ns mid lvl post : string) :
  noQuote pre = true -> noQuote mid = true ->
  ns <> EmptyString -> noQuote ns = true ->
  lvl <> EmptyString -> noQuote lvl = true ->
  titles (pre +:+ quoted ns +:+ mid +:+ quoted lvl +:+ post) = Some (ns, lvl).
Proof.
  intros Hpre Hmid Hns1 Hns2 Hlvl1 Hlvl2. unfold titles.
  rewrite (FindAll_skip _ _ Hpre), (FindAll_quoted _ _ Hns1 Hns2).
  by rewrite (FindAll_skip _ _ Hmid), (FindAll_quoted _ _ Hlvl1 Hlvl2).
Qed.

(** ** The trees the handler builds *)

Lemma podPointers_app (heap : list canonical.PSViolation) (qs1 qs2 : list loc) :
  podPointers heap (qs1 ++ qs2) = podPointers heap qs1 ++ podPointers heap qs2.
Proof.
  induction qs1 as [| q qs1 IH]; [done |]. simpl. by rewrite IH, app_assoc.
Qed.

Lemma podPointers_ext (heap heap' : list canonical.PSViolation) (qs : list loc) :
  Forall (fun q => heap !! q = heap' !! q) qs ->
  podPointers heap qs = podPointers heap' qs.
Proof.
  induction 1 as [| q qs Hq _ IH]; [done |]. simpl. by rewrite Hq, IH.
Qed.

Lemma Forall_seq_lt (n : nat) : Forall (fun q => q < n) (seq 0 n).
Proof. apply Forall_forall. intros q Hq%list_elem_of_In%in_seq. lia. Qed.

Section Allocation.
Context {World : Type}.
Implicit Types s : canonical.state World.
Import canonical.

Lemma empty_allocatedInOrder (wd : World) : allocatedInOrder (empty wd).
Proof. by split. Qed.

Lemma handle_allocatedInOrder code agent text s s' :
  allocatedInOrder s ->
  HandleWarningHeader code agent text s = Ret s' ->
  allocatedInOrder s'.
Proof.
  intros [Hq Hp]. destruct (shape_cases text) as [-> | [Hns | Hpod]].
  - by intros [= <-].
  - rewrite (handle_namespace _ _ _ _ Hns). cbv zeta.
    intros (? & _ & (ns & _ & (? & _ & (lvl & _ & [= <-])%bind_Ret_inv
      )%bind_Ret_inv)%bind_Ret_inv)%bind_Ret_inv.
    unfold allocatedInOrder. rewrite forward_w, forward_psvs, forward_pods.
    simpl. rewrite length_app, Nat.add_1_r, seq_S. simpl.
    split; [by rewrite Hq |].
    rewrite podPointers_app. simpl.
    rewrite lookup_app_r, Nat.sub_diag by done. simpl. rewrite !app_nil_r.
    rewrite <- Hp. symmetry. apply podPointers_ext.
    rewrite Hq. eapply Forall_impl; [apply Forall_seq_lt |].
    intros q Hlt. simpl in Hlt. by rewrite lookup_app_l.
  - rewrite (handle_pod _ _ _ _ Hpod). rewrite Hq in *.
    destruct (length (psvs s)) as [| m] eqn:Hlen.
    { simpl seq. by rewrite index_empty_last. }
    rewrite seq_S in *. simpl "+" in *. rewrite index_last, bind_Ret. cbv zeta.
    intros (t0 & _ & (t1 & _ & (lastPSV & Hlast & [= <-])%bind_Ret_inv
      )%bind_Ret_inv)%bind_Ret_inv.
    unfold deref in Hlast. case_match eqn:Hm; [| done].
    injection Hlast as ->.
    unfold allocatedInOrder. rewrite forward_w, forward_psvs, forward_pods.
    simpl. rewrite length_insert, Hlen, Hq, seq_S. simpl "+".
    split; [done |].
    rewrite podPointers_app in Hp. rewrite podPointers_app. simpl in Hp |- *.
    rewrite list_lookup_insert_eq by lia. unfold loc in *. rewrite Hm in Hp.
    simpl in Hp |- *. rewrite !app_nil_r in *.
    rewrite length_app, Nat.add_1_r, seq_S. simpl "+".
    rewrite <- Hp, app_assoc. f_equal. f_equal.
    apply podPointers_ext. eapply Forall_impl; [apply Forall_seq_lt |].
    intros q Hlt. simpl in Hlt. rewrite list_lookup_insert_ne by lia. done.
Qed.

Lemma handleAll_allocatedInOrder warnings s s' :
  allocatedInOrder s -> handleAll warnings s = Ret s' -> allocatedInOrder s'.
Proof.
  revert s. induction warnings as [| [[code agent] text] warnings IH];
    intros s Hinv; simpl.
  - by intros [= <-].
  - intros (s1 & Hstep & Hrun)%bind_Ret_inv.
    eapply IH; [| exact Hrun]. by eapply handle_allocatedInOrder.
Qed.

(** A tree built by the handler from the empty mapper has no nil pointer
    and reaches no pod violation twice: the pass gets through it as soon as
    the fetches answer. *)
Lemma built_enrichable (client : Clientset) (wd : World) warnings s :
  handleAll warnings (empty wd) = Ret s ->
  (forall q psv p v,
      q ∈ PSViolations (w s) -> psvs s !! q = Some psv ->
      p ∈ PodViolations psv -> pods s !! p = Some v ->
      exists v', resolved client (Namespace psv) v v') ->
  enrichable client s.
Proof.
  intros Hrun Hres.
  destruct (handleAll_allocatedInOrder _ _ _ (empty_allocatedInOrder wd) Hrun)
    as [Hq Hp].
  split; [| split].
  - intros q Hin. rewrite Hq in Hin.
    apply list_elem_of_In, in_seq in Hin. apply lookup_lt_is_Some. lia.
  - rewrite Hp. apply NoDup_ListNoDup, seq_NoDup.
  - intros q psv p Hin Hpsv Hpin.
    assert (p ∈ podPointers (psvs s) (PSViolations (w s))) as Hpp
      by (apply elem_of_podPointers; eauto).
    rewrite Hp in Hpp. apply list_elem_of_In, in_seq in Hpp.
    destruct (lookup_lt_is_Some_2 (pods s) p) as [v Hv]; [lia |].
    destruct (Hres q psv p v Hin Hpsv Hpin Hv) as [v' Hr]. eauto.
Qed.

End Allocation.

(** The example trees are the ones the handler builds. *)
Example example_trees_built :
  canonical.handleAll [(299, "-", exampleNamespaceWarning)]%Z (canonical.empty tt)
  = Ret afterNamespaceWarning
  /\ canonical.handleAll
       [(299, "-", exampleNamespaceWarning);
        (299, "-", exampleNamespaceWarning)]%Z (canonical.empty tt)
     = Ret twoNamespaces
  /\ Forall (fun name =>
       canonical.handleAll
         [(299, "-", exampleNamespaceWarning);
          (299, "-", name +:+ ": runAsNonRoot != true")]%Z (canonical.empty tt)
       = Ret (treeWithPod name))
       ["p0t-sekurity"; "backup-28391"; "debug-shell"].
Proof. repeat constructor. Qed.

(** ** The tree, step by step *)

Lemma titles_inv (text ns lvl : string) :
  titles text = Some (ns, lvl) ->
  exists x0 x1 more,
    regexp.FindAllStringSubmatch text = [x0; ns] :: [x1; lvl] :: more.
Proof.
  unfold titles. intros H.
  repeat case_match; simplify_eq. eauto.
Qed.

Section TreeSteps.
Context {World : Type}.
Implicit Types s : canonical.state World.
Import canonical.

Lemma view_forward code agent text s : view (forward code agent text s) = view s.
Proof.
  unfold view, viewPSViolation.
  by rewrite forward_w, forward_psvs, forward_pods.
Qed.

(** In a tree allocated in order every pod-violation pointer points into
    the store. *)
Lemma podPointer_valid s q v p :
  allocatedInOrder s ->
  q ∈ PSViolations (w s) -> psvs s !! q = Some v -> p ∈ PodViolations v ->
  p < length (pods s).
Proof.
  intros [_ Hp] Hq Hv Hin.
  assert (p ∈ podPointers (psvs s) (PSViolations (w s))) as Hpp
    by (apply elem_of_podPointers; eauto).
  rewrite Hp in Hpp. apply list_elem_of_In, in_seq in Hpp. lia.
Qed.

Lemma lookups_grown {A} (xs : list A) (x : A) (ps : list nat) :
  Forall (fun p => p < length xs) ps ->
  map (fun p => (xs ++ [x]) !! p) ps = map (fun p => xs !! p) ps.
Proof.
  intros H. apply map_ext_Forall. eapply Forall_impl; [exact H |].
  intros p Hp. simpl in Hp. by rewrite lookup_app_l.
Qed.

Lemma handle_namespace_view (wd : World)
    (before : list (Z * string * string)) s
    (code : Z) (agent text ns lvl : string) :
  handleAll before (empty wd) = Ret s ->
  isNamespaceShape text = true ->
  titles text = Some (ns, lvl) ->
  exists s',
    HandleWarningHeader code agent text s = Ret s'
    /\ view s' = view s ++ [Some {| namespace := ns; level := lvl;
                                    podViolations := [] |}].
Proof.
  intros Hbuilt Hns Ht.
  pose proof (handleAll_allocatedInOrder _ _ _ (empty_allocatedInOrder wd) Hbuilt)
    as [Hq _].
  destruct (titles_inv _ _ _ Ht) as (x0 & x1 & more & Hfind).
  rewrite (handle_namespace _ _ _ _ Hns), Hfind. cbv zeta.
  eexists. split; [reflexivity |].
  rewrite view_forward. unfold view, viewPSViolation. simpl.
  rewrite map_app. simpl. rewrite lookup_app_r, Nat.sub_diag by done. simpl.
  f_equal. apply map_ext_Forall. rewrite Hq.
  eapply Forall_impl; [apply Forall_seq_lt |].
  intros q Hlt. simpl in Hlt. by rewrite lookup_app_l.
Qed.

Lemma handle_pod_view (wd : World)
    (before : list (Z * string * string)) s
    (code : Z) (agent text : string) (pv : PodViolation)
    (entries : list (option NamespaceViolation)) (e : NamespaceViolation) :
  handleAll before (empty wd) = Ret s ->
  isPodShape text = true ->
  podViolationOf text = Some pv ->
  view s = entries ++ [Some e] ->
  exists s',
    HandleWarningHeader code agent text s = Ret s'
    /\ view s' =
       entries ++ [Some {| namespace := namespace e; level := level e;
                           podViolations := podViolations e ++ [Some pv] |}].
Proof.
  intros Hbuilt Hpod Hpv Hview.
  pose proof (handleAll_allocatedInOrder _ _ _ (empty_allocatedInOrder wd) Hbuilt)
    as Halloc.
  pose proof Halloc as [Hq Hp].
  unfold view in Hview. rewrite Hq in Hview.
  destruct (length (psvs s)) as [| m] eqn:Hlen.
  { simpl in Hview. by destruct entries. }
  rewrite seq_S, map_app in Hview. simpl in Hview.
  apply app_inj_tail in Hview as [Hentries He].
  unfold viewPSViolation in He. unfold loc in *.
  destruct (psvs s !! m) as [lastPSV |] eqn:Hm; [| done].
  simpl in He. injection He as <-.
  unfold podViolationOf in Hpv.
  destruct (strings.Cut text ": ") as [[name rest] |] eqn:Hcut; [| done].
  injection Hpv as <-.
  assert (PSViolations (w s) = seq 0 m ++ [m]) as Hw by (by rewrite Hq, seq_S).
  rewrite (handle_pod_cut s code agent text (seq 0 m) m lastPSV name rest
             Hpod Hw Hm Hcut).
  eexists. split; [reflexivity |].
  rewrite view_forward. unfold view. simpl. rewrite Hq, seq_S, map_app. simpl.
  assert (Forall (fun p => p < length (pods s)) (PodViolations lastPSV)) as Hlast.
  { apply Forall_forall. intros p Hin.
    eapply (podPointer_valid s m); [done | | done | done].
    rewrite Hq. apply list_elem_of_In, in_seq. lia. }
  f_equal.
  - rewrite <- Hentries. apply map_ext_Forall.
    apply Forall_forall. intros q Hqin%list_elem_of_In%in_seq.
    unfold viewPSViolation. simpl.
    rewrite list_lookup_insert_ne by lia.
    unfold loc in *.
    destruct (psvs s !! q) as [v |] eqn:Hv; [| done]. simpl. do 2 f_equal.
    apply lookups_grown. apply Forall_forall. intros p Hin.
    eapply (podPointer_valid s q); [done | | done | done].
    rewrite Hq, seq_S. apply list_elem_of_In, in_app_iff. left.
    apply in_seq. lia.
  - unfold viewPSViolation. simpl.
    rewrite list_lookup_insert_eq by lia. simpl. do 3 f_equal.
    rewrite map_app. simpl. rewrite lookup_app_r, Nat.sub_diag by done.
    simpl. f_equal. by apply lookups_grown.
Qed.

Lemma handleAll_app (ws1 ws2 : list (Z * string * string)) s :
  handleAll (ws1 ++ ws2) s = handleAll ws1 s ≫= handleAll ws2.
Proof.
  revert s. induction ws1 as [| [[code agent] text] ws1 IH]; intros s; [done |].
  simpl. destruct (HandleWarningHeader code agent text s) as [s1 |]; [| done].
  rewrite !bind_Ret. apply IH.
Qed.

End TreeSteps.

(** ** The tree by value *)

Lemma addToLast_snoc (pv : canonical.PodViolation)
    (entries : list canonical.NamespaceViolation)
    (e : canonical.NamespaceViolation) :
  addToLast pv (entries ++ [e])
  = entries ++ [{| canonical.namespace := canonical.namespace e;
                   canonical.level := canonical.level e;
                   canonical.podViolations :=
                     canonical.podViolations e ++ [Some pv] |}].
Proof.
  induction entries as [| v entries IH]; [done |].
  simpl. rewrite IH. by destruct (entries ++ [e]) eqn:E; [destruct entries |].
Qed.

Lemma treeStep_length (tree : list canonical.NamespaceViolation) (text : string) :
  length tree <= length (treeStep tree text).
Proof.
  unfold treeStep. repeat case_match; try lia.
  - rewrite length_app. lia.
  - destruct tree as [| v tree]; [simpl; lia |].
    destruct (nonempty_snoc (v :: tree)) as (entries & e & ->); [done |].
    rewrite addToLast_snoc, !length_app. simpl. lia.
Qed.

Lemma fold_treeStep_length (texts : list string)
    (tree : list canonical.NamespaceViolation) :
  length tree <= length (fold_left treeStep texts tree).
Proof.
  revert tree. induction texts as [| t texts IH]; intros tree; simpl; [lia |].
  etrans; [apply (treeStep_length tree t) | apply IH].
Qed.

Lemma entryOf_wellFormed (text : string) :
  isNamespaceShape text = true -> wellFormedb text = true ->
  exists ns lvl,
    titles text = Some (ns, lvl)
    /\ entryOf text = Some {| canonical.namespace := ns; canonical.level := lvl;
                              canonical.podViolations := [] |}.
Proof.
  intros Hns Hwf. unfold wellFormedb in Hwf. rewrite Hns in Hwf.
  destruct (titles_Some _ Hwf) as (x0 & ns & x1 & lvl & more & _ & Ht).
  exists ns, lvl. split; [done |]. unfold entryOf. by rewrite Ht.
Qed.

Lemma podViolationOf_wellFormed (text : string) :
  isPodShape text = true -> wellFormedb text = true ->
  is_Some (podViolationOf text).
Proof.
  intros Hpod Hwf. destruct (podShape_inv _ Hpod) as [_ Hns].
  unfold wellFormedb in Hwf. rewrite Hns, Hpod in Hwf.
  apply bool_decide_eq_true in Hwf as [[name rest] Hcut].
  unfold podViolationOf. rewrite Hcut. by eexists.
Qed.

Lemma treeOf_nonempty (texts : list string) (u : string) :
  u ∈ texts -> isNamespaceShape u = true -> wellFormedb u = true ->
  treeOf texts <> [].
Proof.
  intros (l1 & l2 & ->)%list_elem_of_split Hns Hwf.
  destruct (entryOf_wellFormed _ Hns Hwf) as (ns & lvl & _ & He).
  unfold treeOf. rewrite fold_left_app. simpl.
  assert (forall tree, treeStep tree u = tree ++ [
            {| canonical.namespace := ns; canonical.level := lvl;
               canonical.podViolations := [] |}]) as Hstep
    by (intros tree; unfold treeStep; by rewrite Hns, He).
  rewrite Hstep.
  pose proof (fold_treeStep_length l2 (fold_left treeStep l1 [] ++ [
            {| canonical.namespace := ns; canonical.level := lvl;
               canonical.podViolations := [] |}])) as Hlen.
  rewrite length_app in Hlen. simpl in Hlen.
  intros Hnil. rewrite Hnil in Hlen. simpl in Hlen. lia.
Qed.

Lemma podsPreceded_app_l (texts1 texts2 : list string) :
  podsPreceded (texts1 ++ texts2) -> podsPreceded texts1.
Proof.
  intros H i t Hi Hpod.
  destruct (H i t) as (j & u & Hj & Hu & Hns); [by apply lookup_app_l_Some | done |].
  exists j, u. split; [done |]. split; [| done].
  rewrite lookup_app_l in Hu; [done |]. apply lookup_lt_Some in Hi. lia.
Qed.

Lemma podsPreceded_last (texts : list string) (t : string) :
  podsPreceded (texts ++ [t]) -> isPodShape t = true ->
  exists u, u ∈ texts /\ isNamespaceShape u = true.
Proof.
  intros H Hpod.
  destruct (H (length texts) t) as (j & u & Hj & Hu & Hns); [| done |].
  { by rewrite lookup_app_r, Nat.sub_diag. }
  exists u. split; [| done]. rewrite lookup_app_l in Hu by done.
  by eapply list_elem_of_lookup_2.
Qed.

(** The run of a well-formed sequence builds, behind the pointers, the
    tree by value. *)
Lemma handleAll_tree {World} (wd : World) (warnings : list (Z * string * string)) :
  podsPreceded (map textOf warnings) ->
  forallb wellFormedb (map textOf warnings) = true ->
  exists s',
    canonical.handleAll warnings (canonical.empty wd) = Ret s'
    /\ canonical.view s' = map Some (treeOf (map textOf warnings)).
Proof.
  induction warnings as [| [[code agent] text] warnings IH] using rev_ind;
    intros Hpre Hwf.
  { by exists (canonical.empty wd). }
  rewrite map_app in Hpre, Hwf. cbn [map textOf snd] in Hpre, Hwf.
  rewrite forallb_app in Hwf. apply andb_true_iff in Hwf as [Hwfs Hwf].
  simpl in Hwf. rewrite andb_true_r in Hwf.
  destruct IH as (s & Hrun & Hview); [by eapply podsPreceded_app_l | done |].
  rewrite handleAll_app, Hrun, bind_Ret. cbn [canonical.handleAll].
  rewrite map_app. cbn [map textOf snd]. unfold treeOf. rewrite fold_left_app.
  fold (treeOf (map textOf warnings)). cbn [fold_left]. unfold treeStep.
  destruct (shape_cases text) as [-> | [Hns | Hpod]].
  - exists s. by rewrite handle_empty_text.
  - rewrite Hns.
    destruct (entryOf_wellFormed _ Hns Hwf) as (ns & lvl & Ht & ->).
    destruct (handle_namespace_view wd warnings s code agent text ns lvl
                Hrun Hns Ht) as (s' & -> & Hview').
    exists s'. split; [done |]. by rewrite Hview', Hview, map_app.
  - destruct (podShape_inv _ Hpod) as [_ Hns]. rewrite Hns, Hpod.
    destruct (podViolationOf_wellFormed _ Hpod Hwf) as [pv Hpv]. rewrite Hpv.
    destruct (podsPreceded_last _ _ Hpre Hpod) as (u & Hu & Hnsu).
    assert (wellFormedb u = true) as Hwfu.
    { rewrite forallb_forall in Hwfs. by apply Hwfs, list_elem_of_In. }
    destruct (nonempty_snoc (treeOf (map textOf warnings)))
      as (entries & e & Htree); [by eapply treeOf_nonempty |].
    rewrite Htree, map_app in Hview. simpl in Hview.
    destruct (handle_pod_view wd warnings s code agent text pv _ e
                Hrun Hpod Hpv Hview) as (s' & -> & Hview').
    exists s'. split; [done |].
    by rewrite Hview', Htree, addToLast_snoc, map_app.
Qed.

Lemma allPodViolations_Some (tree : list canonical.NamespaceViolation) :
  allPodViolations (map Some tree) = podViolationsOf tree.
Proof.
  unfold allPodViolations, podViolationsOf. by rewrite map_map.
Qed.

Lemma podViolationsOf_app (tree1 tree2 : list canonical.NamespaceViolation) :
  podViolationsOf (tree1 ++ tree2)
  = podViolationsOf tree1 ++ podViolationsOf tree2.
Proof. unfold podViolationsOf. by rewrite map_app, concat_app. Qed.

(** Read entry by entry, the tree by value holds the pod violations of the
    pod-shape texts in arrival order. *)
Lemma treeStep_pods (texts : list string)
    (tree : list canonical.NamespaceViolation) :
  podsPrecededb (bool_decide (tree <> [])) texts = true ->
  forallb wellFormedb texts = true ->
  podViolationsOf (fold_left treeStep texts tree)
  = podViolationsOf tree
    ++ map Some (omap podViolationOf
                   (filter (fun t => isPodShape t = true) texts)).
Proof.
  revert tree. induction texts as [| t texts IH]; intros tree Hpre Hwf.
  { simpl. by rewrite app_nil_r. }
  cbn [forallb podsPrecededb fold_left] in *.
  apply andb_true_iff in Hwf as [Hwf Hwfs]. rewrite filter_cons.
  destruct (isNamespaceShape t) eqn:Hns.
  - destruct (entryOf_wellFormed _ Hns Hwf) as (ns & lvl & _ & He).
    assert (isPodShape t = false) as Hpod
      by (unfold isPodShape; rewrite Hns; apply andb_false_r).
    rewrite decide_False by congruence.
    unfold treeStep at 2. rewrite Hns, He.
    rewrite IH; [| | done].
    + rewrite podViolationsOf_app. unfold podViolationsOf at 2. simpl.
      by rewrite app_nil_r.
    + rewrite bool_decide_eq_true_2; [done |]. by destruct tree.
  - destruct (isPodShape t) eqn:Hpod.
    + apply andb_true_iff in Hpre as [Hseen Hpre].
      pose proof Hseen as Htree. apply bool_decide_eq_true in Htree.
      destruct (nonempty_snoc _ Htree) as (entries & e & ->).
      destruct (podViolationOf_wellFormed _ Hpod Hwf) as [pv Hpv].
      rewrite decide_True by done.
      unfold treeStep at 2. rewrite Hns, Hpod, Hpv, addToLast_snoc.
      rewrite IH; [| | done].
      * cbn [omap list_omap]. rewrite Hpv. simpl.
        rewrite !podViolationsOf_app. unfold podViolationsOf at 2 4. simpl.
        rewrite !app_nil_r, <- !app_assoc. done.
      * rewrite bool_decide_eq_true_2; [| by destruct entries].
        by rewrite Hseen in Hpre.
    + rewrite decide_False by congruence.
      unfold treeStep at 2. rewrite Hns, Hpod. by apply IH.
Qed.

Example twoUpdates_tree : treeOf (map textOf twoUpdates) = twoUpdatesTree.
Proof. reflexivity. Qed.

(** X1: in a tree the handler has built, a namespace-shape text with two
    quoted segments adds one entry behind the others, with those segments
    as namespace and level and without pod violations; the entries before
    it are as they were. *)
Theorem namespace_text_opens_entry {World} (wd : World)
    (before : list (Z * string * string)) (s : canonical.state World)
    (code : Z) (agent text ns lvl : string) :
  canonical.handleAll before (canonical.empty wd) = Ret s ->
  isNamespaceShape text = true ->
  titles text = Some (ns, lvl) ->
  exists s',
    canonical.HandleWarningHeader code agent text s = Ret s'
    /\ canonical.view s' =
       canonical.view s
       ++ [Some {| canonical.namespace := ns; canonical.level := lvl;
                   canonical.podViolations := [] |}].
Proof. apply handle_namespace_view. Qed.

Lemma namespace_text_opens_entry_witness :
  canonical.handleAll (take 3 twoUpdates) (canonical.empty tt) = Ret afterShop
  /\ isNamespaceShape (namespaceWarning "db" "baseline:v1.24") = true
  /\ titles (namespaceWarning "db" "baseline:v1.24")
     = Some ("db", "baseline:v1.24")
  /\ exists s',
      canonical.HandleWarningHeader 299 "-"
        (namespaceWarning "db" "baseline:v1.24") afterShop = Ret s'
      /\ canonical.view s' =
         canonical.view afterShop
         ++ [Some {| canonical.namespace := "db";
                     canonical.level := "baseline:v1.24";
                     canonical.podViolations := [] |}].
Proof.
  assert (canonical.handleAll (take 3 twoUpdates) (canonical.empty tt)
          = Ret afterShop) as Hbuilt by (vm_compute; reflexivity).
  assert (isNamespaceShape (namespaceWarning "db" "baseline:v1.24") = true)
    as Hns by (vm_compute; reflexivity).
  assert (titles (namespaceWarning "db" "baseline:v1.24")
          = Some ("db", "baseline:v1.24")) as Ht by (vm_compute; reflexivity).
  split; [exact Hbuilt |]. split; [exact Hns |]. split; [exact Ht |].
  exact (namespace_text_opens_entry tt (take 3 twoUpdates) afterShop 299 "-"
           (namespaceWarning "db" "baseline:v1.24") "db" "baseline:v1.24"
           Hbuilt Hns Ht).
Defined.

(** X2: in a tree the handler has built, a pod-shape text with the
    separator adds its pod violation behind those of the last entry; the
    entries before the last and the pod violations already in the last are
    as they were. *)
Theorem pod_text_goes_to_last_entry {World} (wd : World)
    (before : list (Z * string * string)) (s : canonical.state World)
    (code : Z) (agent text : string) (pv : canonical.PodViolation)
    (entries : list (option canonical.NamespaceViolation))
    (e : canonical.NamespaceViolation) :
  canonical.handleAll before (canonical.empty wd) = Ret s ->
  isPodShape text = true ->
  podViolationOf text = Some pv ->
  canonical.view s = entries ++ [Some e] ->
  exists s',
    canonical.HandleWarningHeader code agent text s = Ret s'
    /\ canonical.view s' =
       entries
       ++ [Some {| canonical.namespace := canonical.namespace e;
                   canonical.level := canonical.level e;
                   canonical.podViolations :=
                     canonical.podViolations e ++ [Some pv] |}].
Proof. apply handle_pod_view. Qed.

Lemma pod_text_goes_to_last_entry_witness :
  let pv := {| canonical.Name := "pg-0"; canonical.Deployment := None;
               canonical.Pod := None;
               canonical.Violations := ["hostPath volumes"] |} in
  let e := {| canonical.namespace := "db";
              canonical.level := "baseline:v1.24";
              canonical.podViolations := [] |} in
  canonical.handleAll (take 5 twoUpdates) (canonical.empty tt)
  = Ret afterDbOpened
  /\ isPodShape "pg-0: hostPath volumes" = true
  /\ podViolationOf "pg-0: hostPath volumes" = Some pv
  /\ canonical.view afterDbOpened = map Some (take 1 twoUpdatesTree) ++ [Some e]
  /\ exists s',
      canonical.HandleWarningHeader 299 "-" "pg-0: hostPath volumes"
        afterDbOpened = Ret s'
      /\ canonical.view s' =
         map Some (take 1 twoUpdatesTree)
         ++ [Some {| canonical.namespace := canonical.namespace e;
                     canonical.level := canonical.level e;
                     canonical.podViolations :=
                       canonical.podViolations e ++ [Some pv] |}].
Proof.
  intros pv e.
  assert (canonical.handleAll (take 5 twoUpdates) (canonical.empty tt)
          = Ret afterDbOpened) as Hbuilt by (vm_compute; reflexivity).
  assert (isPodShape "pg-0: hostPath volumes" = true) as Hpod
    by (vm_compute; reflexivity).
  assert (podViolationOf "pg-0: hostPath volumes" = Some pv) as Hpv
    by (vm_compute; reflexivity).
  assert (canonical.view afterDbOpened
          = map Some (take 1 twoUpdatesTree) ++ [Some e]) as Hview
    by (vm_compute; reflexivity).
  split; [exact Hbuilt |]. split; [exact Hpod |]. split; [exact Hpv |].
  split; [exact Hview |].
  exact (pod_text_goes_to_last_entry tt (take 5 twoUpdates) afterDbOpened
           299 "-" "pg-0: hostPath volumes" pv
           (map Some (take 1 twoUpdatesTree)) e Hbuilt Hpod Hpv Hview).
Defined.

(** X3: for a well-formed sequence (pod-shape texts preceded, two quoted
    segments in every namespace-shape text, the separator in every
    pod-shape text) the run from the empty mapper returns, and what the
    pointers show is the tree by value: one entry per namespace-shape text,
    holding the pod violations of the pod-shape texts received after it
    and before the next namespace-shape text, in arrival order. *)
Theorem run_builds_tree_by_value {World} (wd : World)
    (warnings : list (Z * string * string)) :
  podsPreceded (map textOf warnings) ->
  forallb wellFormedb (map textOf warnings) = true ->
  exists s',
    canonical.handleAll warnings (canonical.empty wd) = Ret s'
    /\ canonical.view s' = map Some (treeOf (map textOf warnings)).
Proof. apply handleAll_tree. Qed.

Lemma run_builds_tree_by_value_witness :
  podsPreceded (map textOf twoUpdates)
  /\ forallb wellFormedb (map textOf twoUpdates) = true
  /\ exists s',
      canonical.handleAll twoUpdates (canonical.empty tt) = Ret s'
      /\ canonical.view s' = map Some twoUpdatesTree.
Proof.
  assert (podsPreceded (map textOf twoUpdates)) as Hpre
    by (apply podsPrecededb_spec; reflexivity).
  split; [exact Hpre |]. split; [reflexivity |].
  exact (run_builds_tree_by_value tt twoUpdates Hpre eq_refl).
Defined.

(** X4: for a well-formed sequence no pod violation is lost, doubled or
    moved: read entry by entry, the tree holds the pod violations of the
    pod-shape texts, one per text, in arrival order. *)
Theorem pod_violations_in_arrival_order {World} (wd : World)
    (warnings : list (Z * string * string)) :
  podsPreceded (map textOf warnings) ->
  forallb wellFormedb (map textOf warnings) = true ->
  exists s',
    canonical.handleAll warnings (canonical.empty wd) = Ret s'
    /\ allPodViolations (canonical.view s')
       = map Some (omap podViolationOf
                     (filter (fun t => isPodShape t = true)
                        (map textOf warnings)))
    /\ length (allPodViolations (canonical.view s'))
       = length (filter (fun t => isPodShape t = true) (map textOf warnings)).
Proof.
  intros Hpre Hwf.
  destruct (handleAll_tree wd warnings Hpre Hwf) as (s' & Hrun & Hview).
  exists s'. split; [done |].
  rewrite Hview, allPodViolations_Some. unfold treeOf.
  rewrite treeStep_pods; [| by apply podsPrecededb_spec | done].
  simpl. split; [done |]. rewrite length_map.
  clear Hpre Hrun Hview. induction (map textOf warnings) as [| t texts IH];
    [done |].
  simpl in Hwf. apply andb_true_iff in Hwf as [Ht Hwf].
  rewrite filter_cons. destruct (decide (isPodShape t = true)) as [Hpod |];
    [| by apply IH].
  destruct (podViolationOf_wellFormed _ Hpod Ht) as [pv Hpv].
  cbn [omap list_omap]. rewrite Hpv. simpl. f_equal. by apply IH.
Qed.

Lemma pod_violations_in_arrival_order_witness :
  podsPreceded (map textOf twoUpdates)
  /\ forallb wellFormedb (map textOf twoUpdates) = true
  /\ exists s',
      canonical.handleAll twoUpdates (canonical.empty tt) = Ret s'
      /\ map (fmap canonical.Name) (allPodViolations (canonical.view s'))
         = [Some "web-0"; Some "web-1 (and 2 other pods)"; Some "pg-0"].
Proof.
  assert (podsPreceded (map textOf twoUpdates)) as Hpre
    by (apply podsPrecededb_spec; reflexivity).
  split; [exact Hpre |]. split; [reflexivity |].
  destruct (pod_violations_in_arrival_order tt twoUpdates Hpre eq_refl)
    as (s' & Hrun & Hpods & _).
  exists s'. split; [exact Hrun |].
  exact (f_equal (map (fmap canonical.Name)) Hpods).
Defined.

(** ** What the handler stores and what it forwards *)

Lemma stored_forward {World} code agent text (s : canonical.state World) :
  stored (canonical.forward code agent text s) = stored s.
Proof. unfold stored. by rewrite forward_w, forward_psvs, forward_pods. Qed.

Lemma handle_stored {W1 W2} (s1 : canonical.state W1) (s2 : canonical.state W2)
    (c1 c2 : Z) (a1 a2 text : string) :
  stored s1 = stored s2 ->
  stored <$> canonical.HandleWarningHeader c1 a1 text s1
  = stored <$> canonical.HandleWarningHeader c2 a2 text s2.
Proof.
  unfold stored at 1 2. intros [= Hw Hpsvs Hpods].
  destruct (shape_cases text) as [-> | [Hns | Hpod]].
  - rewrite !handle_empty_text. simpl. unfold stored. congruence.
  - rewrite !(handle_namespace _ _ _ _ Hns). cbv zeta.
    destruct (index TitleMatches0 _ 0) as [m0 |]; [| done]. rewrite !bind_Ret.
    destruct (index Submatch1 m0 1) as [ns |]; [| done]. rewrite !bind_Ret.
    destruct (index TitleMatches1 _ 1) as [m1 |]; [| done]. rewrite !bind_Ret.
    destruct (index Submatch1 m1 1) as [lvl |]; [| done]. rewrite !bind_Ret.
    simpl. rewrite !stored_forward. unfold stored. simpl. congruence.
  - rewrite !(handle_pod _ _ _ _ Hpod). rewrite Hw. cbv zeta.
    destruct (index LastPSViolation _ _) as [l |]; [| done]. rewrite !bind_Ret.
    destruct (index TextSplit0 _ 0) as [t0 |]; [| done]. rewrite !bind_Ret.
    destruct (index TextSplit1 _ 1) as [t1 |]; [| done]. rewrite !bind_Ret.
    rewrite Hpsvs. destruct (canonical.deref _ l) as [lastPSV |]; [| done].
    rewrite !bind_Ret. simpl. rewrite !stored_forward. unfold stored. simpl.
    congruence.
Qed.

(** X5: what the handler stores depends on the texts alone: two runs over
    the same texts, from states that store the same, end with the same
    store or with the same panic, whatever the codes, the agents, the
    wrapped handlers and their worlds. *)
Theorem stored_depends_on_texts_only {W1 W2}
    (s1 : canonical.state W1) (s2 : canonical.state W2)
    (ws1 ws2 : list (Z * string * string)) :
  stored s1 = stored s2 ->
  map textOf ws1 = map textOf ws2 ->
  stored <$> canonical.handleAll ws1 s1 = stored <$> canonical.handleAll ws2 s2.
Proof.
  revert s1 s2 ws2. induction ws1 as [| [[c1 a1] t1] ws1 IH];
    intros s1 s2 [| [[c2 a2] t2] ws2] Hst Htexts; try done.
  { simpl. by rewrite Hst. }
  cbn [map textOf snd] in Htexts. injection Htexts as -> Htexts.
  cbn [canonical.handleAll].
  pose proof (handle_stored s1 s2 c1 c2 a1 a2 t2 Hst) as Hstep.
  destruct (canonical.HandleWarningHeader c1 a1 t2 s1) as [s1' | p1];
    destruct (canonical.HandleWarningHeader c2 a2 t2 s2) as [s2' | p2];
    try done.
  rewrite !bind_Ret. apply IH; [| done]. cbn in Hstep. congruence.
Qed.

Lemma stored_depends_on_texts_only_witness :
  stored (canonical.empty tt) = stored spied
  /\ map textOf twoUpdates
     = map textOf (map (fun c => (0%Z, "kube-apiserver", textOf c)) twoUpdates)
  /\ stored <$> canonical.handleAll twoUpdates (canonical.empty tt)
     = stored <$>
         canonical.handleAll
           (map (fun c => (0%Z, "kube-apiserver", textOf c)) twoUpdates) spied.
Proof.
  split; [reflexivity |]. split; [reflexivity |].
  apply (stored_depends_on_texts_only (canonical.empty tt) spied); reflexivity.
Defined.

Lemma handle_forwards {World} (s s' : canonical.state World)
    (code : Z) (agent text : string) :
  canonical.HandleWarningHeader code agent text s = Ret s' ->
  canonical.defaultHandler (canonical.w s')
  = canonical.defaultHandler (canonical.w s)
  /\ canonical.world s' =
     if String.eqb text EmptyString then canonical.world s
     else match canonical.defaultHandler (canonical.w s) with
          | Some h => h code agent text (canonical.world s)
          | None => canonical.world s
          end.
Proof.
  destruct (shape_cases text) as [-> | [Hns | Hpod]].
  - by intros [= <-].
  - rewrite (handle_namespace _ _ _ _ Hns), (namespaceShape_not_empty _ Hns).
    cbv zeta.
    intros (? & _ & (? & _ & (? & _ & (? & _ & [= <-])%bind_Ret_inv
      )%bind_Ret_inv)%bind_Ret_inv)%bind_Ret_inv.
    unfold canonical.forward. simpl.
    by destruct (canonical.defaultHandler (canonical.w s)).
  - rewrite (handle_pod _ _ _ _ Hpod).
    destruct (podShape_inv _ Hpod) as [-> _]. cbv zeta.
    intros (? & _ & (? & _ & (? & _ & (? & _ & [= <-])%bind_Ret_inv
      )%bind_Ret_inv)%bind_Ret_inv)%bind_Ret_inv.
    unfold canonical.forward.
    destruct (canonical.defaultHandler (canonical.w s)) eqn:E; simpl;
      by rewrite ?E.
Qed.

(** X6: the handler is a pass-through for the handler it wraps: after a
    run that returns, the wrapped handler has received the warnings with a
    non-empty text, each once, in arrival order, with code, agent and text
    as they came, and no other call; the wrapped handler itself stays in
    place, and without one the world is untouched. *)
Theorem forwards_nonempty_warnings_in_order {World}
    (s s' : canonical.state World) (warnings : list (Z * string * string)) :
  canonical.handleAll warnings s = Ret s' ->
  canonical.defaultHandler (canonical.w s')
  = canonical.defaultHandler (canonical.w s)
  /\ canonical.world s' =
     match canonical.defaultHandler (canonical.w s) with
     | Some h => forwardAll h (List.filter nonEmptyText warnings)
                   (canonical.world s)
     | None => canonical.world s
     end.
Proof.
  revert s. induction warnings as [| [[code agent] text] warnings IH];
    intros s; simpl.
  { intros [= <-]. by destruct (canonical.defaultHandler _). }
  intros (s1 & Hstep & Hrun)%bind_Ret_inv.
  destruct (handle_forwards _ _ _ _ _ Hstep) as [Hdh Hwd].
  destruct (IH _ Hrun) as [Hdh' Hwd'].
  split; [congruence |]. rewrite Hwd', Hdh, Hwd.
  unfold nonEmptyText at 2. cbn [textOf snd].
  destruct (String.eqb text EmptyString); simpl;
    by destruct (canonical.defaultHandler (canonical.w s)).
Qed.

Lemma forwards_nonempty_warnings_in_order_witness :
  canonical.handleAll twoUpdates spied = Ret spiedAfterTwoUpdates
  /\ canonical.defaultHandler (canonical.w spiedAfterTwoUpdates)
     = canonical.defaultHandler (canonical.w spied)
  /\ canonical.world spiedAfterTwoUpdates =
     match canonical.defaultHandler (canonical.w spied) with
     | Some h => forwardAll h (List.filter nonEmptyText twoUpdates)
                   (canonical.world spied)
     | None => canonical.world spied
     end.
Proof.
  assert (canonical.handleAll twoUpdates spied = Ret spiedAfterTwoUpdates)
    as Hrun by (vm_compute; reflexivity).
  split; [exact Hrun |].
  exact (forwards_nonempty_warnings_in_order spied spiedAfterTwoUpdates
           twoUpdates Hrun).
Defined.

(** ** What the pass changes, and where it stops *)

Section EnrichFrame.
Context {World : Type} (client : Clientset).
Implicit Types s : canonical.state World.
Import canonical.

Lemma enrichedOnly_refl s : enrichedOnly s s.
Proof. by repeat split. Qed.

Lemma enrichedOnly_trans s1 s2 s3 :
  enrichedOnly s1 s2 -> enrichedOnly s2 s3 -> enrichedOnly s1 s3.
Proof.
  intros (Hw & Hq & Hwd & Hl & Hp) (Hw' & Hq' & Hwd' & Hl' & Hp').
  repeat split; try congruence.
  - destruct (Hp p), (Hp' p); congruence.
  - destruct (Hp p), (Hp' p); congruence.
Qed.

Lemma updatePod_enrichedOnly p f s s' :
  (forall v, Name (f v) = Name v /\ Violations (f v) = Violations v) ->
  updatePod p f s = Ret s' -> enrichedOnly s s'.
Proof.
  intros Hf. unfold updatePod, deref.
  destruct (pods s !! p) as [v |] eqn:Hv; [| done]. intros [= <-].
  repeat split; simpl; try done.
  - apply length_insert.
  - destruct (decide (p = p0)) as [<- |].
    + rewrite list_lookup_insert_eq by (by eapply lookup_lt_Some).
      unfold loc in *. rewrite Hv. simpl. f_equal. apply Hf.
    + by rewrite list_lookup_insert_ne.
  - destruct (decide (p = p0)) as [<- |].
    + rewrite list_lookup_insert_eq by (by eapply lookup_lt_Some).
      unfold loc in *. rewrite Hv. simpl. f_equal. apply Hf.
    + by rewrite list_lookup_insert_ne.
Qed.

Lemma resolveOwner_enrichedOnly ns p s s' r :
  resolveOwner client ns p s = Ret (s', r) -> enrichedOnly s s'.
Proof.
  unfold resolveOwner.
  intros (v & _ & H)%bind_Ret_inv.
  destruct (GetPod client ns (Name v)) as [pod | err];
    [| injection H as <- _; apply enrichedOnly_refl].
  apply bind_Ret_inv in H as (s1 & Hs1 & H).
  apply updatePod_enrichedOnly in Hs1; [| done].
  apply bind_Ret_inv in H as (owner & _ & H).
  destruct (String.eqb (metav1.Kind owner) "Deployment").
  { destruct (GetDeployment client ns (metav1.Name owner)) as [d | err];
      [| by injection H as <- _].
    apply bind_Ret_inv in H as (s2 & Hs2 & [= <- _]).
    apply updatePod_enrichedOnly in Hs2; [| done].
    by eapply enrichedOnly_trans. }
  destruct (String.eqb (metav1.Kind owner) "ReplicaSet");
    [| by injection H as <- _].
  destruct (GetReplicaSet client ns (metav1.Name owner)) as [rs | err];
    [| by injection H as <- _].
  apply bind_Ret_inv in H as (rsOwner & _ & H).
  destruct (GetDeployment client ns (metav1.Name rsOwner)) as [d | err];
    [| by injection H as <- _].
  apply bind_Ret_inv in H as (s2 & Hs2 & [= <- _]).
  apply updatePod_enrichedOnly in Hs2; [| done].
  by eapply enrichedOnly_trans.
Qed.

Lemma resolvePods_enrichedOnly ns ps s s' r :
  resolvePods client ns ps s = Ret (s', r) -> enrichedOnly s s'.
Proof.
  revert s. induction ps as [| p ps IH]; intros s; simpl.
  { intros [= <- _]. apply enrichedOnly_refl. }
  intros ([s1 [err |]] & Hstep & H)%bind_Ret_inv.
  - injection H as <- _. by eapply resolveOwner_enrichedOnly.
  - eapply enrichedOnly_trans; [by eapply resolveOwner_enrichedOnly | by apply IH].
Qed.

Lemma resolveNamespaces_enrichedOnly qs s s' r :
  resolveNamespaces client qs s = Ret (s', r) -> enrichedOnly s s'.
Proof.
  revert s. induction qs as [| q qs IH]; intros s; simpl.
  { intros [= <- _]. apply enrichedOnly_refl. }
  intros (psv & _ & ([s1 [err |]] & Hstep & H)%bind_Ret_inv)%bind_Ret_inv.
  - injection H as <- _. by eapply resolvePods_enrichedOnly.
  - eapply enrichedOnly_trans; [by eapply resolvePods_enrichedOnly | by apply IH].
Qed.

(** Both loops stop at the first error. *)
Lemma resolvePods_stops ns ps1 p ps2 s s1 s2 err :
  resolvePods client ns ps1 s = Ret (s1, None) ->
  resolveOwner client ns p s1 = Ret (s2, Some err) ->
  resolvePods client ns (ps1 ++ p :: ps2) s = Ret (s2, Some err).
Proof.
  revert s. induction ps1 as [| p1 ps1 IH]; intros s; simpl.
  { intros [= <-] ->. done. }
  intros ([s' [e |]] & Hr & H)%bind_Ret_inv Hp; [done |].
  rewrite Hr, bind_Ret. by apply IH.
Qed.

Lemma resolveNamespaces_stops qs1 q qs2 s s1 s2 psv err :
  resolveNamespaces client qs1 s = Ret (s1, None) ->
  psvs s1 !! q = Some psv ->
  resolvePods client (Namespace psv) (PodViolations psv) s1
  = Ret (s2, Some err) ->
  resolveNamespaces client (qs1 ++ q :: qs2) s = Ret (s2, Some err).
Proof.
  revert s. induction qs1 as [| q1 qs1 IH]; intros s; simpl.
  { intros [= <-] Hq Hp. unfold deref, loc in *. rewrite Hq. simpl.
    by rewrite Hp. }
  intros (psv1 & Hd & ([s' [e |]] & Hr & H)%bind_Ret_inv)%bind_Ret_inv Hq Hp;
    [done |].
  rewrite Hd, bind_Ret, Hr, bind_Ret. by apply IH.
Qed.

End EnrichFrame.

(** X7: whatever the cluster answers, a pass that returns, with or
    without an error, has changed nothing but pod and deployment fields:
    the mapper, the namespace entries and the wrapped handler's world are
    as before, no pod violation is added or removed, and each keeps its
    name and its violations. *)
Theorem enrich_changes_enrichment_fields_only {World} (client : Clientset)
    (s s' : canonical.state World) (r : option error) :
  canonical.enrich client s = Ret (s', r) ->
  canonical.w s' = canonical.w s
  /\ canonical.psvs s' = canonical.psvs s
  /\ canonical.world s' = canonical.world s
  /\ length (canonical.pods s') = length (canonical.pods s)
  /\ forall p,
       canonical.Name <$> canonical.pods s' !! p
       = canonical.Name <$> canonical.pods s !! p
       /\ canonical.Violations <$> canonical.pods s' !! p
          = canonical.Violations <$> canonical.pods s !! p.
Proof. apply resolveNamespaces_enrichedOnly. Qed.

Lemma enrich_changes_enrichment_fields_only_witness :
  exists s',
    canonical.enrich noDeploymentClient (treeWithPod "p0t-sekurity")
    = Ret (s', Some "deployments.apps not found")
    /\ canonical.psvs s' = canonical.psvs (treeWithPod "p0t-sekurity")
    /\ canonical.Name <$> canonical.pods s' !! 0 = Some "p0t-sekurity"
    /\ canonical.Violations <$> canonical.pods s' !! 0
       = Some ["runAsNonRoot != true"].
Proof.
  eexists. split; [reflexivity |].
  destruct (enrich_changes_enrichment_fields_only noDeploymentClient
              (treeWithPod "p0t-sekurity") _ _ eq_refl)
    as (_ & Hpsvs & _ & _ & Hp).
  split; [exact Hpsvs |]. destruct (Hp 0) as [Hname Hviol].
  split; [exact Hname | exact Hviol].
Defined.

(** X8: the pass stops at the first error.  When the namespace entries
    before [q] and the pod violations of [q] before [p] went through
    without error and the loop body returns an error at [p], the pass
    returns that error with the state the body left; the pod violations
    and entries behind are not visited, whatever they are. *)
Theorem enrich_stops_at_first_error {World} (client : Clientset)
    (s s1 s2 s3 : canonical.state World)
    (qs1 qs2 ps1 ps2 : list loc) (q p : loc)
    (psv : canonical.PSViolation) (err : error) :
  canonical.PSViolations (canonical.w s) = qs1 ++ q :: qs2 ->
  canonical.resolveNamespaces client qs1 s = Ret (s1, None) ->
  canonical.psvs s1 !! q = Some psv ->
  canonical.PodViolations psv = ps1 ++ p :: ps2 ->
  canonical.resolvePods client (canonical.Namespace psv) ps1 s1
  = Ret (s2, None) ->
  canonical.resolveOwner client (canonical.Namespace psv) p s2
  = Ret (s3, Some err) ->
  canonical.enrich client s = Ret (s3, Some err).
Proof.
  intros Hqs Hns Hq Hps Hpods Hbody. unfold canonical.enrich. rewrite Hqs.
  eapply resolveNamespaces_stops; [exact Hns | exact Hq |].
  rewrite Hps. by eapply resolvePods_stops.
Qed.

Lemma enrich_stops_at_first_error_witness :
  canonical.enrich exampleClient (treeWithTwoPods "evicted-pod" "p0t-sekurity")
  = Ret (treeWithTwoPods "evicted-pod" "p0t-sekurity", Some "pods not found")
  /\ exists s3,
      canonical.enrich exampleClient
        (treeWithTwoPods "p0t-sekurity" "evicted-pod")
      = Ret (s3, Some "pods not found")
      /\ canonical.Deployment <$> canonical.pods s3 !! 0
         = Some (Some {| appsv1.Name := "p0t-sekurity" |})
      /\ canonical.Pod <$> canonical.pods s3 !! 1 = Some None.
Proof.
  split.
  - eapply (enrich_stops_at_first_error exampleClient
              (treeWithTwoPods "evicted-pod" "p0t-sekurity") _ _ _
              [] [] [] [1] 0 0 _ "pods not found");
      reflexivity.
  - eexists. split.
    + eapply (enrich_stops_at_first_error exampleClient
                (treeWithTwoPods "p0t-sekurity" "evicted-pod") _ _ _
                [] [] [0] [] 0 1 _ "pods not found");
        reflexivity.
    + split; reflexivity.
Defined.

Section EnrichErrors.
Context {World : Type} (client : Clientset).
Implicit Types s : canonical.state World.
Import canonical.

(** X9: the loop body returns the error of the fetch that fails, as it
    is, and keeps what it had stored by then: nothing when the pod is not
    found, the pod alone (the deployment field as it was) when the
    deployment, the replica set or the replica set's deployment is not
    found. *)
Theorem resolveOwner_returns_fetch_error ns p s v (err : error) :
  pods s !! p = Some v ->
  (GetPod client ns (Name v) = inr err ->
   resolveOwner client ns p s = Ret (s, Some err))
  /\ (forall pod owner owners,
         GetPod client ns (Name v) = inl pod ->
         corev1.OwnerReferences pod = owner :: owners ->
         (metav1.Kind owner = "Deployment" ->
          GetDeployment client ns (metav1.Name owner) = inr err ->
          resolveOwner client ns p s
          = Ret (withPod p (setPod pod v) s, Some err))
         /\ (metav1.Kind owner = "ReplicaSet" ->
             GetReplicaSet client ns (metav1.Name owner) = inr err ->
             resolveOwner client ns p s
             = Ret (withPod p (setPod pod v) s, Some err))
         /\ (forall rs rsOwner rsOwners,
                metav1.Kind owner = "ReplicaSet" ->
                GetReplicaSet client ns (metav1.Name owner) = inl rs ->
                appsv1.OwnerReferences rs = rsOwner :: rsOwners ->
                GetDeployment client ns (metav1.Name rsOwner) = inr err ->
                resolveOwner client ns p s
                = Ret (withPod p (setPod pod v) s, Some err))).
Proof.
  intros Hp. unfold resolveOwner at 1, deref. rewrite Hp, bind_Ret.
  split; [by intros -> |].
  intros pod owner owners Hpod Hown.
  unfold resolveOwner, deref. rewrite Hp, bind_Ret, Hpod.
  rewrite (updatePod_withPod _ _ _ _ Hp), bind_Ret, Hown.
  change (index PodOwnerReferences0 (owner :: owners) 0) with (Ret owner).
  rewrite bind_Ret. split; [| split].
  - intros Hk Hd. rewrite Hk. simpl String.eqb. cbv iota. by rewrite Hd.
  - intros Hk Hrs. rewrite Hk. simpl String.eqb. cbv iota. by rewrite Hrs.
  - intros rs ro ros Hk Hrs Hro Hd. rewrite Hk. simpl String.eqb. cbv iota.
    rewrite Hrs, Hro.
    change (index ReplicaSetOwnerReferences0 (ro :: ros) 0) with (Ret ro).
    by rewrite bind_Ret, Hd.
Qed.

(** X10: a replica set without owner references stops the pass with a
    panic, index 0 out of range of length 0, raised after the pod has been
    attached. *)
Theorem resolveOwner_ownerless_replicaSet ns p s v pod owner owners rs :
  pods s !! p = Some v ->
  GetPod client ns (Name v) = inl pod ->
  corev1.OwnerReferences pod = owner :: owners ->
  metav1.Kind owner = "ReplicaSet" ->
  GetReplicaSet client ns (metav1.Name owner) = inl rs ->
  appsv1.OwnerReferences rs = [] ->
  resolveOwner client ns p s
  = Panic (IndexOutOfRange ReplicaSetOwnerReferences0 0 0).
Proof.
  intros Hp Hpod Hown Hk Hrs Hro.
  unfold resolveOwner, deref. rewrite Hp, bind_Ret, Hpod.
  rewrite (updatePod_withPod _ _ _ _ Hp), bind_Ret, Hown.
  change (index PodOwnerReferences0 (owner :: owners) 0) with (Ret owner).
  rewrite bind_Ret, Hk. simpl String.eqb. cbv iota. by rewrite Hrs, Hro.
Qed.

End EnrichErrors.

Lemma resolveOwner_returns_fetch_error_witness :
  canonical.resolveOwner exampleClient "p0t-sekurity" 0 (treeWithPod "evicted-pod")
  = Ret (treeWithPod "evicted-pod", Some "pods not found")
  /\ exists s',
      canonical.resolveOwner noDeploymentClient "p0t-sekurity" 0
        (treeWithPod "p0t-sekurity")
      = Ret (s', Some "deployments.apps not found")
      /\ canonical.Deployment <$> canonical.pods s' !! 0 = Some None
      /\ is_Some (canonical.pods s' !! 0 ≫= canonical.Pod).
Proof.
  split.
  - apply (resolveOwner_returns_fetch_error exampleClient "p0t-sekurity" 0
             (treeWithPod "evicted-pod") _ "pods not found" eq_refl).
    reflexivity.
  - eexists. split.
    + destruct (resolveOwner_returns_fetch_error noDeploymentClient
                  "p0t-sekurity" 0 (treeWithPod "p0t-sekurity") _
                  "deployments.apps not found" eq_refl) as [_ H].
      destruct (H _ _ _ eq_refl eq_refl) as (_ & _ & Hrs).
      apply (Hrs _ _ _ eq_refl eq_refl eq_refl eq_refl).
    + split; [reflexivity | by eexists].
Defined.

Lemma resolveOwner_ownerless_replicaSet_witness :
  canonical.resolveOwner orphanedReplicaSetClient "p0t-sekurity" 0
    (treeWithPod "p0t-sekurity")
  = Panic (IndexOutOfRange ReplicaSetOwnerReferences0 0 0)
  /\ canonical.enrich orphanedReplicaSetClient (treeWithPod "p0t-sekurity")
     = Panic (IndexOutOfRange ReplicaSetOwnerReferences0 0 0).
Proof.
  split; [| reflexivity].
  eapply (resolveOwner_ownerless_replicaSet orphanedReplicaSetClient
            "p0t-sekurity" 0 (treeWithPod "p0t-sekurity"));
    reflexivity.
Defined.

Section EnrichTwice.
Context {World : Type} (client : Clientset).
Implicit Types s : canonical.state World.
Import canonical.

(** What is resolved stays resolved: the fetches go by name and
    namespace, which the pass does not touch. *)
Lemma resolved_again ns v v' :
  resolved client ns v v' -> resolved client ns v' v'.
Proof.
  intros [pod owner owners d Hpod Hown Hk Hd
         | pod owner owners rs ro ros d Hpod Hown Hk Hrs Hro Hd
         | pod owner owners Hpod Hown Hk1 Hk2].
  - exact (resolved_deployment client ns (setDeployment d (setPod pod v))
             pod owner owners d Hpod Hown Hk Hd).
  - exact (resolved_replicaSet client ns (setDeployment d (setPod pod v))
             pod owner owners rs ro ros d Hpod Hown Hk Hrs Hro Hd).
  - exact (resolved_other client ns (setPod pod v)
             pod owner owners Hpod Hown Hk1 Hk2).
Qed.

Lemma resolved_pod ns v v' :
  resolved client ns v v' ->
  exists pod, GetPod client ns (Name v) = inl pod /\ Pod v' = Some pod.
Proof. intros []; eauto. Qed.

(** X11: the pass is idempotent on a tree it gets through: a second pass
    over the result returns without error and changes nothing. *)
Theorem enrich_idempotent s :
  enrichable client s ->
  exists s',
    enrich client s = Ret (s', None) /\ enrich client s' = Ret (s', None).
Proof.
  intros (Hval & Hnd & Hres).
  destruct (resolveNamespaces_ok client (PSViolations (w s)) s Hval Hnd Hres)
    as (s' & Hrun & Hw & Hpsvs & Hwd & Hin & Hout).
  exists s'. split; [done |].
  assert (forall q psv p,
             q ∈ PSViolations (w s) -> psvs s !! q = Some psv ->
             p ∈ PodViolations psv ->
             exists v', pods s' !! p = Some v'
                        /\ resolved client (Namespace psv) v' v') as Hres'.
  { intros q psv p Hq Hpsv Hp.
    destruct (Hres q psv p Hq Hpsv Hp) as (v & _ & Hv & _).
    destruct (Hin q psv p v Hq Hpsv Hp Hv) as (v' & Hr & Hv').
    exists v'. split; [done |]. by eapply resolved_again. }
  destruct (resolveNamespaces_ok client (PSViolations (w s')) s')
    as (s'' & Hrun' & Hw' & Hpsvs' & Hwd' & Hin' & Hout').
  { rewrite Hw, Hpsvs. exact Hval. }
  { by rewrite Hw, Hpsvs. }
  { rewrite Hw, Hpsvs. intros q psv p Hq Hpsv Hp.
    destruct (Hres' q psv p Hq Hpsv Hp) as (v' & Hv' & Hr). eauto. }
  unfold enrich. rewrite Hrun'. do 2 f_equal.
  assert (pods s'' = pods s') as Hpods.
  { apply list_eq. intros p.
    destruct (decide (p ∈ podPointers (psvs s') (PSViolations (w s'))))
      as [Hp | Hp]; [| by apply Hout'].
    apply elem_of_podPointers in Hp as (q & psv & Hq & Hpsv & Hp).
    rewrite Hw in Hq. pose proof Hpsv as Hpsv0. rewrite Hpsvs in Hpsv0.
    destruct (Hres' q psv p Hq Hpsv0 Hp) as (v' & Hv' & Hr).
    destruct (Hin' q psv p v') as (v'' & Hr' & Hv''); try done.
    { by rewrite Hw. }
    unfold loc in *. rewrite Hv', Hv''. f_equal. by eapply resolved_unique. }
  destruct s' as [w' psvs' pods' wd'], s'' as [w'' psvs'' pods'' wd''].
  simpl in *. congruence.
Qed.

(** X12: after a pass over a tree it gets through, every pod violation of
    the tree holds the pod the cluster returns for its name in the
    namespace of its entry. *)
Theorem enrich_attaches_pods s :
  enrichable client s ->
  exists s',
    enrich client s = Ret (s', None)
    /\ forall q psv p v,
        q ∈ PSViolations (w s) -> psvs s !! q = Some psv ->
        p ∈ PodViolations psv -> pods s !! p = Some v ->
        exists pod,
          GetPod client (Namespace psv) (Name v) = inl pod
          /\ Pod <$> pods s' !! p = Some (Some pod).
Proof.
  intros Hen. destruct (enrich_resolves client s Hen)
    as (s' & Hrun & _ & _ & _ & Hin).
  exists s'. split; [done |]. intros q psv p v Hq Hpsv Hp Hv.
  destruct (Hin q psv p v Hq Hpsv Hp Hv) as (v' & Hr & Hv').
  destruct (resolved_pod _ _ _ Hr) as (pod & Hpod & Hpv').
  exists pod. split; [done |]. rewrite Hv'. simpl. by rewrite Hpv'.
Qed.

End EnrichTwice.

Lemma enrich_idempotent_witness :
  enrichable exampleClient (treeWithPod "p0t-sekurity")
  /\ exists s',
      canonical.enrich exampleClient (treeWithPod "p0t-sekurity")
      = Ret (s', None)
      /\ canonical.enrich exampleClient s' = Ret (s', None).
Proof.
  assert (enrichable exampleClient (treeWithPod "p0t-sekurity")) as Hen.
  { eapply treeWithPod_enrichable.
    eapply resolved_replicaSet; reflexivity. }
  split; [exact Hen |].
  exact (enrich_idempotent exampleClient (treeWithPod "p0t-sekurity") Hen).
Defined.

Lemma enrich_attaches_pods_witness :
  enrichable exampleClient (treeWithPod "backup-28391")
  /\ exists s',
      canonical.enrich exampleClient (treeWithPod "backup-28391")
      = Ret (s', None)
      /\ exists pod,
          GetPod exampleClient "p0t-sekurity" "backup-28391" = inl pod
          /\ canonical.Pod <$> canonical.pods s' !! 0 = Some (Some pod).
Proof.
  assert (enrichable exampleClient (treeWithPod "backup-28391")) as Hen.
  { eapply treeWithPod_enrichable.
    eapply resolved_other; [reflexivity | reflexivity | discriminate..]. }
  split; [exact Hen |].
  destruct (enrich_attaches_pods exampleClient _ Hen) as (s' & Hrun & H).
  exists s'. split; [exact Hrun |].
  exact (H 0 _ 0 _ ltac:(by left) eq_refl ltac:(by left) eq_refl).
Defined.

(** ** The dry-run requests *)

Lemma enforcedLevel_not_empty (labels : option (gmap string string)) :
  enforcedLevel labels <> EmptyString.
Proof.
  unfold enforcedLevel.
  destruct (String.eqb_spec (mapGet labels auditLabel) EmptyString); done.
Qed.

Lemma mapAuditToEnforce_request (namespace : corev1.Namespace) :
  labelledItem namespace = true ->
  exists namespace',
    mapAuditToEnforce namespace = Ret (namespace', requestFor namespace).
Proof.
  unfold labelledItem, mapAuditToEnforce, requestFor, enforcedLevel.
  destruct (corev1.Labels namespace) as [labels |] eqn:Hl; [| done]. intros _.
  destruct (String.eqb (mapGet (Some labels) auditLabel) EmptyString).
  - simpl. eexists. do 3 f_equal. unfold mapGet. simpl.
    by rewrite lookup_insert_eq.
  - simpl. rewrite Hl. by eexists.
Qed.

(** X13: for a namespace with labels, the object sent to the dry-run
    update is the namespace under its own name with its own labels, except
    for the enforce label, which is the audit level, or restricted when
    the audit label is missing or empty; the enforce label sent is never
    empty, and an enforce label the namespace had is overwritten. *)
Theorem dry_run_request (namespace : corev1.Namespace)
    (labels : gmap string string) :
  corev1.Labels namespace = Some labels ->
  exists namespace' request,
    mapAuditToEnforce namespace = Ret (namespace', request)
    /\ corev1.NsName request = corev1.NsName namespace
    /\ corev1.Labels request
       = Some (<[enforceLabel :=
                   if String.eqb (mapGet (Some labels) auditLabel) EmptyString
                   then "restricted" else mapGet (Some labels) auditLabel]>
                 labels)
    /\ mapGet (corev1.Labels request) enforceLabel <> EmptyString.
Proof.
  intros Hl.
  destruct (mapAuditToEnforce_request namespace) as [namespace' Hrun].
  { unfold labelledItem. by rewrite Hl. }
  exists namespace', (requestFor namespace). split; [done |].
  unfold requestFor. rewrite Hl. simpl. split; [done |]. split; [done |].
  unfold mapGet at 1. simpl. rewrite lookup_insert_eq. simpl.
  apply (enforcedLevel_not_empty (Some labels)).
Qed.

Lemma dry_run_request_witness :
  corev1.Labels labelled
  = Some {[ "kubernetes.io/metadata.name" := "p0t-sekurity" ]}
  /\ exists namespace' request,
      mapAuditToEnforce labelled = Ret (namespace', request)
      /\ corev1.NsName request = "p0t-sekurity"
      /\ mapGet (corev1.Labels request) enforceLabel = "restricted"
      /\ mapGet (corev1.Labels request) "kubernetes.io/metadata.name"
         = "p0t-sekurity".
Proof.
  split; [reflexivity |].
  destruct (dry_run_request labelled _ eq_refl)
    as (namespace' & request & Hrun & Hname & Hlabels & _).
  exists namespace', request. split; [exact Hrun |]. split; [exact Hname |].
  rewrite Hlabels. unfold mapGet. simpl.
  rewrite lookup_insert_eq, lookup_insert_ne by done.
  by rewrite lookup_singleton_eq.
Defined.

(** X14: one call brings the input object to rest: a second call on the
    object the first one left returns too, leaves that object as it is,
    and asks to enforce the same level as the first. *)
Theorem mapAuditToEnforce_twice (namespace namespace' request : corev1.Namespace) :
  mapAuditToEnforce namespace = Ret (namespace', request) ->
  exists request',
    mapAuditToEnforce namespace' = Ret (namespace', request')
    /\ mapGet (corev1.Labels request') enforceLabel
       = mapGet (corev1.Labels request) enforceLabel
    /\ mapGet (corev1.Labels request') auditLabel
       = mapGet (corev1.Labels request) enforceLabel.
Proof.
  unfold mapAuditToEnforce.
  destruct namespace as [name [labels |]]; simpl.
  2:{ by destruct (String.eqb _ _). }
  destruct (String.eqb_spec (mapGet (Some labels) auditLabel) EmptyString)
    as [He | Hne]; simpl; intros [= <- <-]; simpl.
  - assert (mapGet (Some (<[auditLabel := "restricted"]> labels)) auditLabel
            = "restricted") as Ha
      by (unfold mapGet; simpl; by rewrite lookup_insert_eq).
    rewrite Ha. simpl. eexists. split; [reflexivity |]. simpl.
    unfold mapGet. simpl. rewrite !lookup_insert_eq. simpl.
    rewrite lookup_insert_ne by (apply not_eq_sym, audit_enforce_distinct).
    by rewrite lookup_insert_eq.
  - apply String.eqb_neq in Hne. rewrite Hne. simpl.
    eexists. split; [reflexivity |]. simpl.
    unfold mapGet. simpl. rewrite !lookup_insert_eq. simpl.
    by rewrite lookup_insert_ne by (apply not_eq_sym, audit_enforce_distinct).
Qed.

Lemma mapAuditToEnforce_twice_witness :
  exists namespace' request request',
    mapAuditToEnforce labelled = Ret (namespace', request)
    /\ mapAuditToEnforce namespace' = Ret (namespace', request')
    /\ mapGet (corev1.Labels request') enforceLabel
       = mapGet (corev1.Labels request) enforceLabel.
Proof.
  destruct (mapAuditToEnforce_request labelled eq_refl) as [namespace' Hrun].
  destruct (mapAuditToEnforce_twice labelled namespace' _ Hrun)
    as (request' & Hrun' & He & _).
  exists namespace', (requestFor labelled), request'.
  split; [exact Hrun |]. split; [exact Hrun' | exact He].
Defined.

(** ** The driving loop *)

Section Gather.
Context {World : Type} (namespaces : NamespaceInterface).
Implicit Types s : canonical.state World.

Lemma bind_assoc {A B C} (m : outcome A) (f : A -> outcome B)
    (g : B -> outcome C) :
  (m ≫= f) ≫= g = m ≫= (fun a => f a ≫= g).
Proof. by destruct m. Qed.

Lemma responses_cons n items :
  responses namespaces (n :: items)
  = fst (Update namespaces (requestFor n)) ++ responses namespaces items.
Proof. reflexivity. Qed.

Lemma responses_app items1 items2 :
  responses namespaces (items1 ++ items2)
  = responses namespaces items1 ++ responses namespaces items2.
Proof. unfold responses. by rewrite map_app, concat_app. Qed.

Lemma gather_cons n items s :
  labelledItem n = true ->
  driver.gather namespaces (n :: items) s =
    canonical.handleAll (fst (Update namespaces (requestFor n))) s
    ≫= fun s' =>
         match snd (Update namespaces (requestFor n)) with
         | Some err => Ret (s', Some err)
         | None => driver.gather namespaces items s'
         end.
Proof.
  intros Hl. destruct (mapAuditToEnforce_request n Hl) as [n' Hrun].
  cbn [driver.gather]. by rewrite Hrun.
Qed.

(** While the namespaces have labels and the updates are accepted, the
    loop hands the warnings of the responses to the handler, in order. *)
Lemma gather_accepted items s :
  forallb labelledItem items = true ->
  forallb (accepted namespaces) items = true ->
  driver.gather namespaces items s =
    canonical.handleAll (responses namespaces items) s
    ≫= fun s' => Ret (s', None).
Proof.
  revert s. induction items as [| n items IH]; intros s Hl Ha; [done |].
  simpl in Hl, Ha. apply andb_true_iff in Hl as [Hn Hl].
  apply andb_true_iff in Ha as [Han Ha].
  rewrite (gather_cons _ _ _ Hn), responses_cons, handleAll_app, bind_assoc.
  unfold accepted in Han.
  destruct (snd (Update namespaces (requestFor n))); [done |].
  destruct (canonical.handleAll _ s) as [s1 |]; [| done].
  rewrite !bind_Ret. by apply IH.
Qed.

Lemma gather_app items1 items2 s :
  forallb labelledItem items1 = true ->
  forallb (accepted namespaces) items1 = true ->
  driver.gather namespaces (items1 ++ items2) s =
    canonical.handleAll (responses namespaces items1) s
    ≫= driver.gather namespaces items2.
Proof.
  revert s. induction items1 as [| n items1 IH]; intros s Hl Ha; [done |].
  simpl in Hl, Ha. apply andb_true_iff in Hl as [Hn Hl].
  apply andb_true_iff in Ha as [Han Ha].
  rewrite <- app_comm_cons.
  rewrite (gather_cons _ _ _ Hn), responses_cons, handleAll_app, bind_assoc.
  unfold accepted in Han.
  destruct (snd (Update namespaces (requestFor n))); [done |].
  destruct (canonical.handleAll _ s) as [s1 |]; [| done].
  rewrite !bind_Ret. by apply IH.
Qed.

(** X15: while every namespace of the list has labels and every dry-run
    update is accepted, the driving loop is the handler run over the
    warnings of all the responses, in the order of the list, and returns
    no error. *)
Theorem gather_handles_responses_in_order
    (items : list corev1.Namespace) s :
  forallb labelledItem items = true ->
  forallb (accepted namespaces) items = true ->
  driver.gather namespaces items s =
    canonical.handleAll (responses namespaces items) s
    ≫= fun s' => Ret (s', None).
Proof. apply gather_accepted. Qed.

(** X16: the driving loop stops at the first update that fails: the
    warnings of the responses up to and with the failed one have been
    handled, the error is returned, and no request is sent for the
    namespaces behind, whatever they are. *)
Theorem gather_stops_at_failed_update
    (items1 items2 : list corev1.Namespace) (n : corev1.Namespace)
    (err : error) s :
  forallb labelledItem items1 = true ->
  forallb (accepted namespaces) items1 = true ->
  labelledItem n = true ->
  snd (Update namespaces (requestFor n)) = Some err ->
  driver.gather namespaces (items1 ++ n :: items2) s =
    canonical.handleAll (responses namespaces (items1 ++ [n])) s
    ≫= fun s' => Ret (s', Some err).
Proof.
  intros Hl Ha Hn Herr.
  rewrite (gather_app _ _ _ Hl Ha), responses_app, handleAll_app, bind_assoc.
  destruct (canonical.handleAll _ s) as [s1 |]; [| done]. rewrite !bind_Ret.
  rewrite (gather_cons _ _ _ Hn), Herr.
  unfold responses at 1. simpl. by rewrite app_nil_r.
Qed.

(** X17: a namespace without labels in the list brings the driving loop
    down: once the namespaces before it are through, the loop panics on
    the assignment into the nil map, and no request is sent for it or for
    the namespaces behind. *)
Theorem gather_panics_on_unlabelled
    (items1 items2 : list corev1.Namespace) (n : corev1.Namespace) s :
  forallb labelledItem items1 = true ->
  forallb (accepted namespaces) items1 = true ->
  corev1.Labels n = None ->
  driver.gather namespaces (items1 ++ n :: items2) s =
    canonical.handleAll (responses namespaces items1) s
    ≫= fun _ => Panic NilMapAssignment.
Proof.
  intros Hl Ha Hn. rewrite (gather_app _ _ _ Hl Ha).
  destruct (canonical.handleAll _ s) as [s1 |]; [| done]. rewrite !bind_Ret.
  cbn [driver.gather]. unfold mapAuditToEnforce. rewrite Hn. done.
Qed.

End Gather.

Lemma gather_handles_responses_in_order_witness :
  forallb labelledItem [shopNs; dbNs] = true
  /\ forallb (accepted exampleNamespaces) [shopNs; dbNs] = true
  /\ responses exampleNamespaces [shopNs; dbNs] = twoUpdates
  /\ driver.gather exampleNamespaces [shopNs; dbNs] (canonical.empty tt)
     = canonical.handleAll twoUpdates (canonical.empty tt)
       ≫= fun s' => Ret (s', None).
Proof.
  split; [reflexivity |]. split; [reflexivity |]. split; [reflexivity |].
  exact (gather_handles_responses_in_order exampleNamespaces [shopNs; dbNs]
           (canonical.empty tt) eq_refl eq_refl).
Defined.

Lemma gather_stops_at_failed_update_witness :
  forallb labelledItem [shopNs] = true
  /\ forallb (accepted exampleNamespaces) [shopNs] = true
  /\ labelledItem goneNs = true
  /\ snd (Update exampleNamespaces (requestFor goneNs))
     = Some "namespaces not found"
  /\ driver.gather exampleNamespaces ([shopNs] ++ goneNs :: [dbNs])
       (canonical.empty tt)
     = canonical.handleAll (responses exampleNamespaces ([shopNs] ++ [goneNs]))
         (canonical.empty tt)
       ≫= fun s' => Ret (s', Some "namespaces not found").
Proof.
  do 4 (split; [reflexivity |]).
  exact (gather_stops_at_failed_update exampleNamespaces [shopNs] [dbNs]
           goneNs "namespaces not found" (canonical.empty tt)
           eq_refl eq_refl eq_refl eq_refl).
Defined.

Lemma gather_panics_on_unlabelled_witness :
  forallb labelledItem [shopNs] = true
  /\ forallb (accepted exampleNamespaces) [shopNs] = true
  /\ corev1.Labels unlabelled = None
  /\ driver.gather exampleNamespaces ([shopNs] ++ unlabelled :: [dbNs])
       (canonical.empty tt)
     = canonical.handleAll (responses exampleNamespaces [shopNs])
         (canonical.empty tt)
       ≫= fun _ => Panic NilMapAssignment.
Proof.
  do 3 (split; [reflexivity |]).
  exact (gather_panics_on_unlabelled exampleNamespaces [shopNs] [dbNs]
           unlabelled (canonical.empty tt) eq_refl eq_refl eq_refl).
Defined.

(** ** [app], end to end *)

Lemma tree_entry_of_pointers {World} (s : canonical.state World)
    (tree : list canonical.NamespaceViolation) q psv p v :
  canonical.view s = map Some tree ->
  q ∈ canonical.PSViolations (canonical.w s) ->
  canonical.psvs s !! q = Some psv ->
  p ∈ canonical.PodViolations psv ->
  canonical.pods s !! p = Some v ->
  exists e,
    e ∈ tree /\ canonical.namespace e = canonical.Namespace psv
    /\ Some v ∈ canonical.podViolations e.
Proof.
  intros Hview Hq Hpsv Hp Hv.
  assert (In (canonical.viewPSViolation s q) (canonical.view s)) as Hin
    by (apply in_map; by apply list_elem_of_In).
  rewrite Hview in Hin. apply in_map_iff in Hin as (e & He & Hin).
  exists e. split; [by apply list_elem_of_In |].
  unfold canonical.viewPSViolation in He. unfold loc in *.
  rewrite Hpsv in He. simpl in He. injection He as ->. simpl.
  split; [done |]. rewrite <- Hv. apply list_elem_of_In.
  apply (in_map (fun q0 => canonical.pods s !! q0)).
  by apply list_elem_of_In.
Qed.

(** X18: [app] end to end.  When the clients are built, the list of
    namespaces arrives, every namespace has labels, every dry-run update
    is accepted, the warnings of the responses form a well-formed
    sequence and the cluster answers the fetches for every pod violation
    of the tree, [app] returns no error and prints one line: the report of
    the tree built from the warnings of all the responses and then
    enriched, whose entries are, in order, the namespace-shape warnings
    received. *)
Theorem app_prints_the_report {World} (wd : World)
    (Encode : list (option canonical.NamespaceViolation) -> string + error)
    (client : Clientset) (namespaces : NamespaceInterface)
    (items : list corev1.Namespace) :
  List namespaces = inl items ->
  forallb labelledItem items = true ->
  forallb (accepted namespaces) items = true ->
  podsPreceded (map textOf (responses namespaces items)) ->
  forallb wellFormedb (map textOf (responses namespaces items)) = true ->
  (forall e pv,
      e ∈ treeOf (map textOf (responses namespaces items)) ->
      Some pv ∈ canonical.podViolations e ->
      exists pv', resolved client (canonical.namespace e) pv pv') ->
  exists s1 s2,
    canonical.handleAll (responses namespaces items) (canonical.empty wd)
    = Ret s1
    /\ canonical.enrich client s1 = Ret (s2, None)
    /\ driver.app Encode (inl (client, namespaces)) wd
       = Ret ([canonical.String Encode s2], None)
    /\ namespacesOf (canonical.view s2)
       = map titles (filter (fun t => isNamespaceShape t = true)
                       (map textOf (responses namespaces items))).
Proof.
  intros Hlist Hl Ha Hpre Hwf Hres.
  destruct (handleAll_tree wd _ Hpre Hwf) as (s1 & Hrun & Hview).
  destruct (handleAll_namespaces (responses namespaces items)
              (canonical.empty wd)) as (s1' & Hrun' & _ & Hst);
    [constructor | by apply podsPrecededb_spec | done |].
  rewrite Hrun in Hrun'. injection Hrun' as <-.
  assert (enrichable client s1) as Hen.
  { eapply built_enrichable; [exact Hrun |].
    intros q psv p v Hq Hpsv Hp Hv.
    destruct (tree_entry_of_pointers s1 _ q psv p v Hview Hq Hpsv Hp Hv)
      as (e & He & <- & Hin).
    by eapply Hres. }
  destruct (enrich_resolves client s1 Hen) as (s2 & Henrich & Hw & Hpsvs & _).
  exists s1, s2. split; [done |]. split; [done |]. split.
  - unfold driver.app. rewrite Hlist, (gather_accepted _ _ _ Hl Ha), Hrun.
    rewrite !bind_Ret. by rewrite Henrich.
  - rewrite namespacesOf_view. unfold storedNamespaces. rewrite Hw, Hpsvs.
    exact Hst.
Qed.

Lemma app_prints_the_report_witness :
  exists s1 s2 : canonical.state unit,
    canonical.handleAll (responses sekurityNamespaces [labelled])
      (canonical.empty tt) = Ret s1
    /\ canonical.enrich exampleClient s1 = Ret (s2, None)
    /\ driver.app exampleEncode (inl (exampleClient, sekurityNamespaces)) tt
       = Ret ([canonical.String exampleEncode s2], None)
    /\ namespacesOf (canonical.view s2)
       = map titles (filter (fun t => isNamespaceShape t = true)
                       (map textOf (responses sekurityNamespaces [labelled]))).
Proof.
  apply (app_prints_the_report tt exampleEncode exampleClient
           sekurityNamespaces [labelled]).
  - reflexivity.
  - reflexivity.
  - reflexivity.
  - apply podsPrecededb_spec. vm_compute. reflexivity.
  - vm_compute. reflexivity.
  - assert (treeOf (map textOf (responses sekurityNamespaces [labelled]))
            = [{| canonical.namespace := "p0t-sekurity";
                  canonical.level := "restricted:latest";
                  canonical.podViolations :=
                    [Some {| canonical.Name := "p0t-sekurity";
                             canonical.Deployment := None;
                             canonical.Pod := None;
                             canonical.Violations :=
                               ["allowPrivilegeEscalation != false";
                                "unrestricted capabilities"] |}] |}]) as ->
      by (vm_compute; reflexivity).
    intros e pv ->%list_elem_of_singleton Hpv.
    apply list_elem_of_singleton in Hpv. injection Hpv as ->.
    eexists. eapply resolved_replicaSet; reflexivity.
Defined.

(** ** The two variants side by side *)

(** A text that holds the separator of the enriching variant holds the
    colon the older variant splits at. *)
Lemma Cut_colon (text : string) :
  is_Some (strings.Cut text ": ") -> is_Some (strings.Cut text ":").
Proof.
  intros [[name rest] Hcut%Cut_Some].
  destruct (strings.Cut text ":") as [r |] eqn:E; [by eexists |].
  exfalso. apply (Cut_None _ _ E name (" " +:+ rest)).
  exact Hcut.
Qed.

Lemma wellFormed_simple (text : string) :
  wellFormedb text = true -> simpleWellFormedb text = true.
Proof.
  unfold wellFormedb, simpleWellFormedb.
  destruct (isNamespaceShape text); [done |].
  destruct (isPodShape text); [| done].
  intros H%bool_decide_eq_true. by apply bool_decide_eq_true, Cut_colon.
Qed.

Section Variants.
Context {W1 W2 : Type}.
Implicit Types (sc : canonical.state W1) (ss : simple.state W2).

(** A call of the enriching variant that returns was given a text in the
    format, and a pod-shape one only with an entry stored. *)
Lemma returns_wellFormed sc sc' code agent text :
  canonical.HandleWarningHeader code agent text sc = Ret sc' ->
  wellFormedb text = true
  /\ (isPodShape text = true -> hasNamespace sc = true).
Proof.
  destruct (shape_cases text) as [-> | [Hns | Hpod]]; [done | |].
  - rewrite (handle_namespace _ _ _ _ Hns). cbv zeta.
    intros (? & _ & (? & _ & (m1 & Hm1 & _)%bind_Ret_inv
      )%bind_Ret_inv)%bind_Ret_inv.
    split; [| unfold isPodShape; rewrite Hns; by rewrite andb_false_r].
    unfold wellFormedb. rewrite Hns. apply Nat.leb_le.
    unfold index in Hm1. change (1 <? 0)%Z with false in Hm1.
    change (Z.to_nat 1) with 1%nat in Hm1. cbv iota in Hm1.
    destruct (regexp.FindAllStringSubmatch text !! 1%nat) eqn:E; [| done].
    apply lookup_lt_Some in E. lia.
  - rewrite (handle_pod _ _ _ _ Hpod).
    intros (l & Hl & H)%bind_Ret_inv. cbv zeta in H.
    apply bind_Ret_inv in H as (t0 & _ & (t1 & Ht1 & _)%bind_Ret_inv).
    destruct (podShape_inv _ Hpod) as [_ Hns]. split.
    + unfold wellFormedb. rewrite Hns, Hpod. apply bool_decide_eq_true.
      destruct (strings.Cut text ": ") as [r |] eqn:E; [by eexists |].
      by rewrite Split_eq, E in Ht1.
    + intros _. unfold hasNamespace.
      by destruct (canonical.PSViolations (canonical.w sc)).
Qed.

Lemma simple_handle_namespace_titles ss code agent text ns lvl :
  isNamespaceShape text = true ->
  titles text = Some (ns, lvl) ->
  exists ss',
    simple.HandleWarningHeader code agent text ss = Ret ss'
    /\ simple.PSViolations (simple.w ss')
       = simple.PSViolations (simple.w ss)
         ++ [{| simple.Namespace := ns; simple.Level := lvl;
                simple.PodViolations := [] |}].
Proof.
  intros Hns Ht. destruct (titles_inv _ _ _ Ht) as (x0 & x1 & more & Hfind).
  rewrite (simple_handle_namespace _ _ _ _ Hns), Hfind. cbv zeta.
  eexists. split; [reflexivity |]. by rewrite simple_forward_w.
Qed.

Lemma variants_step sc sc' ss code agent text :
  locsValid sc ->
  storedNamespaces sc = simpleNamespaces ss ->
  canonical.HandleWarningHeader code agent text sc = Ret sc' ->
  exists ss',
    simple.HandleWarningHeader code agent text ss = Ret ss'
    /\ locsValid sc'
    /\ storedNamespaces sc' = simpleNamespaces ss'.
Proof.
  intros Hval Hsame Hrun.
  destruct (returns_wellFormed _ _ _ _ _ Hrun) as [Hwf Hhas].
  destruct (shape_cases text) as [-> | [Hns | Hpod]].
  - injection Hrun as <-. by exists ss.
  - destruct (handle_namespace_ok code agent text sc Hns Hwf Hval)
      as (sc1 & Hrun1 & Hval1 & _ & Hst1).
    rewrite Hrun in Hrun1. injection Hrun1 as <-.
    destruct (entryOf_wellFormed _ Hns Hwf) as (ns & lvl & Ht & _).
    destruct (simple_handle_namespace_titles ss code agent text ns lvl Hns Ht)
      as (ss' & Hrun' & Hps).
    exists ss'. split; [done |]. split; [done |].
    rewrite Hst1, Hsame, Ht. unfold simpleNamespaces.
    by rewrite Hps, map_app.
  - destruct (handle_pod_ok code agent text sc Hpod Hwf Hval (Hhas Hpod))
      as (sc1 & Hrun1 & Hval1 & _ & Hst1).
    rewrite Hrun in Hrun1. injection Hrun1 as <-.
    exists (simple.forward code agent text ss). split; [| split; [done |]].
    + apply simple_pod_returns; [done | |].
      * intros Hnil. specialize (Hhas Hpod).
        apply (f_equal length) in Hsame.
        unfold storedNamespaces, simpleNamespaces in Hsame.
        rewrite !length_map, Hnil in Hsame. unfold hasNamespace in Hhas.
        by destruct (canonical.PSViolations (canonical.w sc)).
      * apply Cut_colon. destruct (podShape_inv _ Hpod) as [_ Hns].
        unfold wellFormedb in Hwf. rewrite Hns, Hpod in Hwf.
        by apply bool_decide_eq_true in Hwf.
    + rewrite Hst1, Hsame. unfold simpleNamespaces.
      by rewrite simple_forward_w.
Qed.

Lemma variants_run warnings sc sc' ss :
  locsValid sc ->
  storedNamespaces sc = simpleNamespaces ss ->
  canonical.handleAll warnings sc = Ret sc' ->
  exists ss',
    simple.handleAll warnings ss = Ret ss'
    /\ storedNamespaces sc' = simpleNamespaces ss'.
Proof.
  revert sc ss. induction warnings as [| [[code agent] text] warnings IH];
    intros sc ss Hval Hsame; simpl.
  { intros [= <-]. by exists ss. }
  intros (sc1 & Hstep & Hrun)%bind_Ret_inv.
  destruct (variants_step _ _ ss _ _ _ Hval Hsame Hstep)
    as (ss1 & -> & Hval1 & Hsame1).
  rewrite bind_Ret. by eapply IH.
Qed.

End Variants.

(** X19: whenever the enriching variant gets through a run from the empty
    mapper, so does the older variant on the same warnings, and its tree
    has the same namespaces and levels in the same order, but no pod
    violation in any entry. *)
Theorem older_variant_agrees_on_namespaces {W1 W2} (wd1 : W1) (wd2 : W2)
    (warnings : list (Z * string * string)) (sc : canonical.state W1) :
  canonical.handleAll warnings (canonical.empty wd1) = Ret sc ->
  exists ss,
    simple.handleAll warnings (simple.empty wd2) = Ret ss
    /\ simpleNamespaces ss = namespacesOf (canonical.view sc)
    /\ Forall (fun v => simple.PodViolations v = [])
         (simple.PSViolations (simple.w ss)).
Proof.
  intros Hrun.
  destruct (variants_run warnings (canonical.empty wd1) sc (simple.empty wd2))
    as (ss & Hrun' & Hsame); [constructor | done | done |].
  exists ss. split; [done |]. split; [by rewrite namespacesOf_view |].
  eapply simple_run_no_pods; [| exact Hrun']. constructor.
Qed.

Lemma older_variant_agrees_on_namespaces_witness :
  exists ss,
    simple.handleAll exampleWarnings (simple.empty tt) = Ret ss
    /\ simpleNamespaces ss = [Some ("p0t-sekurity", "restricted:latest")]
    /\ Forall (fun v => simple.PodViolations v = [])
         (simple.PSViolations (simple.w ss)).
Proof.
  destruct (older_variant_agrees_on_namespaces tt tt exampleWarnings _ eq_refl)
    as (ss & Hrun & Hsame & Hnone).
  exists ss. split; [exact Hrun |]. split; [exact Hsame | exact Hnone].
Defined.

(** ** The runs that return *)

Lemma returns_preceded {World} (warnings : list (Z * string * string))
    (s s' : canonical.state World) :
  locsValid s ->
  canonical.handleAll warnings s = Ret s' ->
  podsPrecededb (hasNamespace s) (map textOf warnings) = true
  /\ forallb wellFormedb (map textOf warnings) = true.
Proof.
  revert s. induction warnings as [| [[code agent] text] warnings IH];
    intros s Hval; [done |].
  cbn [canonical.handleAll map textOf snd forallb podsPrecededb].
  intros (s1 & Hstep & Hrun)%bind_Ret_inv.
  destruct (returns_wellFormed _ _ _ _ _ Hstep) as [Hwf Hhas]. rewrite Hwf.
  destruct (shape_cases text) as [-> | [Hns | Hpod]].
  - injection Hstep as <-. by apply IH.
  - rewrite Hns.
    destruct (handle_namespace_ok code agent text s Hns Hwf Hval)
      as (s1' & Hstep' & Hval1 & Hhas1 & _).
    rewrite Hstep in Hstep'. injection Hstep' as <-.
    destruct (IH s1 Hval1 Hrun) as [Hpre Hwfs]. by rewrite Hhas1 in Hpre.
  - destruct (podShape_inv _ Hpod) as [_ Hns]. rewrite Hns, Hpod.
    destruct (handle_pod_ok code agent text s Hpod Hwf Hval (Hhas Hpod))
      as (s1' & Hstep' & Hval1 & Hhas1 & _).
    rewrite Hstep in Hstep'. injection Hstep' as <-.
    destruct (IH s1 Hval1 Hrun) as [Hpre Hwfs].
    rewrite Hhas1 in Hpre. by rewrite (Hhas Hpod), Hpre.
Qed.

(** X21: the runs that return are exactly the well-formed ones.  From the
    empty mapper the handler gets through a sequence of warnings without a
    panic if and only if every pod-shape text is preceded by a
    namespace-shape text, every namespace-shape text holds two quoted
    segments or more and every pod-shape text holds the separator. *)
Theorem run_returns_iff_well_formed {World} (wd : World)
    (warnings : list (Z * string * string)) :
  (exists s', canonical.handleAll warnings (canonical.empty wd) = Ret s')
  <-> podsPreceded (map textOf warnings)
      /\ forallb wellFormedb (map textOf warnings) = true.
Proof.
  split.
  - intros [s' Hrun].
    destruct (returns_preceded warnings (canonical.empty wd) s') as [Hpre Hwf];
      [constructor | done |].
    split; [by apply podsPrecededb_spec | done].
  - intros [Hpre%podsPrecededb_spec Hwf].
    destruct (handleAll_namespaces warnings (canonical.empty wd))
      as (s' & Hrun & _); [constructor | done | done |].
    by exists s'.
Qed.

(** ** The older file's [app] *)

Section SimpleDriver.
Context {World : Type}.
Implicit Types s : simple.state World.

Lemma checkEach_no_pods (namespaces : NamespaceInterface) items s s' r :
  Forall (fun v => simple.PodViolations v = [])
    (simple.PSViolations (simple.w s)) ->
  simpleDriver.checkEach namespaces items s = Ret (s', r) ->
  Forall (fun v => simple.PodViolations v = [])
    (simple.PSViolations (simple.w s')).
Proof.
  revert s. induction items as [| n items IH]; intros s Hinv; simpl.
  { by intros [= <- _]. }
  intros (r1 & _ & H)%bind_Ret_inv.
  apply bind_Ret_inv in H as ([s1 e] & Hupd & H).
  unfold simpleDriver.dryUpdateNamespace in Hupd.
  apply bind_Ret_inv in Hupd as (s1' & Hrun & [= <- <-]).
  pose proof (simple_run_no_pods _ _ _ Hinv Hrun) as Hinv1.
  destruct (snd (Update namespaces (snd r1))).
  - by injection H as <- _.
  - by eapply IH.
Qed.

(** X20: the older program never reports a pod.  When its [app] returns
    an error it has printed nothing; otherwise it has printed one line,
    the report of a tree in which no entry holds a pod violation. *)
Theorem simple_app_reports_no_pods
    (Encode : list simple.PSViolation -> string + error)
    (clients : NamespaceInterface + error) (wd : World)
    (out : list string) (r : option error) :
  simpleDriver.app Encode clients wd = Ret (out, r) ->
  match r with
  | Some _ => out = []
  | None =>
      exists s,
        out = [simple.String Encode s]
        /\ Forall (fun v => simple.PodViolations v = [])
             (simple.PSViolations (simple.w s))
  end.
Proof.
  unfold simpleDriver.app. destruct clients as [ns | err]; [| by intros [= <- <-]].
  intros ([s [err |]] & Hcheck & H)%bind_Ret_inv; injection H as <- <-; [done |].
  exists s. split; [done |].
  unfold simpleDriver.checkAllNamespaces in Hcheck.
  destruct (List ns) as [items | err]; [| done].
  eapply (checkEach_no_pods ns); [| exact Hcheck]. constructor.
Qed.

End SimpleDriver.

Lemma simple_app_reports_no_pods_witness :
  simpleDriver.app namespacesOnlyEncode (inl exampleNamespaces) tt
  = Ret (["shop,db"], None)
  /\ exists s : simple.state unit,
      ["shop,db"] = [simple.String namespacesOnlyEncode s]
      /\ Forall (fun v => simple.PodViolations v = [])
           (simple.PSViolations (simple.w s)).
Proof.
  assert (simpleDriver.app namespacesOnlyEncode (inl exampleNamespaces) tt
          = Ret (["shop,db"], None)) as Happ by (vm_compute; reflexivity).
  split; [exact Happ |].
  exact (simple_app_reports_no_pods namespacesOnlyEncode
           (inl exampleNamespaces) tt ["shop,db"] None Happ).
Defined.
